(** * Battery telemetry analytics: cycle estimation and anomaly detection

    A shallow embedding of the two analytical routines of the report
    generation agent:

    - [cycles.py]: [calculate_cycles] and [compute_all_cycles], the
      equivalent-full-cycle counts over trailing windows;
    - [pp.py]: [detect_anomalies], the hybrid (hard + adaptive) anomaly
      detector over the 2-hour bucketed state-of-charge series.

    Conventions of the embedding.  A pandas DataFrame is the list of its
    rows, in index order.  Timestamps are integers (nanoseconds since the
    epoch, as pandas stores them).  A missing value (NaN) of a derived
    column is [None].  The columns read from the database hold values:
    a battery identifier is a string, never NULL, and a reading is a
    number.

    The code is embedded twice.  The modules [Cycles] and [Anomaly]
    read a float column as a column of exact rationals ([Q]), keep the
    one irrational quantity of the program, the standard deviation,
    exact as a square root of a rational (type [surd]), and read
    [sort_values] as a stable sort: rows with equal keys keep their
    input order.  They carry the properties that do not depend on
    rounding or on the order of rows with equal timestamps.  The
    modules [CyclesGen] and [AnomalyGen] embed the same lines over an
    arithmetic that is left open (binary floating point is one
    reading, the rationals another) and over a sort of which only the
    contract is assumed; they carry the properties that name the value
    computed.  The sort on two keys of [pp.py] is stable in pandas and
    in both embeddings. *)

From Stdlib Require Import String Ascii.
From Stdlib Require Import List ZArith QArith Qround Qminmax Bool Lia.
From Stdlib Require Import OrdersEx Permutation Sorted.
From Stdlib Require Import Lqa Reals Qreals Lra.
Import ListNotations.

Local Open Scope Q_scope.

(** Linear arithmetic over the rationals and over the reals. *)
Ltac qlra := Lqa.lra.
Ltac rlra := Lra.lra.

(** * Part I: the embedding *)

(** ** DataFrame primitives shared by both scripts *)

Section SortValues.

Context {A : Type}.
Variable leb : A -> A -> bool.

(** [DataFrame.sort_values]: rows are inserted from the last to the
    first, each one in front of the first row that is not smaller, so
    that rows with equal keys keep their input order. *)
Fixpoint insert_row (x : A) (l : list A) : list A :=
  match l with
  | [] => [x]
  | y :: t => if leb x y then x :: l else y :: insert_row x t
  end.

Definition sort_values (l : list A) : list A :=
  fold_right insert_row [] l.

Definition lebP (x y : A) : Prop := leb x y = true.

End SortValues.

(** [Series.unique]: the distinct values in order of first appearance,
    found by one pass that remembers the values already seen. *)
Fixpoint unique_from (seen : list string) (l : list string) : list string :=
  match l with
  | [] => []
  | x :: t =>
      if existsb (String.eqb x) seen then unique_from seen t
      else x :: unique_from (x :: seen) t
  end.

Definition unique (l : list string) : list string := unique_from [] l.

(** [Series.sum], which skips missing values. *)
Definition sum_col (col : list (option Q)) : Q :=
  fold_right (fun o acc => match o with Some d => d + acc | None => acc end) 0 col.

(** [Series.dropna]. *)
Fixpoint dropna (col : list (option Q)) : list Q :=
  match col with
  | [] => []
  | Some d :: t => d :: dropna t
  | None :: t => dropna t
  end.

(** Rounding to the nearest integer, ties to the even neighbour. *)
Definition rint (x : Q) : Z :=
  let f := Qfloor x in
  match Qcompare (x - inject_Z f) (1 # 2) with
  | Lt => f
  | Gt => (f + 1)%Z
  | Eq => if Z.even f then f else (f + 1)%Z
  end.

(** The builtin [round(x, ndigits)]. *)
Definition py_round (x : Q) (ndigits : nat) : Q :=
  let p := inject_Z (10 ^ Z.of_nat ndigits) in
  inject_Z (rint (x * p)) / p.

Definition Qltb (x y : Q) : bool := negb (Qle_bool y x).

(** ** cycles.py *)

Module Cycles.

Record sample := mkSample {
  ts : Z;
  battery_id : string;
  battery_soc_pct : Q
}.

(** [pd.Timedelta(hours=h)] and [pd.Timedelta(days=d)], in nanoseconds. *)
Definition Timedelta_hours (h : Z) : Z := (h * 3600 * 1000000000)%Z.
Definition Timedelta_days (d : Z) : Z := Timedelta_hours (24 * d).

Definition ts_leb (a b : sample) : bool := (ts a <=? ts b)%Z.

(** [Series.shift(1)]: every value moves one row down, the first row
    becomes NaN and the last value falls off. *)
Definition shift1 (col : list Q) : list (option Q) :=
  firstn (length col) (None :: map Some col).

(** Element-wise [a - b]; NaN propagates. *)
Definition sub_col (a : list (option Q)) (b : list Q) : list (option Q) :=
  map (fun pb => option_map (fun p => p - snd pb) (fst pb)) (combine a b).

(** [Series.clip(lower=lo)]; NaN stays NaN. *)
Definition clip_lower (lo : Q) (col : list (option Q)) : list (option Q) :=
  map (option_map (fun x => if Qle_bool lo x then x else lo)) col.

Definition calculate_cycles (df : list sample) : Q :=
  let df := sort_values ts_leb df in
  let soc := map battery_soc_pct df in
  let prev_soc := shift1 soc in
  let drop := clip_lower 0 (sub_col prev_soc soc) in
  sum_col drop / 100.

(** [bdf["ts"].max()]; [None] is NaT, the maximum of no rows. *)
Definition ts_max (df : list sample) : option Z :=
  match df with
  | [] => None
  | r :: t => Some (fold_left Z.max (map ts t) (ts r))
  end.

(** [bdf[bdf["ts"] >= (bdf["ts"].max() - delta)]]; a comparison with
    NaT is false on every row. *)
Definition trailing (delta : Z) (bdf : list sample) : list sample :=
  match ts_max bdf with
  | None => []
  | Some m => filter (fun r => (m - delta <=? ts r)%Z) bdf
  end.

(** [calculate_cycles(dfw) if len(dfw) > 1 else 0]. *)
Definition window_cycles (dfw : list sample) : Q :=
  if (1 <? length dfw)%nat then calculate_cycles dfw else 0.

Record cycle_counts := mkCounts {
  cc_battery_id : string;
  cycles_last_24h : Q;
  cycles_last_7d : Q;
  cycles_last_30d : Q;
  total_cycles : Q
}.

(** [df[df["battery_id"] == battery]]. *)
Definition rows_of (battery : string) (df : list sample) : list sample :=
  filter (fun r => String.eqb (battery_id r) battery) df.

(** The body of the loop of [compute_all_cycles]. *)
Definition battery_cycles (df : list sample) (battery : string) : cycle_counts :=
  let bdf := rows_of battery df in
  let df_24h := trailing (Timedelta_hours 24) bdf in
  let cycles_24h := window_cycles df_24h in
  let df_7d := trailing (Timedelta_days 7) bdf in
  let cycles_7d := window_cycles df_7d in
  let df_30d := trailing (Timedelta_days 30) bdf in
  let cycles_30d := window_cycles df_30d in
  let total := calculate_cycles bdf in
  {| cc_battery_id := battery;
     cycles_last_24h := py_round cycles_24h 3;
     cycles_last_7d := py_round cycles_7d 3;
     cycles_last_30d := py_round cycles_30d 3;
     total_cycles := py_round total 3 |}.

Definition compute_all_cycles (df : list sample) : list cycle_counts :=
  map (battery_cycles df) (unique (map battery_id df)).

(** *** The vocabulary of section 4.1 of the specification *)

Inductive window := Last24h | Last7d | Last30d | AllTime.

Definition window_span (w : window) : option Z :=
  match w with
  | Last24h => Some (Timedelta_hours 24)
  | Last7d => Some (Timedelta_days 7)
  | Last30d => Some (Timedelta_days 30)
  | AllTime => None
  end.

(** The count that a result row reports for a window. *)
Definition reported (w : window) (c : cycle_counts) : Q :=
  match w with
  | Last24h => cycles_last_24h c
  | Last7d => cycles_last_7d c
  | Last30d => cycles_last_30d c
  | AllTime => total_cycles c
  end.

(** [m] is the maximum timestamp of the rows [bdf]. *)
Definition is_latest (m : Z) (bdf : list sample) : Prop :=
  In m (map ts bdf) /\ forall r, In r bdf -> (ts r <= m)%Z.

(** Step 2 of the specification: of the sorted samples, those with
    [timestamp >= max(timestamp) - W]; all of them for the all-time
    window. *)
Definition restricted (w : window) (m : Z) (sorted : list sample) : list sample :=
  match window_span w with
  | None => sorted
  | Some span => filter (fun r => (m - span <=? ts r)%Z) sorted
  end.

(** Step 4 of the specification, before the division: the sum over
    neighbouring readings of [max(0, soc[i-1] - soc[i])]. *)
Fixpoint clamped_drop_sum (soc : list Q) : Q :=
  match soc with
  | a :: (b :: _) as t => Qmax 0 (a - b) + clamped_drop_sum t
  | _ => 0
  end.

End Cycles.

(** ** pp.py *)

(** Exact values of the form [rat_part + coef * sqrt radicand]: the
    standard deviation of rational data and what the program derives
    from it. *)
Record surd := mkSurd {
  rat_part : Q;
  coef : Q;
  radicand : Q
}.

Definition surd_R (s : surd) : R :=
  (Q2R (rat_part s) + Q2R (coef s) * sqrt (Q2R (radicand s)))%R.

(** [k * s] and [q - s]. *)
Definition surd_scale (k : Q) (s : surd) : surd :=
  mkSurd (k * rat_part s) (k * coef s) (radicand s).

Definition surd_rsub (q : Q) (s : surd) : surd :=
  mkSurd (q - rat_part s) (- coef s) (radicand s).

(** [x < s], decided exactly on the squares. *)
Definition Qlt_surd (x : Q) (s : surd) : bool :=
  let d := x - rat_part s in
  let b2v := coef s * coef s * radicand s in
  if Qle_bool 0 (coef s)
  then Qltb d 0 || Qltb (d * d) b2v
  else Qltb d 0 && Qltb b2v (d * d).

Definition Qsum (l : list Q) : Q := fold_right Qplus 0 l.

Definition Qlen (l : list Q) : Q := inject_Z (Z.of_nat (length l)).

(** [Series.mean]; the program calls it on a series with at least one
    value. *)
Definition mean (l : list Q) : Q := Qsum l / Qlen l.

(** The unbiased variance ([ddof=1]) under the root of [Series.std]. *)
Definition sample_variance (l : list Q) : Q :=
  Qsum (map (fun x => (x - mean l) * (x - mean l)) l) / (Qlen l - 1).

(** [Series.std]: NaN for fewer than two values. *)
Definition std (l : list Q) : option surd :=
  if (length l <=? 1)%nat then None
  else Some (mkSurd 0 1 (sample_variance l)).

Module Anomaly.

(** A row of the 2-hour aggregate: bucket start, battery, largest
    odometer reading and mean state of charge. *)
Record bucket := mkBucket {
  ts : Z;
  battery_id : string;
  odo : Q;
  soc : Q
}.

(** A row of the frame once the column [soc_drop] has been added. *)
Record row := mkRow {
  data : bucket;
  soc_drop : option Q
}.

Definition str_leb (a b : string) : bool :=
  match String_as_OT.compare a b with
  | Gt => false
  | _ => true
  end.

(** The order of [sort_values(["battery_id", "ts"])]. *)
Definition key_leb (a b : bucket) : bool :=
  match String_as_OT.compare (battery_id a) (battery_id b) with
  | Lt => true
  | Gt => false
  | Eq => (ts a <=? ts b)%Z
  end.

(** [df.groupby("battery_id")["soc"].diff()]: each row minus the row
    before it of the same battery, NaN on the first row of a battery.
    [last] holds the latest reading of every battery met so far. *)
Definition note (last : string -> option Q) (b : string) (v : Q) : string -> option Q :=
  fun b' => if String.eqb b' b then Some v else last b'.

Fixpoint group_diff (last : string -> option Q) (df : list bucket) : list (option Q) :=
  match df with
  | [] => []
  | r :: t =>
      option_map (fun p => soc r - p) (last (battery_id r))
        :: group_diff (note last (battery_id r) (soc r)) t
  end.

Definition nothing_seen : string -> option Q := fun _ => None.

(** [df["soc_drop"] = ...]. *)
Definition assign_soc_drop (df : list bucket) (col : list (option Q)) : list row :=
  map (fun p => mkRow (fst p) (snd p)) (combine df col).

Definition id_of (r : row) : string := battery_id (data r).

(** [for b, g in df.groupby("battery_id")]: the groups in increasing
    order of the key, the rows of a group in frame order. *)
Definition groupby (df : list row) : list (string * list row) :=
  map (fun b => (b, filter (fun r => String.eqb (id_of r) b) df))
      (sort_values str_leb (unique (map id_of df))).

(** [g["soc_drop"] < c] and [g["soc_drop"] < threshold]; a comparison
    with NaN on either side is false. *)
Definition lt_const (d : option Q) (c : Q) : bool :=
  match d with
  | Some d => Qltb d c
  | None => false
  end.

Definition lt_threshold (d : option Q) (t : option surd) : bool :=
  match d, t with
  | Some d, Some t => Qlt_surd d t
  | _, _ => false
  end.

(** [mean_d - 1.5 * std_d]. *)
Definition threshold_of (drops : list Q) : option surd :=
  let mean_d := mean drops in
  let std_d := std drops in
  option_map (fun s => surd_rsub mean_d (surd_scale (3 # 2) s)) std_d.

Definition is_anomalous (threshold : option surd) (r : row) : bool :=
  lt_const (soc_drop r) (-15) || lt_threshold (soc_drop r) threshold.

(** The body of the loop of [detect_anomalies]. *)
Definition flag_group (bg : string * list row) : string * list row * list row :=
  let (b, g) := bg in
  let drops := dropna (map soc_drop g) in
  if (length drops =? 0)%nat then (b, g, [])
  else
    let threshold := threshold_of drops in
    let g_anom := filter (is_anomalous threshold) g in
    (b, g, g_anom).

Definition detect_anomalies (df : list bucket) : list (string * list row * list row) :=
  let df := sort_values key_leb df in
  let df := assign_soc_drop df (group_diff nothing_seen df) in
  map flag_group (groupby df).

(** The anomaly subset that [flag_group] attaches to the group [g]. *)
Definition flagged (g : list row) : list row :=
  if (length (dropna (map soc_drop g)) =? 0)%nat then []
  else filter (is_anomalous (threshold_of (dropna (map soc_drop g)))) g.

Definition ts_leb (a b : row) : bool := (ts (data a) <=? ts (data b))%Z.

(** The rows of battery [b] in the sorted frame. *)
Definition series (b : string) (df : list bucket) : list bucket :=
  filter (fun x => String.eqb (battery_id x) b) (sort_values key_leb df).

(** The first differences of one series: each reading minus the one
    before it, [prev] standing before the first. *)
Fixpoint diff_after (prev : option Q) (soc : list Q) : list (option Q) :=
  match soc with
  | [] => []
  | s :: t => option_map (fun p => s - p) prev :: diff_after (Some s) t
  end.

(** [a] keeps some of the rows of [g], in the order of [g]. *)
Inductive subseq {A : Type} : list A -> list A -> Prop :=
| subseq_nil : subseq [] []
| subseq_skip x a g : subseq a g -> subseq a (x :: g)
| subseq_keep x a g : subseq a g -> subseq (x :: a) (x :: g).

End Anomaly.

(** ** The two scripts over a store of mutable frames

    In Python a DataFrame is an object: [sort_values], [copy] and
    selection by a mask build a new object, [df["c"] = ...] changes the
    object [df] in place.  Here the objects live in a heap, a frame is
    the list of its rows, and a row carries the values of the columns
    added to it after the frame was built. *)

Module Store.

Definition cells : Type := list (string * option Q).
Definition ref : Type := nat.

Abbreviation frame A := (list (A * cells)).
Abbreviation heap A := (list (frame A)).

Section Heap.

Context {A : Type}.

Definition M (T : Type) : Type := heap A -> T * heap A.

Definition ret {T : Type} (x : T) : M T := fun h => (x, h).

Definition bind {T U : Type} (m : M T) (k : T -> M U) : M U :=
  fun h => let (x, h') := m h in k x h'.

Definition alloc (f : frame A) : M ref := fun h => (length h, h ++ [f]).

Definition load (r : ref) : M (frame A) := fun h => (nth r h [], h).

Fixpoint set_nth (r : ref) (f : frame A) (h : heap A) : heap A :=
  match h, r with
  | [], _ => []
  | _ :: t, O => f :: t
  | g :: t, S r' => g :: set_nth r' f t
  end.

Definition store (r : ref) (f : frame A) : M unit := fun h => (tt, set_nth r f h).

Fixpoint for_each {T U : Type} (body : T -> M U) (l : list T) : M (list U) :=
  match l with
  | [] => ret []
  | x :: t =>
      bind (body x) (fun y => bind (for_each body t) (fun ys => ret (y :: ys)))
  end.

(** The value of the added column [name] in a row; NaN when absent. *)
Fixpoint cell (name : string) (c : cells) : option Q :=
  match c with
  | [] => None
  | (n, v) :: t => if String.eqb n name then v else cell name t
  end.

(** [df.sort_values(...)], [df[mask]] and [df.copy()]: new objects. *)
Definition sort_values_st (leb : A -> A -> bool) (r : ref) : M ref :=
  bind (load r) (fun f =>
  alloc (sort_values (fun x y => leb (fst x) (fst y)) f)).

Definition select (p : A * cells -> bool) (r : ref) : M ref :=
  bind (load r) (fun f => alloc (filter p f)).

Definition copy (r : ref) : M ref :=
  bind (load r) (fun f => alloc f).

(** [df[c]] for a base column and for an added column, and [len(df)]. *)
Definition column {T : Type} (proj : A -> T) (r : ref) : M (list T) :=
  bind (load r) (fun f => ret (map (fun x => proj (fst x)) f)).

Definition getitem (name : string) (r : ref) : M (list (option Q)) :=
  bind (load r) (fun f => ret (map (fun x => cell name (snd x)) f)).

Definition len (r : ref) : M nat :=
  bind (load r) (fun f => ret (length f)).

(** [df[name] = col]: the object [r] itself changes. *)
Definition add_column (name : string) (f : frame A) (col : list (option Q)) : frame A :=
  map (fun xv => (fst (fst xv), (name, snd xv) :: snd (fst xv))) (combine f col).

Definition setitem (name : string) (r : ref) (col : list (option Q)) : M unit :=
  bind (load r) (fun f => store r (add_column name f col)).

(** The base rows of the object [r]. *)
Definition rows_at (h : heap A) (r : ref) : list A := map fst (nth r h []).

(** [h'] keeps every object of [h] as it is and may hold new ones. *)
Definition extends (h h' : heap A) : Prop := exists ext, h' = h ++ ext.

(** Weakest precondition: [post] holds of the value and the heap that
    [m] produces from [h]. *)
Definition wp {T : Type} (m : M T) (h : heap A) (post : T -> heap A -> Prop) : Prop :=
  post (fst (m h)) (snd (m h)).

End Heap.

Arguments M : clear implicits.

Notation "x <- m ;; k" := (bind m (fun x => k))
  (at level 61, m at next level, right associativity).

(** *** cycles.py *)

Local Open Scope string_scope.

Definition calculate_cycles_st (df : ref) : M Cycles.sample Q :=
  df <- sort_values_st Cycles.ts_leb df ;;
  soc <- column Cycles.battery_soc_pct df ;;
  _ <- setitem "prev_soc" df (Cycles.shift1 soc) ;;
  prev_soc <- getitem "prev_soc" df ;;
  soc <- column Cycles.battery_soc_pct df ;;
  _ <- setitem "drop" df (Cycles.clip_lower 0 (Cycles.sub_col prev_soc soc)) ;;
  drop <- getitem "drop" df ;;
  ret (sum_col drop / 100).

(** [bdf[bdf["ts"] >= (bdf["ts"].max() - delta)]]. *)
Definition trailing_st (delta : Z) (bdf : ref) : M Cycles.sample ref :=
  f <- load bdf ;;
  match Cycles.ts_max (map fst f) with
  | None => select (fun _ => false) bdf
  | Some m => select (fun x => (m - delta <=? Cycles.ts (fst x))%Z) bdf
  end.

Definition window_cycles_st (dfw : ref) : M Cycles.sample Q :=
  n <- len dfw ;;
  if (1 <? n)%nat then calculate_cycles_st dfw else ret 0.

Definition battery_cycles_st (df : ref) (battery : string)
  : M Cycles.sample Cycles.cycle_counts :=
  bdf <- select (fun x => String.eqb (Cycles.battery_id (fst x)) battery) df ;;
  df_24h <- trailing_st (Cycles.Timedelta_hours 24) bdf ;;
  cycles_24h <- window_cycles_st df_24h ;;
  df_7d <- trailing_st (Cycles.Timedelta_days 7) bdf ;;
  cycles_7d <- window_cycles_st df_7d ;;
  df_30d <- trailing_st (Cycles.Timedelta_days 30) bdf ;;
  cycles_30d <- window_cycles_st df_30d ;;
  total <- calculate_cycles_st bdf ;;
  ret (Cycles.mkCounts battery (py_round cycles_24h 3) (py_round cycles_7d 3)
         (py_round cycles_30d 3) (py_round total 3)).

Definition compute_all_cycles_st (df : ref)
  : M Cycles.sample (list Cycles.cycle_counts) :=
  ids <- column Cycles.battery_id df ;;
  for_each (battery_cycles_st df) (unique ids).

(** *** pp.py *)

(** A row of a frame as the pure model sees it. *)
Definition as_row (x : Anomaly.bucket * cells) : Anomaly.row :=
  Anomaly.mkRow (fst x) (cell "soc_drop" (snd x)).

Definition view (h : heap Anomaly.bucket) (r : ref) : list Anomaly.row :=
  map as_row (nth r h []).

Definition flag_group_st (df : ref) (b : string)
  : M Anomaly.bucket (string * ref * ref) :=
  g <- select (fun x => String.eqb (Anomaly.battery_id (fst x)) b) df ;;
  soc_drop <- getitem "soc_drop" g ;;
  let drops := dropna soc_drop in
  if (length drops =? 0)%nat then
    empty <- alloc [] ;;
    ret (b, g, empty)
  else
    let threshold := Anomaly.threshold_of drops in
    g_anom <- select (fun x => Anomaly.is_anomalous threshold (as_row x)) g ;;
    ret (b, g, g_anom).

Definition detect_anomalies_st (df : ref)
  : M Anomaly.bucket (list (string * ref * ref)) :=
  df <- sort_values_st Anomaly.key_leb df ;;
  df <- copy df ;;
  rows <- column (fun x => x) df ;;
  _ <- setitem "soc_drop" df (Anomaly.group_diff Anomaly.nothing_seen rows) ;;
  ids <- column Anomaly.battery_id df ;;
  for_each (flag_group_st df) (sort_values Anomaly.str_leb (unique ids)).

(** The result with every frame read from the heap. *)
Definition observe (h : heap Anomaly.bucket) (out : list (string * ref * ref))
  : list (string * list Anomaly.row * list Anomaly.row) :=
  map (fun e => (fst (fst e), view h (snd (fst e)), view h (snd e))) out.

(** What one pass of the loop of [detect_anomalies] leaves behind:
    two frames in the heap that read as the pure [flag_group] says. *)
Definition pass_result (D : list Anomaly.row) (b : string)
           (e : string * ref * ref) (h : heap Anomaly.bucket) : Prop :=
  (snd (fst e) < length h)%nat /\ (snd e < length h)%nat /\
  (fst (fst e), view h (snd (fst e)), view h (snd e))
  = Anomaly.flag_group
      (b, filter (fun r => String.eqb (Anomaly.id_of r) b) D).

End Store.

(** ** pp.py: the text of the report and the summaries *)

Module Report.

(** A Python string is the list of its code points. *)
Definition str : Type := list N.

Definition codes (s : string) : str := map N_of_ascii (list_ascii_of_string s).

Fixpoint str_eqb (a b : str) : bool :=
  match a, b with
  | [], [] => true
  | x :: a', y :: b' => N.eqb x y && str_eqb a' b'
  | _, _ => false
  end.

(** [s.replace(old, new)] for strings of one character. *)
Definition replace_char (old new : N) (s : str) : str :=
  map (fun c => if N.eqb c old then new else c) s.

Definition is_ascii (c : N) : bool := (c <=? 127)%N.

Definition ascii_only (s : str) : Prop := Forall (fun c => (c <= 127)%N) s.

(** [re.sub(r"[^\x00-\x7F]", "", text)]. *)
Definition remove_non_ascii (s : str) : str := filter is_ascii s.

(** [s.encode("latin-1", "ignore").decode("latin-1", "ignore")]: the
    encoder skips what is above U+00FF. *)
Definition latin1_ignore (s : str) : str := filter (fun c => (c <=? 255)%N) s.

(** [str.strip()]: the characters for which [str.isspace] holds. *)
Definition is_space (c : N) : bool :=
  ((9 <=? c) && (c <=? 13) || (28 <=? c) && (c <=? 32) ||
   (c =? 133) || (c =? 160) || (c =? 5760) ||
   (8192 <=? c) && (c <=? 8202) ||
   (c =? 8232) || (c =? 8233) || (c =? 8239) || (c =? 8287) || (c =? 12288))%N.

Fixpoint lstrip (s : str) : str :=
  match s with
  | [] => []
  | c :: r => if is_space c then lstrip r else s
  end.

Definition strip (s : str) : str := rev (lstrip (rev (lstrip s))).

(** [text.split("\n")] and ["\n".join(lines)]. *)
Fixpoint split_lines (s : str) : list str :=
  match s with
  | [] => [[]]
  | c :: r =>
      if (c =? 10)%N then [] :: split_lines r
      else match split_lines r with
           | l :: ls => (c :: l) :: ls
           | [] => [[c]]
           end
  end.

Fixpoint join_lines (lines : list str) : str :=
  match lines with
  | [] => []
  | [l] => l
  | l :: ls => l ++ 10%N :: join_lines ls
  end.

(** The number of line breaks of a string. *)
Definition newlines (s : str) : nat := count_occ N.eq_dec s 10%N.

(** The "token reduction" of [call_groq_summary]: the first ten lines. *)
Definition reduce_lines (text : str) : str :=
  let lines := split_lines text in
  let lines := if (10 <? length lines)%nat then firstn 10 lines else lines in
  join_lines lines.

(** [f"Summarize this {purpose}:\n{text}"], the user message sent. *)
Definition user_message (text purpose : str) : str :=
  codes "Summarize this " ++ purpose ++ codes ":" ++ 10%N :: reduce_lines text.

Fixpoint starts_with (p s : str) : bool :=
  match p, s with
  | [], _ => true
  | x :: p', y :: s' => N.eqb x y && starts_with p' s'
  | _ :: _, [] => false
  end.

(** The number of characters in front of the first occurrence of [p]. *)
Fixpoint find (p s : str) : option nat :=
  match s with
  | [] => if starts_with p [] then Some O else None
  | _ :: r => if starts_with p s then Some O else option_map S (find p r)
  end.

Definition open_tag : str := codes "<think>".
Definition close_tag : str := codes "</think>".

(** The length of the match of [<think>.*?</think>] (with [re.DOTALL])
    that starts at the head of [s]: the opening tag, the fewest
    characters, the closing tag. *)
Definition think_match (s : str) : option nat :=
  if starts_with open_tag s
  then option_map (fun n => (length open_tag + n + length close_tag)%nat)
                  (find close_tag (skipn (length open_tag) s))
  else None.

(** [re.sub(r"<think>.*?</think>", "", out, flags=re.DOTALL)]: one
    pass from the left; [skip] characters of a match are still to be
    dropped. *)
Fixpoint sub_think (skip : nat) (s : str) : str :=
  match s with
  | [] => []
  | c :: r =>
      match skip with
      | S k => sub_think k r
      | O =>
          match think_match s with
          | Some n => sub_think (n - 1) r
          | None => c :: sub_think O r
          end
      end
  end.

Definition remove_think (s : str) : str := sub_think O s.

(** What one [requests.post] of [call_groq_summary] comes to.
    [Raises]: the request, [r.json()] or a later access raises.
    [Json error choices]: [error] is [Some code] when ["error"] is a key
    of the answer and [data["error"].get("code")] is [code]; [choices]
    is [Some (Some out)] when ["choices"] is a key and the content of
    the first choice is the string [out], [Some None] when the key is
    there and reading the content raises. *)
Inductive response :=
| Raises
| Json (error : option (option str)) (choices : option (option str)).

Definition is_rate_limit (error : option (option str)) : bool :=
  match error with
  | Some (Some code) => str_eqb code (codes "rate_limit_exceeded")
  | _ => false
  end.

(** The value returned, the number of requests made and the seconds
    slept. *)
Record call := mkCall {
  result : str;
  requests : nat;
  slept : Q
}.

Definition unavailable : str := codes "[Summary unavailable]".

Definition missing_key : str :=
  codes "[Summary unavailable " ++ 8211%N :: codes " missing API key]".

Definition Qnat (n : nat) : Q := inject_Z (Z.of_nat n).

(** What becomes of one character in the text of the report: the two
    dashes, the double and the single typographic quotes are replaced
    by their ASCII look-alikes, other ASCII characters stay, the rest
    goes. *)
Definition pdf_char (c : N) : str :=
  if ((c =? 8211) || (c =? 8212))%N then [45%N]
  else if ((c =? 8220) || (c =? 8221))%N then [34%N]
  else if ((c =? 8216) || (c =? 8217))%N then [39%N]
  else if is_ascii c then [c]
  else [].

(** A pass of the loop that goes on to the next one: an exception, a
    rate limit, or choices that cannot be read. *)
Definition retryable (r : response) : bool :=
  match r with
  | Raises => true
  | Json error choices =>
      is_rate_limit error ||
      match choices with
      | Some None => true
      | _ => false
      end
  end.

(** The longest time the loop can sleep from pass [attempt] on, in
    seconds: a rate limit in each of the [left] passes. *)
Fixpoint max_wait (attempt left : nat) : Q :=
  match left with
  | O => 0
  | S left' => (1 + Qnat attempt * (3 # 2)) + max_wait (S attempt) left'
  end.

Section Sanitizer.

(** [unicodedata.normalize("NFKD", .)], a function of the Unicode
    database. *)
Variable normalize_NFKD : str -> str.

Definition sanitize_for_pdf (text : option str) : str :=
  match text with
  | None => []
  | Some text =>
      let text := replace_char 8212 45 (replace_char 8211 45 text) in
      let text := replace_char 8221 34 (replace_char 8220 34 text) in
      let text := replace_char 8217 39 (replace_char 8216 39 text) in
      let text := remove_non_ascii text in
      let text := normalize_NFKD text in
      latin1_ignore text
  end.

(** The loop [for attempt in range(5)]: [server attempt] is what the
    request of that pass comes to, [left] passes remain. *)
Fixpoint attempts (server : nat -> response) (attempt left : nat) (waited : Q)
  : call :=
  match left with
  | O => mkCall unavailable attempt waited
  | S left' =>
      match server attempt with
      | Raises =>
          attempts server (S attempt) left' (waited + (1 + Qnat attempt))
      | Json error choices =>
          if is_rate_limit error then
            attempts server (S attempt) left'
                     (waited + (1 + Qnat attempt * (3 # 2)))
          else
            match choices with
            | Some (Some out) =>
                mkCall (sanitize_for_pdf (Some (strip (remove_think out))))
                       (S attempt) waited
            | Some None =>
                attempts server (S attempt) left' (waited + (1 + Qnat attempt))
            | None => mkCall unavailable (S attempt) waited
            end
      end
  end.

(** [has_key] is the truth value of [GROQ_API_KEY]. *)
Definition call_groq_summary (has_key : bool) (server : nat -> response) : call :=
  if negb has_key then mkCall missing_key 0 0
  else attempts server 0 5 0.

End Sanitizer.

(** *** main: the order of the pages *)

(** A row of [load_first_last]: the first and the last raw reading of
    a battery. *)
Record first_last := mkFirstLast {
  fl_battery_id : string;
  battery_soc_pct_first : Q;
  odo_meter_km_first : Q;
  battery_soc_pct_last : Q;
  odo_meter_km_last : Q
}.

Definition entry : Type := string * list Anomaly.row * list Anomaly.row.

(** [a[2].empty]. *)
Definition no_anomaly (a : entry) : bool := (length (snd a) =? 0)%nat.

(** [[a for a in anomalies if not a[2].empty] +
     [a for a in anomalies if a[2].empty]]. *)
Definition anomalies_sorted (anomalies : list entry) : list entry :=
  filter (fun a => negb (no_anomaly a)) anomalies ++ filter no_anomaly anomalies.

(** [df_raw[df_raw["battery_id"] == battery_id].iloc[0]]; [None] when
    [iloc] raises IndexError. *)
Definition raw_row (df_raw : list first_last) (battery_id : string)
  : option first_last :=
  hd_error (filter (fun r => String.eqb (fl_battery_id r) battery_id) df_raw).

(** The rows that the loop over the pages looks up, in its order;
    [None] when a lookup raises, which ends [main] before the report
    is written. *)
Fixpoint page_rows (df_raw : list first_last) (pages : list entry)
  : option (list first_last) :=
  match pages with
  | [] => Some []
  | a :: rest =>
      match raw_row df_raw (fst (fst a)) with
      | None => None
      | Some row =>
          match page_rows df_raw rest with
          | None => None
          | Some rows => Some (row :: rows)
          end
      end
  end.

Definition main_pages (df_2h : list Anomaly.bucket) (df_raw : list first_last)
  : option (list first_last) :=
  page_rows df_raw (anomalies_sorted (Anomaly.detect_anomalies df_2h)).

End Report.

(** ** The two scripts over any arithmetic and any order of ties

    The modules [Cycles] and [Anomaly] read a float column as a column
    of rationals and [sort_values("ts")] as a stable sort.  pandas
    computes in binary floating point, and the default sort of a
    single column (quicksort) fixes no order among rows with equal
    keys.  The modules below embed the same lines of code over an
    arithmetic that is left open and, for [cycles.py], over a sort of
    which only the contract is known, so that what is proved of them
    holds whatever the rounding and whatever the order of tied rows.
    The exact readings are instances. *)

(** The values that a reduction over a column sees: [Series.dropna]
    for a column of any type. *)
Fixpoint present {N : Type} (col : list (option N)) : list N :=
  match col with
  | [] => []
  | Some d :: t => d :: present t
  | None :: t => present t
  end.

Section SelectionSort.

Context {A : Type}.
Variable ltb : A -> A -> bool.

(** One pass of selection: the smallest of [best :: l], the earliest
    one among equals, and the other rows; a row that gives way as
    [best] takes the place of the row that beat it. *)
Fixpoint take_min (best : A) (l : list A) : A * list A :=
  match l with
  | [] => (best, [])
  | y :: t =>
      if ltb y best
      then let (m, rest) := take_min y t in (m, best :: rest)
      else let (m, rest) := take_min best t in (m, y :: rest)
  end.

Fixpoint selection_pass (n : nat) (l : list A) : list A :=
  match n, l with
  | S n', x :: t => let (m, rest) := take_min x t in m :: selection_pass n' rest
  | _, _ => l
  end.

(** Selection sort: a sort that orders by the key and moves rows with
    equal keys past each other, depending on the other rows. *)
Definition selection_sort (l : list A) : list A :=
  selection_pass (length l) l.

End SelectionSort.

Module CyclesGen.

(** The numbers of a float column with the operations that
    [calculate_cycles] and [compute_all_cycles] apply to them. *)
Record arith := mkArith {
  num : Type;
  sub : num -> num -> num;
  clip0 : num -> num;
  total : list num -> num;
  per100 : num -> num;
  round3 : num -> num;
  nought : num
}.

(** What the order of the counts rests on: [le x y] is [x <= y] on
    numbers.  Clipping gives a value that is not below zero, a sum
    does not shrink when values that are not below zero are put in
    front of it, and [/ 100] and [round] keep the order. *)
Record ordered (A : arith) := mkOrdered {
  le : num A -> num A -> Prop;
  le_refl : forall x, le x x;
  le_trans : forall x y z, le x y -> le y z -> le x z;
  clip0_nonneg : forall x, le (nought A) (clip0 A x);
  total_nil : le (nought A) (total A []);
  total_grows :
    forall pre suf,
      Forall (le (nought A)) pre -> le (total A suf) (total A (pre ++ suf));
  per100_nought : le (nought A) (per100 A (nought A));
  per100_mono : forall x y, le x y -> le (per100 A x) (per100 A y);
  round3_mono : forall x y, le x y -> le (round3 A x) (round3 A y)
}.

(** A row of the result. *)
Record cycle_counts (N : Type) := mkCounts {
  cc_battery_id : string;
  cycles_last_24h : N;
  cycles_last_7d : N;
  cycles_last_30d : N;
  total_cycles : N
}.

Arguments mkCounts {N}.
Arguments cc_battery_id {N}.
Arguments cycles_last_24h {N}.
Arguments cycles_last_7d {N}.
Arguments cycles_last_30d {N}.
Arguments total_cycles {N}.

(** The count that a result row reports for a window. *)
Definition reported {N : Type} (w : Cycles.window) (c : cycle_counts N) : N :=
  match w with
  | Cycles.Last24h => cycles_last_24h c
  | Cycles.Last7d => cycles_last_7d c
  | Cycles.Last30d => cycles_last_30d c
  | Cycles.AllTime => total_cycles c
  end.

Section Frames.

(** [sub a b] is [a - b]; [clip0] is [clip(lower=0)] on one value;
    [total] is [Series.sum] of the values that are not missing;
    [per100 x] is [x / 100]; [round3 x] is [round(x, 3)]; [nought] is
    the literal [0]. *)
Variable A : arith.

(** The rows of the frame and its columns [ts], [battery_id] and
    [battery_soc_pct]. *)
Variable row : Type.
Variable ts : row -> Z.
Variable battery_id : row -> string.
Variable battery_soc_pct : row -> num A.

(** [df.sort_values("ts")]. *)
Variable sort_by_ts : list row -> list row.

Definition shift1 (col : list (num A)) : list (option (num A)) :=
  firstn (length col) (None :: map Some col).

Definition sub_col (a : list (option (num A))) (b : list (num A))
  : list (option (num A)) :=
  map (fun pb => option_map (fun p => sub A p (snd pb)) (fst pb)) (combine a b).

Definition clip_lower0 (col : list (option (num A))) : list (option (num A)) :=
  map (option_map (clip0 A)) col.

Definition calculate_cycles (df : list row) : num A :=
  let df := sort_by_ts df in
  let soc := map battery_soc_pct df in
  let prev_soc := shift1 soc in
  let drop := clip_lower0 (sub_col prev_soc soc) in
  per100 A (total A (present drop)).

Definition ts_max (df : list row) : option Z :=
  match df with
  | [] => None
  | r :: t => Some (fold_left Z.max (map ts t) (ts r))
  end.

Definition trailing (delta : Z) (bdf : list row) : list row :=
  match ts_max bdf with
  | None => []
  | Some m => filter (fun r => (m - delta <=? ts r)%Z) bdf
  end.

Definition window_cycles (dfw : list row) : num A :=
  if (1 <? length dfw)%nat then calculate_cycles dfw else nought A.

Definition rows_of (battery : string) (df : list row) : list row :=
  filter (fun r => String.eqb (battery_id r) battery) df.

Definition battery_cycles (df : list row) (battery : string)
  : cycle_counts (num A) :=
  let bdf := rows_of battery df in
  let df_24h := trailing (Cycles.Timedelta_hours 24) bdf in
  let cycles_24h := window_cycles df_24h in
  let df_7d := trailing (Cycles.Timedelta_days 7) bdf in
  let cycles_7d := window_cycles df_7d in
  let df_30d := trailing (Cycles.Timedelta_days 30) bdf in
  let cycles_30d := window_cycles df_30d in
  let total := calculate_cycles bdf in
  {| cc_battery_id := battery;
     cycles_last_24h := round3 A cycles_24h;
     cycles_last_7d := round3 A cycles_7d;
     cycles_last_30d := round3 A cycles_30d;
     total_cycles := round3 A total |}.

Definition compute_all_cycles (df : list row) : list (cycle_counts (num A)) :=
  map (battery_cycles df) (unique (map battery_id df)).

(** *** What is known of the sort *)

Definition time_ordered (l : list row) : Prop :=
  StronglySorted (fun x y => (ts x <= ts y)%Z) l.

(** The contract of [sort_values("ts")]: the same rows, in
    non-decreasing order of [ts]. *)
Definition sorts_by_ts : Prop :=
  forall l, Permutation (sort_by_ts l) l /\ time_ordered (sort_by_ts l).

(** *** The vocabulary of section 4.1 of the specification *)

(** [m] is the latest timestamp among the samples of battery [b]. *)
Definition latest (b : string) (m : Z) (df : list row) : Prop :=
  (exists r, In r df /\ battery_id r = b /\ ts r = m) /\
  (forall r, In r df -> battery_id r = b -> (ts r <= m)%Z).

(** The samples of the restricted sub-sequence of battery [b] for the
    window [w]: the samples of [b] with [ts >= m - W], all the samples
    of [b] for the all-time window. *)
Definition chosen (b : string) (w : Cycles.window) (m : Z) (r : row) : bool :=
  String.eqb (battery_id r) b &&
  match Cycles.window_span w with
  | None => true
  | Some span => (m - span <=? ts r)%Z
  end.

(** [max(0, soc[i-1] - soc[i])] for every pair of neighbours. *)
Fixpoint clamped_drops (soc : list (num A)) : list (num A) :=
  match soc with
  | a :: (b :: _) as t => clip0 A (sub A a b) :: clamped_drops t
  | _ => []
  end.

(** Steps 3 and 4 of the specification on samples in the order [sub]. *)
Definition window_count (sub : list row) : num A :=
  if (1 <? length sub)%nat
  then per100 A (total A (clamped_drops (map battery_soc_pct sub)))
  else nought A.

(** Steps 4 and 5 of the specification on samples in the order [sub]. *)
Definition window_formula (sub : list row) : num A :=
  round3 A (per100 A (total A (clamped_drops (map battery_soc_pct sub)))).

(** The samples of battery [b] have pairwise different timestamps. *)
Definition distinct_ts (b : string) (df : list row) : Prop :=
  NoDup (map ts (filter (fun r => String.eqb (battery_id r) b) df)).

End Frames.

End CyclesGen.

Module AnomalyGen.

(** The numbers of the column [soc] with the operations that
    [detect_anomalies] applies to them: [diff cur prev] is
    [cur - prev] of [Series.diff]; [mean] and [std] are [Series.mean]
    and [Series.std]; [threshold mean_d std_d] is
    [mean_d - 1.5 * std_d]; [below_hard d] is [d < -15] and
    [below d t] is [d < t]. *)
Record stats := mkStats {
  num : Type;
  diff : num -> num -> num;
  mean : list num -> num;
  dev : Type;
  std : list num -> dev;
  thr : Type;
  threshold : num -> dev -> thr;
  below_hard : num -> bool;
  below : num -> thr -> bool
}.

(** What the degenerate cases rest on: [less x y] is [x < y] and
    [same x y] is [x == y] on numbers; a standard deviation can be
    zero or NaN.  Subtracting 1.5 times zero changes nothing, [<] is
    strict, a comparison with NaN is false, and the standard
    deviation of a single value is NaN. *)
Record degenerate (S : stats) := mkDegenerate {
  less : num S -> num S -> bool;
  same : num S -> num S -> Prop;
  is_zero : dev S -> Prop;
  is_nan : dev S -> Prop;
  threshold_zero :
    forall m s x, is_zero s -> below S x (threshold S m s) = less x m;
  less_strict : forall x m, same x m -> less x m = false;
  threshold_nan :
    forall m s x, is_nan s -> below S x (threshold S m s) = false;
  std_single : forall x, is_nan (std S [x])
}.

(** A row of the frame once the column [soc_drop] has been added. *)
Record row (bucket N : Type) := mkRow {
  data : bucket;
  soc_drop : option N
}.

Arguments mkRow {bucket N}.
Arguments data {bucket N}.
Arguments soc_drop {bucket N}.

Section Frames.

Variable S : stats.

(** The rows of the 2-hour aggregate and its columns [ts],
    [battery_id] and [soc]. *)
Variable bucket : Type.
Variable ts : bucket -> Z.
Variable battery_id : bucket -> string.
Variable soc : bucket -> num S.

Local Abbreviation row := (row bucket (num S)).

Definition key_leb (a b : bucket) : bool :=
  match String_as_OT.compare (battery_id a) (battery_id b) with
  | Lt => true
  | Gt => false
  | Eq => (ts a <=? ts b)%Z
  end.

Definition note (last : string -> option (num S)) (b : string) (v : num S)
  : string -> option (num S) :=
  fun b' => if String.eqb b' b then Some v else last b'.

Fixpoint group_diff (last : string -> option (num S)) (df : list bucket)
  : list (option (num S)) :=
  match df with
  | [] => []
  | r :: t =>
      option_map (fun p => diff S (soc r) p) (last (battery_id r))
        :: group_diff (note last (battery_id r) (soc r)) t
  end.

Definition nothing_seen : string -> option (num S) := fun _ => None.

Definition assign_soc_drop (df : list bucket) (col : list (option (num S)))
  : list row :=
  map (fun p => mkRow (fst p) (snd p)) (combine df col).

Definition id_of (r : row) : string := battery_id (data r).

Definition groupby (df : list row) : list (string * list row) :=
  map (fun b => (b, filter (fun r => String.eqb (id_of r) b) df))
      (sort_values Anomaly.str_leb (unique (map id_of df))).

Definition lt_const (d : option (num S)) : bool :=
  match d with
  | Some d => below_hard S d
  | None => false
  end.

Definition lt_threshold (d : option (num S)) (t : thr S) : bool :=
  match d with
  | Some d => below S d t
  | None => false
  end.

Definition is_anomalous (t : thr S) (r : row) : bool :=
  lt_const (soc_drop r) || lt_threshold (soc_drop r) t.

Definition flag_group (bg : string * list row) : string * list row * list row :=
  let (b, g) := bg in
  let drops := present (map soc_drop g) in
  if (length drops =? 0)%nat then (b, g, [])
  else
    let mean_d := mean S drops in
    let std_d := std S drops in
    let threshold := threshold S mean_d std_d in
    let g_anom := filter (is_anomalous threshold) g in
    (b, g, g_anom).

Definition detect_anomalies (df : list bucket)
  : list (string * list row * list row) :=
  let df := sort_values key_leb df in
  let df := assign_soc_drop df (group_diff nothing_seen df) in
  map flag_group (groupby df).

(** *** The vocabulary of section 4.2 of the specification *)

(** The readings of a group, in its order. *)
Definition readings (g : list row) : list (num S) :=
  map (fun r => soc (data r)) g.

(** The change from each reading to the next: the list of the defined
    drops of a series. *)
Fixpoint changes (soc : list (num S)) : list (num S) :=
  match soc with
  | a :: (b :: _) as t => diff S b a :: changes t
  | _ => []
  end.

(** The adaptive threshold [T] of a battery with the defined drops
    [drops]. *)
Definition adaptive (drops : list (num S)) : thr S :=
  threshold S (mean S drops) (std S drops).

(** The anomaly subset that [flag_group] attaches to the group [g]. *)
Definition flagged (g : list row) : list row :=
  if (length (present (map soc_drop g)) =? 0)%nat then []
  else filter (is_anomalous (adaptive (present (map soc_drop g)))) g.

(** The rows of battery [b] in the sorted frame. *)
Definition series (b : string) (df : list bucket) : list bucket :=
  filter (fun x => String.eqb (battery_id x) b) (sort_values key_leb df).

(** The column [soc_drop] of one series: each reading minus the one
    before it, [prev] standing before the first. *)
Fixpoint diff_after (prev : option (num S)) (soc : list (num S))
  : list (option (num S)) :=
  match soc with
  | [] => []
  | s :: t => option_map (fun p => diff S s p) prev :: diff_after (Some s) t
  end.

End Frames.

End AnomalyGen.

(** *** The exact readings

    Rationals; [round] to the nearest thousandth with ties to the even
    neighbour; the standard deviation as the root of the unbiased
    variance; comparisons decided exactly. *)

Module Exact.

Definition arith : CyclesGen.arith :=
  CyclesGen.mkArith Q Qminus (fun x => if Qle_bool 0 x then x else 0) Qsum
                    (fun x => x / 100) (fun x => py_round x 3) 0.

(** [compute_all_cycles] on the rows of [Cycles], with the sort
    [sort_by_ts]. *)
Definition compute_all_cycles
           (sort_by_ts : list Cycles.sample -> list Cycles.sample)
           (df : list Cycles.sample) : list (CyclesGen.cycle_counts Q) :=
  CyclesGen.compute_all_cycles arith Cycles.sample Cycles.ts Cycles.battery_id
                               Cycles.battery_soc_pct sort_by_ts df.

Definition ts_ltb (a b : Cycles.sample) : bool :=
  (Cycles.ts a <? Cycles.ts b)%Z.

Definition stats : AnomalyGen.stats :=
  AnomalyGen.mkStats
    Q (fun cur prev => cur - prev) mean (option surd) std (option surd)
    (fun mean_d std_d =>
       option_map (fun s => surd_rsub mean_d (surd_scale (3 # 2) s)) std_d)
    (fun d => Qltb d (-15))
    (fun d t => match t with Some t => Qlt_surd d t | None => false end).

Definition row : Type := AnomalyGen.row Anomaly.bucket Q.

(** [detect_anomalies] on the rows of [Anomaly]. *)
Definition detect_anomalies (df : list Anomaly.bucket)
  : list (string * list row * list row) :=
  AnomalyGen.detect_anomalies stats Anomaly.bucket Anomaly.ts
                              Anomaly.battery_id Anomaly.soc df.

(** A standard deviation is zero when it is the root of zero, and NaN
    when it is missing. *)
Definition is_zero (s : option surd) : Prop :=
  match s with
  | Some t => rat_part t == 0 /\ radicand t == 0
  | None => False
  end.

Definition is_nan (s : option surd) : Prop := s = None.

(** The results of the exact readings as results of [Cycles] and of
    [Anomaly]. *)
Definition plain_counts (c : CyclesGen.cycle_counts Q) : Cycles.cycle_counts :=
  Cycles.mkCounts (CyclesGen.cc_battery_id c) (CyclesGen.cycles_last_24h c)
                  (CyclesGen.cycles_last_7d c) (CyclesGen.cycles_last_30d c)
                  (CyclesGen.total_cycles c).

Definition plain_row (r : row) : Anomaly.row :=
  Anomaly.mkRow (AnomalyGen.data r) (AnomalyGen.soc_drop r).

Definition plain_entry (e : string * list row * list row)
  : string * list Anomaly.row * list Anomaly.row :=
  (fst (fst e), map plain_row (snd (fst e)), map plain_row (snd e)).

End Exact.

(** ** Changes of the input used to state properties *)

Module Transform.

(** All timestamps moved by [c]. *)
Definition shift_ts (c : Z) (r : Cycles.sample) : Cycles.sample :=
  Cycles.mkSample (Cycles.ts r + c) (Cycles.battery_id r) (Cycles.battery_soc_pct r).

(** [pd.Timestamp.min] and [pd.Timestamp.max], in nanoseconds since
    the epoch: the timestamps that pandas can hold. *)
Definition Timestamp_min : Z := - 9223372036854775807.
Definition Timestamp_max : Z := 9223372036854775807.

(** A timestamp from which [compute_all_cycles] can step back 30 days
    without leaving the range of pandas. *)
Definition steps_back (t : Z) : Prop :=
  (Timestamp_min + Cycles.Timedelta_days 30 <= t <= Timestamp_max)%Z.

End Transform.

(** ** Sample data *)

Module CyclesExamples.
Import Cycles.
Local Open Scope string_scope.

Definition hour : Z := 3600 * 1000000000.

(** Battery [A]: 90 at day 0, 50 at day 25, 70 at day 29, 40 one
    hour before the last sample, 10 at day 31 (rows out of order);
    battery [B]: one sample. *)
Definition fleet : list sample :=
  [ mkSample (31 * 24 * hour) "A" 10;
    mkSample 0 "A" 90;
    mkSample (5 * hour) "B" 55;
    mkSample (29 * 24 * hour) "A" 70;
    mkSample (25 * 24 * hour) "A" 50;
    mkSample (31 * 24 * hour - hour) "A" 40 ].

(** A battery that goes from full to empty within two hours (rows out
    of order). *)
Definition full_discharge : list sample :=
  [ mkSample (2 * hour) "D" 0;
    mkSample 0 "D" 100;
    mkSample hour "D" 40 ].

(** A battery with two samples at the same instant, 80 and 50, and
    one sample of 10 two days earlier. *)
Definition tied : list sample :=
  [ mkSample (3 * 24 * hour) "T" 80;
    mkSample (3 * 24 * hour) "T" 50;
    mkSample (24 * hour) "T" 10 ].

(** A battery whose charge only rises (rows out of order). *)
Definition charging : list sample :=
  [ mkSample (2 * hour) "U" 90;
    mkSample 0 "U" 20;
    mkSample hour "U" 20 ].

End CyclesExamples.

Module AnomalyExamples.
Import Anomaly.
Local Open Scope string_scope.

Definition two_hours : Z := 2 * 3600 * 1000000000.

(** One battery that falls from 80 to 60 between two buckets. *)
Definition discharge : list bucket :=
  [ mkBucket 0 "B1" 100 80;
    mkBucket two_hours "B1" 112 60 ].

(** The group that [detect_anomalies] builds for [discharge]. *)
Definition discharge_first : row := mkRow (mkBucket 0 "B1" 100 80) None.
Definition discharge_second : row :=
  mkRow (mkBucket two_hours "B1" 112 60) (Some (-20 # 1)).

(** One battery that loses 10 points in each of two buckets. *)
Definition steady : list bucket :=
  [ mkBucket 0 "S" 0 90;
    mkBucket two_hours "S" 4 80;
    mkBucket (2 * two_hours) "S" 9 70 ].

(** The series of section 8 of the specification, 80, 60, 61, 40, rows
    out of order, and a second battery with one bucket. *)
Definition mixed : list bucket :=
  [ mkBucket (3 * two_hours) "B1" 130 40;
    mkBucket 0 "B2" 7 50;
    mkBucket two_hours "B1" 112 60;
    mkBucket 0 "B1" 100 80;
    mkBucket (2 * two_hours) "B1" 112 61 ].

(** The groups that [detect_anomalies] builds for [steady] and for
    the two batteries of [mixed]. *)
Definition steady_series : list row :=
  [ mkRow (mkBucket 0 "S" 0 90) None;
    mkRow (mkBucket two_hours "S" 4 80) (Some (-10 # 1));
    mkRow (mkBucket (2 * two_hours) "S" 9 70) (Some (-10 # 1)) ].

Definition mixed_second : row :=
  mkRow (mkBucket two_hours "B1" 112 60) (Some (-20 # 1)).
Definition mixed_fourth : row :=
  mkRow (mkBucket (3 * two_hours) "B1" 130 40) (Some (-21 # 1)).

Definition mixed_series : list row :=
  [ mkRow (mkBucket 0 "B1" 100 80) None;
    mixed_second;
    mkRow (mkBucket (2 * two_hours) "B1" 112 61) (Some 1);
    mixed_fourth ].

Definition lone_series : list row := [ mkRow (mkBucket 0 "B2" 7 50) None ].

(** One battery that loses 20 points in each of two buckets. *)
Definition steep : list bucket :=
  [ mkBucket 0 "Z" 0 90;
    mkBucket two_hours "Z" 8 70;
    mkBucket (2 * two_hours) "Z" 15 50 ].

(** One battery that holds 50 for five buckets and then falls to 40. *)
Definition late_fall : list bucket :=
  [ mkBucket 0 "F" 0 50;
    mkBucket two_hours "F" 0 50;
    mkBucket (2 * two_hours) "F" 0 50;
    mkBucket (3 * two_hours) "F" 0 50;
    mkBucket (4 * two_hours) "F" 0 50;
    mkBucket (5 * two_hours) "F" 3 40 ].

(** The groups that [detect_anomalies] builds in the exact reading
    of the arithmetic. *)
Local Abbreviation exact_row := (@AnomalyGen.mkRow bucket Q).

Definition steady_second : Exact.row :=
  exact_row (mkBucket two_hours "S" 4 80) (Some (-10 # 1)).

Definition steady_group : list Exact.row :=
  [ exact_row (mkBucket 0 "S" 0 90) None;
    steady_second;
    exact_row (mkBucket (2 * two_hours) "S" 9 70) (Some (-10 # 1)) ].

Definition steep_second : Exact.row :=
  exact_row (mkBucket two_hours "Z" 8 70) (Some (-20 # 1)).
Definition steep_third : Exact.row :=
  exact_row (mkBucket (2 * two_hours) "Z" 15 50) (Some (-20 # 1)).

Definition steep_group : list Exact.row :=
  [ exact_row (mkBucket 0 "Z" 0 90) None; steep_second; steep_third ].

Definition discharge_last : Exact.row :=
  exact_row (mkBucket two_hours "B1" 112 60) (Some (-20 # 1)).

Definition discharge_group : list Exact.row :=
  [ exact_row (mkBucket 0 "B1" 100 80) None; discharge_last ].

Definition late_fall_last : Exact.row :=
  exact_row (mkBucket (5 * two_hours) "F" 3 40) (Some (-10 # 1)).

Definition late_fall_group : list Exact.row :=
  [ exact_row (mkBucket 0 "F" 0 50) None;
    exact_row (mkBucket two_hours "F" 0 50) (Some 0);
    exact_row (mkBucket (2 * two_hours) "F" 0 50) (Some 0);
    exact_row (mkBucket (3 * two_hours) "F" 0 50) (Some 0);
    exact_row (mkBucket (4 * two_hours) "F" 0 50) (Some 0);
    late_fall_last ].

End AnomalyExamples.

Module ReportExamples.
Import Report.

(** Normalization on ASCII text. *)
Definition keep (s : str) : str := s.

(** "a", an en dash, an opening double quote, e with acute, an emoji,
    "b". *)
Definition fancy : str :=
  [97; 8211; 8220; 233; 128512; 98]%N.

(** A server that raises, then limits the rate, then answers. *)
Definition third_time_lucky (attempt : nat) : response :=
  match attempt with
  | O => Raises
  | S O => Json (Some (Some (codes "rate_limit_exceeded"))) None
  | _ => Json None (Some (Some (codes " <think>hm</think>ok ")))
  end.

Definition always_down (attempt : nat) : response := Raises.

End ReportExamples.

Module StoreExamples.

(** A heap whose only object is a frame without added columns. *)
Definition fresh {A : Type} (df : list A) : Store.heap A :=
  [map (fun x => (x, [])) df].

End StoreExamples.

(** * Part II: theorems *)

(** ** The stable sort *)

Section SortFacts.

Context {A : Type}.
Variable leb : A -> A -> bool.

Local Abbreviation insert_row := (insert_row leb).
Local Abbreviation sort_values := (sort_values leb).
Local Abbreviation lebP := (lebP leb).

Lemma insert_row_perm x l : Permutation (insert_row x l) (x :: l).
Proof.
  induction l as [|y t IH]; simpl; [reflexivity|].
  destruct (leb x y); [reflexivity|].
  rewrite IH. apply perm_swap.
Qed.

Lemma sort_values_perm l : Permutation (sort_values l) l.
Proof.
  induction l as [|x t IH]; simpl; [constructor|].
  rewrite insert_row_perm. now constructor.
Qed.

Lemma sort_values_length l : length (sort_values l) = length l.
Proof. apply Permutation_length, sort_values_perm. Qed.

Lemma sort_values_In x l : In x (sort_values l) <-> In x l.
Proof.
  split; apply Permutation_in;
    [apply sort_values_perm | symmetry; apply sort_values_perm].
Qed.

Lemma insert_row_front x l :
  Forall (lebP x) l -> insert_row x l = x :: l.
Proof.
  destruct l as [|y t]; simpl; [reflexivity|].
  intros H. inversion H as [|? ? Hy _]; subst.
  unfold lebP in Hy. now rewrite Hy.
Qed.

Lemma insert_row_filter_out (p : A -> bool) x l :
  p x = false -> filter p (insert_row x l) = filter p l.
Proof.
  intros Hp. induction l as [|y t IH]; simpl.
  - now rewrite Hp.
  - destruct (leb x y); simpl.
    + now rewrite Hp.
    + now rewrite IH.
Qed.

Hypothesis leb_total : forall x y, leb x y = true \/ leb y x = true.
Hypothesis leb_trans :
  forall x y z, leb x y = true -> leb y z = true -> leb x z = true.

Lemma insert_row_sorted x l :
  StronglySorted lebP l -> StronglySorted lebP (insert_row x l).
Proof.
  induction 1 as [|y t Ht IH Hy]; simpl.
  - repeat constructor.
  - destruct (leb x y) eqn:E.
    + constructor; [now constructor|].
      constructor; [exact E|].
      eapply Forall_impl; [|exact Hy].
      intros z Hz. eapply leb_trans; eassumption.
    + constructor; [exact IH|].
      assert (Hyx : lebP y x).
      { destruct (leb_total x y) as [H|H]; [congruence | exact H]. }
      eapply Permutation_Forall.
      * symmetry. apply insert_row_perm.
      * now constructor.
Qed.

Lemma sort_values_sorted l : StronglySorted lebP (sort_values l).
Proof.
  induction l as [|x t IH]; simpl; [constructor|].
  now apply insert_row_sorted.
Qed.

Lemma insert_row_filter_in (p : A -> bool) x l :
  StronglySorted lebP l -> p x = true ->
  filter p (insert_row x l) = insert_row x (filter p l).
Proof.
  intros Hs Hp. induction Hs as [|y t Ht IH Hy]; simpl.
  - now rewrite Hp.
  - destruct (leb x y) eqn:E; simpl.
    + rewrite Hp. symmetry. apply insert_row_front.
      assert (Hall : Forall (lebP x) (y :: t)).
      { constructor; [exact E|].
        eapply Forall_impl; [|exact Hy].
        intros z Hz. eapply leb_trans; eassumption. }
      apply Forall_forall. intros z Hz.
      rewrite Forall_forall in Hall. apply Hall.
      change (In z (filter p (y :: t))) in Hz.
      apply filter_In in Hz. tauto.
    + destruct (p y); simpl.
      * rewrite E. now rewrite IH.
      * exact IH.
Qed.

(** Row selection by a boolean mask commutes with the stable sort. *)
Lemma sort_values_filter (p : A -> bool) l :
  filter p (sort_values l) = sort_values (filter p l).
Proof.
  induction l as [|x t IH]; simpl; [reflexivity|].
  destruct (p x) eqn:Hp; simpl.
  - rewrite insert_row_filter_in by (apply sort_values_sorted || exact Hp).
    now rewrite IH.
  - now rewrite insert_row_filter_out.
Qed.

Lemma sort_values_sorted_id l :
  StronglySorted lebP l -> sort_values l = l.
Proof.
  induction 1 as [|x t Ht IH Hx]; simpl; [reflexivity|].
  rewrite IH. now apply insert_row_front.
Qed.

(** Two sorted arrangements of the same rows coincide as soon as the
    order cannot tie on two different rows. *)
Lemma sorted_perm_eq l l' :
  StronglySorted lebP l -> StronglySorted lebP l' ->
  Permutation l l' ->
  (forall x y, In x l -> In y l -> lebP x y -> lebP y x -> x = y) ->
  l = l'.
Proof.
  intros Hs. revert l'.
  induction Hs as [|x t Ht IH Hx]; intros l' Hs' Hp Hanti.
  - apply Permutation_nil in Hp. now subst.
  - destruct Hs' as [|y t' Ht' Hy].
    + symmetry in Hp. apply Permutation_nil in Hp. discriminate.
    + assert (Hxy : x = y).
      { assert (Hiy : In y (x :: t)).
        { eapply Permutation_in; [symmetry; exact Hp | now left]. }
        assert (Hix : In x (y :: t')).
        { eapply Permutation_in; [exact Hp | now left]. }
        destruct Hiy as [->|Hiy]; [reflexivity|].
        destruct Hix as [->|Hix]; [reflexivity|].
        rewrite Forall_forall in Hx, Hy.
        apply Hanti; [now left | now right | now apply Hx | now apply Hy]. }
      subst y. f_equal.
      apply IH; [exact Ht' | eapply Permutation_cons_inv; exact Hp |].
      intros a b Ha Hb. apply Hanti; now right.
Qed.

Lemma sort_values_perm_invariant l l' :
  Permutation l l' ->
  (forall x y, In x l -> In y l -> lebP x y -> lebP y x -> x = y) ->
  sort_values l = sort_values l'.
Proof.
  intros Hp Hanti. apply sorted_perm_eq.
  - apply sort_values_sorted.
  - apply sort_values_sorted.
  - rewrite !sort_values_perm. exact Hp.
  - intros x y Hx Hy. apply Hanti; now apply sort_values_In.
Qed.

End SortFacts.

(** ** Rounding *)

Lemma rint_cases x :
  (rint x = Qfloor x /\ x - inject_Z (Qfloor x) <= 1 # 2 /\
   (x - inject_Z (Qfloor x) == 1 # 2 -> Z.even (Qfloor x) = true)) \/
  (rint x = (Qfloor x + 1)%Z /\ 1 # 2 <= x - inject_Z (Qfloor x) /\
   (x - inject_Z (Qfloor x) == 1 # 2 -> Z.even (Qfloor x) = false)).
Proof.
  unfold rint.
  destruct (Qcompare (x - inject_Z (Qfloor x)) (1 # 2)) eqn:E.
  - apply Qeq_alt in E.
    destruct (Z.even (Qfloor x)) eqn:Ev; [left | right];
      (split; [reflexivity | split; [rewrite E; apply Qle_refl | trivial]]).
  - apply Qlt_alt in E. left.
    split; [reflexivity | split; [now apply Qlt_le_weak |]].
    intros H. rewrite H in E. now apply Qlt_irrefl in E.
  - apply Qgt_alt in E. right.
    split; [reflexivity | split; [now apply Qlt_le_weak |]].
    intros H. rewrite H in E. now apply Qlt_irrefl in E.
Qed.

Lemma rint_proper x y : x == y -> rint x = rint y.
Proof.
  intros H. unfold rint.
  assert (Hf : Qfloor x = Qfloor y) by now rewrite H.
  rewrite Hf.
  assert (Hc : Qcompare (x - inject_Z (Qfloor y)) (1 # 2) =
               Qcompare (y - inject_Z (Qfloor y)) (1 # 2)) by now rewrite H.
  now rewrite Hc.
Qed.

Lemma rint_mono x y : x <= y -> (rint x <= rint y)%Z.
Proof.
  intros H.
  pose proof (Qfloor_resp_le _ _ H) as Hfl.
  destruct (Z.eq_dec (Qfloor x) (Qfloor y)) as [Heq|Hne].
  - destruct (rint_cases x) as [(Hx & Hx1 & Hx2)|(Hx & Hx1 & Hx2)];
      destruct (rint_cases y) as [(Hy & Hy1 & Hy2)|(Hy & Hy1 & Hy2)];
      rewrite Hx, Hy; try lia.
    exfalso. rewrite Heq in Hx1, Hx2.
    assert (Hxe : x - inject_Z (Qfloor y) == 1 # 2) by (apply Qle_antisym; qlra).
    assert (Hye : y - inject_Z (Qfloor y) == 1 # 2) by (apply Qle_antisym; qlra).
    specialize (Hx2 Hxe). specialize (Hy2 Hye). congruence.
  - destruct (rint_cases x) as [(Hx & _)|(Hx & _)];
      destruct (rint_cases y) as [(Hy & _)|(Hy & _)]; lia.
Qed.

Lemma py_round_proper x y n : x == y -> py_round x n = py_round y n.
Proof.
  intros H. unfold py_round. f_equal. f_equal.
  apply rint_proper. now rewrite H.
Qed.

Lemma pow10_pos n : 0 < inject_Z (10 ^ Z.of_nat n).
Proof.
  change 0 with (inject_Z 0). rewrite <- Zlt_Qlt.
  apply Z.pow_pos_nonneg; lia.
Qed.

Lemma py_round_mono x y n : x <= y -> py_round x n <= py_round y n.
Proof.
  intros H. unfold py_round.
  pose proof (pow10_pos n) as Hp.
  apply Qmult_le_compat_r.
  - rewrite <- Zle_Qle. apply rint_mono.
    apply Qmult_le_compat_r; [exact H | now apply Qlt_le_weak].
  - apply Qlt_le_weak. now apply Qinv_lt_0_compat.
Qed.

Lemma py_round_zero x n : x == 0 -> py_round x n == 0.
Proof.
  intros H. rewrite (py_round_proper x 0 n H).
  unfold py_round.
  rewrite (rint_proper (0 * inject_Z (10 ^ Z.of_nat n)) 0) by apply Qmult_0_l.
  change (rint 0) with 0%Z. apply Qmult_0_l.
Qed.

(** ** Distinct values *)

Lemma existsb_eqb_In x seen :
  existsb (String.eqb x) seen = true <-> In x seen.
Proof.
  rewrite existsb_exists. split.
  - intros (y & Hy & E). apply String.eqb_eq in E. now subst.
  - intros H. exists x. split; [exact H | apply String.eqb_refl].
Qed.

Lemma unique_from_In x seen l :
  In x (unique_from seen l) <-> In x l /\ ~ In x seen.
Proof.
  revert seen. induction l as [|y t IH]; intros seen; simpl; [tauto|].
  destruct (existsb (String.eqb y) seen) eqn:E.
  - apply existsb_eqb_In in E. rewrite IH.
    split; [tauto|]. intros [[->|H] Hn]; tauto.
  - assert (Hy : ~ In y seen).
    { intros H. apply existsb_eqb_In in H. congruence. }
    simpl. rewrite IH. simpl.
    destruct (string_dec y x) as [->|Hne]; tauto.
Qed.

Lemma unique_from_NoDup seen l : NoDup (unique_from seen l).
Proof.
  revert seen. induction l as [|y t IH]; intros seen; simpl; [constructor|].
  destruct (existsb (String.eqb y) seen); [apply IH|].
  constructor; [|apply IH].
  rewrite unique_from_In. simpl. tauto.
Qed.

Lemma unique_In x l : In x (unique l) <-> In x l.
Proof. unfold unique. rewrite unique_from_In. simpl. tauto. Qed.

Lemma unique_NoDup l : NoDup (unique l).
Proof. apply unique_from_NoDup. Qed.

(** ** Facts about cycles.py *)

Module CyclesFacts.
Import Cycles.

Lemma ts_leb_total x y : ts_leb x y = true \/ ts_leb y x = true.
Proof. unfold ts_leb. lia. Qed.

Lemma ts_leb_trans x y z :
  ts_leb x y = true -> ts_leb y z = true -> ts_leb x z = true.
Proof. unfold ts_leb. lia. Qed.

Lemma clip_is_max x : (if Qle_bool 0 x then x else 0) == Qmax 0 x.
Proof.
  destruct (Qle_bool 0 x) eqn:E.
  - apply Qle_bool_iff in E. symmetry. now apply Q.max_r.
  - symmetry. apply Q.max_l.
    destruct (Qlt_le_dec x 0) as [H|H]; [now apply Qlt_le_weak|].
    apply Qle_bool_iff in H. congruence.
Qed.

Lemma clamped_drop_sum_nonneg soc : 0 <= clamped_drop_sum soc.
Proof.
  induction soc as [|a [|b t] IH]; simpl; try apply Qle_refl.
  pose proof (Q.le_max_l 0 (a - b)).
  simpl in IH. qlra.
Qed.

Lemma drops_after p soc :
  sum_col (clip_lower 0
    (sub_col (firstn (length soc) (Some p :: map Some soc)) soc))
  == clamped_drop_sum (p :: soc).
Proof.
  revert p. induction soc as [|a t IH]; intros p.
  - reflexivity.
  - change (sum_col (clip_lower 0
              (sub_col (firstn (length (a :: t))
                               (Some p :: map Some (a :: t))) (a :: t))))
      with ((if Qle_bool 0 (p - a) then p - a else 0) +
            sum_col (clip_lower 0
              (sub_col (firstn (length t) (Some a :: map Some t)) t))).
    rewrite IH, clip_is_max. reflexivity.
Qed.

(** The columns [prev_soc] and [drop] of [calculate_cycles] add up to
    the clamped first differences. *)
Lemma drop_column_sum soc :
  sum_col (clip_lower 0 (sub_col (shift1 soc) soc)) == clamped_drop_sum soc.
Proof.
  destruct soc as [|a t]; [reflexivity|].
  change (sum_col (clip_lower 0 (sub_col (shift1 (a :: t)) (a :: t))))
    with (sum_col (clip_lower 0
            (sub_col (firstn (length t) (Some a :: map Some t)) t))).
  apply drops_after.
Qed.

Lemma calculate_cycles_sum df :
  calculate_cycles df ==
  clamped_drop_sum (map battery_soc_pct (sort_values ts_leb df)) / 100.
Proof.
  unfold calculate_cycles. now rewrite drop_column_sum.
Qed.

(** *** The latest timestamp *)

Lemma fold_left_max_spec l a :
  (a <= fold_left Z.max l a)%Z /\
  (forall x, In x l -> (x <= fold_left Z.max l a)%Z) /\
  (fold_left Z.max l a = a \/ In (fold_left Z.max l a) l).
Proof.
  revert a. induction l as [|y t IH]; intros a; simpl.
  - repeat split; [lia | tauto | now left].
  - destruct (IH (Z.max a y)) as (H1 & H2 & H3).
    repeat split.
    + lia.
    + intros x [->|Hx]; [lia | now apply H2].
    + destruct H3 as [H3|H3]; [|now right; right].
      rewrite H3. destruct (Z.max_spec a y) as [[_ ->]|[_ ->]];
        [right; now left | now left].
Qed.

Lemma ts_max_is_latest bdf m : ts_max bdf = Some m -> is_latest m bdf.
Proof.
  destruct bdf as [|r t]; simpl; [discriminate|].
  intros [= <-].
  destruct (fold_left_max_spec (map ts t) (ts r)) as (H1 & H2 & H3).
  split.
  - simpl. destruct H3 as [->|H3]; [now left | now right].
  - intros x [<-|Hx]; [exact H1|]. apply H2. now apply in_map.
Qed.

Lemma is_latest_ts_max bdf m : is_latest m bdf -> ts_max bdf = Some m.
Proof.
  intros [Hin Hub].
  destruct (ts_max bdf) as [m'|] eqn:E.
  - destruct (ts_max_is_latest _ _ E) as [Hin' Hub'].
    apply in_map_iff in Hin as (r & <- & Hr).
    apply in_map_iff in Hin' as (r' & <- & Hr').
    f_equal. apply Z.le_antisymm; [now apply Hub | now apply Hub'].
  - destruct bdf; [destruct Hin | discriminate].
Qed.

Lemma trailing_filter bdf m delta :
  is_latest m bdf ->
  trailing delta bdf = filter (fun r => (m - delta <=? ts r)%Z) bdf.
Proof.
  intros H. unfold trailing. now rewrite (is_latest_ts_max _ _ H).
Qed.

(** *** Windows of the sorted series *)

Lemma sort_filter (p : sample -> bool) df :
  sort_values ts_leb (filter p df) = filter p (sort_values ts_leb df).
Proof.
  symmetry. apply sort_values_filter; [apply ts_leb_total | apply ts_leb_trans].
Qed.

Lemma clamped_drop_sum_short soc :
  (length soc < 2)%nat -> clamped_drop_sum soc = 0.
Proof.
  destruct soc as [|a [|b t]]; simpl; intros H; try reflexivity; lia.
Qed.

Lemma window_cycles_sum dfw :
  window_cycles dfw ==
  clamped_drop_sum (map battery_soc_pct (sort_values ts_leb dfw)) / 100.
Proof.
  unfold window_cycles.
  destruct (1 <? length dfw)%nat eqn:E; [apply calculate_cycles_sum|].
  apply Nat.ltb_ge in E.
  rewrite clamped_drop_sum_short; [reflexivity|].
  rewrite length_map, sort_values_length. lia.
Qed.

Lemma clamped_drop_sum_cons a soc :
  clamped_drop_sum soc <= clamped_drop_sum (a :: soc).
Proof.
  destruct soc as [|b t]; [apply Qle_refl|].
  change (clamped_drop_sum (a :: b :: t))
    with (Qmax 0 (a - b) + clamped_drop_sum (b :: t)).
  pose proof (Q.le_max_l 0 (a - b)). qlra.
Qed.

Lemma later_rows_kept c x t :
  (c <= ts x)%Z -> Forall (lebP ts_leb x) t ->
  filter (fun r => (c <=? ts r)%Z) t = t.
Proof.
  intros Hc Hall. apply forallb_filter_id, forallb_forall.
  intros y Hy. rewrite Forall_forall in Hall.
  specialize (Hall y Hy). unfold lebP, ts_leb in Hall. lia.
Qed.

(** A shorter trailing window holds no more discharge than a longer
    one with the same end. *)
Lemma window_sum_nested c1 c2 l :
  StronglySorted (lebP ts_leb) l -> (c2 <= c1)%Z ->
  clamped_drop_sum (map battery_soc_pct (filter (fun r => (c1 <=? ts r)%Z) l))
  <= clamped_drop_sum (map battery_soc_pct (filter (fun r => (c2 <=? ts r)%Z) l)).
Proof.
  intros Hs Hc. induction Hs as [|x t Ht IH Hx]; [apply Qle_refl|].
  cbn [filter].
  destruct (c1 <=? ts x)%Z eqn:E1.
  - assert (E2 : (c2 <=? ts x)%Z = true) by lia. rewrite E2.
    rewrite (later_rows_kept c1 x t), (later_rows_kept c2 x t) by (lia || assumption).
    apply Qle_refl.
  - destruct (c2 <=? ts x)%Z eqn:E2; [|exact IH].
    eapply Qle_trans; [exact IH|].
    cbn [map]. apply clamped_drop_sum_cons.
Qed.

Lemma window_sum_total c l :
  StronglySorted (lebP ts_leb) l ->
  clamped_drop_sum (map battery_soc_pct (filter (fun r => (c <=? ts r)%Z) l))
  <= clamped_drop_sum (map battery_soc_pct l).
Proof.
  intros Hs. induction Hs as [|x t Ht IH Hx]; [apply Qle_refl|].
  cbn [filter].
  destruct (c <=? ts x)%Z eqn:E1.
  - rewrite (later_rows_kept c x t) by (lia || assumption). apply Qle_refl.
  - eapply Qle_trans; [exact IH|].
    cbn [map]. apply clamped_drop_sum_cons.
Qed.

Lemma sorted_rows df : StronglySorted (lebP ts_leb) (sort_values ts_leb df).
Proof. apply sort_values_sorted; [apply ts_leb_total | apply ts_leb_trans]. Qed.

Lemma in_compute_all_cycles df c :
  In c (compute_all_cycles df) ->
  c = battery_cycles df (cc_battery_id c) /\ In (cc_battery_id c) (map battery_id df).
Proof.
  unfold compute_all_cycles. intros H.
  apply in_map_iff in H as (b & <- & Hb).
  apply (proj1 (unique_In _ _)) in Hb. split; [reflexivity | exact Hb].
Qed.

(** The result has one row per battery of the input, in order of first
    appearance. *)
Lemma compute_all_cycles_ids df :
  map cc_battery_id (compute_all_cycles df) = unique (map battery_id df).
Proof.
  unfold compute_all_cycles. rewrite map_map. apply map_id.
Qed.

Lemma reported_window df b w m span :
  window_span w = Some span -> is_latest m (rows_of b df) ->
  reported w (battery_cycles df b) =
  py_round (window_cycles (filter (fun r => (m - span <=? ts r)%Z) (rows_of b df))) 3.
Proof.
  intros Hw Hm.
  destruct w; simpl in Hw; inversion Hw; subst span; simpl;
    now rewrite (trailing_filter _ _ _ Hm).
Qed.

Lemma Qdiv100_le x y : x <= y -> x / 100 <= y / 100.
Proof. intros H. apply Qmult_le_compat_r; [exact H | discriminate]. Qed.

Lemma trailing_nested d1 d2 bdf :
  (d1 <= d2)%Z ->
  window_cycles (trailing d1 bdf) <= window_cycles (trailing d2 bdf).
Proof.
  intros Hd. unfold trailing.
  destruct (ts_max bdf) as [m|]; [|apply Qle_refl].
  rewrite !window_cycles_sum, !sort_filter.
  apply Qdiv100_le, window_sum_nested; [apply sorted_rows | lia].
Qed.

Lemma trailing_total d bdf :
  window_cycles (trailing d bdf) <= calculate_cycles bdf.
Proof.
  rewrite calculate_cycles_sum. unfold trailing.
  destruct (ts_max bdf) as [m|].
  - rewrite window_cycles_sum, sort_filter.
    apply Qdiv100_le, window_sum_total, sorted_rows.
  - change (window_cycles []) with 0.
    pose proof (clamped_drop_sum_nonneg
                  (map battery_soc_pct (sort_values ts_leb bdf))) as H.
    eapply Qle_trans; [|apply (Qdiv100_le _ _ H)]. discriminate.
Qed.

Lemma rows_of_latest df b :
  In b (map battery_id df) -> exists m, is_latest m (rows_of b df).
Proof.
  intros H. apply in_map_iff in H as (r & Hr & Hin).
  assert (Hr' : In r (rows_of b df)).
  { apply filter_In. split; [exact Hin|]. now apply String.eqb_eq. }
  destruct (ts_max (rows_of b df)) as [m|] eqn:E.
  - exists m. now apply ts_max_is_latest.
  - destruct (rows_of b df); [destruct Hr' | discriminate].
Qed.

Lemma restricted_length w m l : (length (restricted w m l) <= length l)%nat.
Proof.
  unfold restricted. destruct (window_span w); [apply filter_length_le | lia].
Qed.

(** **** Windows with too few samples *)

(** C5.  A window whose restricted sub-sequence has fewer than two
    samples reports 0; in particular every window of a battery with a
    single sample does (a battery without samples has no result row).
    The counts are values of total functions: nothing is raised. *)
Theorem cycles_insufficient_data df c :
  In c (compute_all_cycles df) ->
  (forall w m,
      is_latest m (rows_of (cc_battery_id c) df) ->
      (length (restricted w m
                 (sort_values ts_leb (rows_of (cc_battery_id c) df))) < 2)%nat ->
      reported w c == 0) /\
  ((length (rows_of (cc_battery_id c) df) < 2)%nat ->
   forall w, reported w c == 0).
Proof.
  intros Hc.
  apply in_compute_all_cycles in Hc as [Hc Hb].
  remember (cc_battery_id c) as b eqn:Eb. clear Eb. subst c.
  assert (Hgen : forall w m,
             is_latest m (rows_of b df) ->
             (length (restricted w m
                        (sort_values ts_leb (rows_of b df))) < 2)%nat ->
             reported w (battery_cycles df b) == 0).
  { intros w m Hm Hlen. unfold restricted in Hlen.
    destruct (window_span w) as [span|] eqn:Hw.
    - rewrite (reported_window df b w m span Hw Hm).
      apply py_round_zero. rewrite window_cycles_sum, sort_filter.
      now rewrite clamped_drop_sum_short by now rewrite length_map.
    - destruct w; try discriminate. simpl.
      apply py_round_zero. rewrite calculate_cycles_sum.
      now rewrite clamped_drop_sum_short by now rewrite length_map. }
  split; [exact Hgen|].
  intros Hlen w.
  destruct (rows_of_latest df b Hb) as [m Hm].
  apply (Hgen w m Hm).
  pose proof (restricted_length w m (sort_values ts_leb (rows_of b df))) as H.
  rewrite sort_values_length in H. lia.
Qed.

(** **** The theorems at work on the sample fleet *)

Import CyclesExamples.
Local Open Scope string_scope.

Example fleet_counts :
  map (fun c => (cc_battery_id c, Qred (cycles_last_24h c), Qred (cycles_last_7d c),
                 Qred (cycles_last_30d c), Qred (total_cycles c)))
      (compute_all_cycles fleet)
  = [("A", 3 # 10, 3 # 5, 3 # 5, 1); ("B", 0, 0, 0, 0)].
Proof. vm_compute. reflexivity. Qed.

Lemma cycles_insufficient_data_witness :
  reported Last24h (battery_cycles fleet "B") == 0 /\
  reported AllTime (battery_cycles fleet "B") == 0.
Proof.
  assert (Hin : In (battery_cycles fleet "B") (compute_all_cycles fleet)).
  { vm_compute. right. left. reflexivity. }
  destruct (cycles_insufficient_data fleet (battery_cycles fleet "B") Hin)
    as [_ H].
  split; apply H; vm_compute; lia.
Defined.

End CyclesFacts.

(** ** Exact comparison with a square root *)

Lemma Qltb_lt x y : Qltb x y = true <-> x < y.
Proof.
  unfold Qltb. rewrite negb_true_iff.
  split; intros H.
  - apply Qnot_le_lt. intros Hle. apply Qle_bool_iff in Hle. congruence.
  - destruct (Qle_bool y x) eqn:E; [|reflexivity].
    apply Qle_bool_iff in E. exfalso. apply (Qlt_not_le _ _ H E).
Qed.

Lemma Qltb_Rlt x y : Qltb x y = true <-> (Q2R x < Q2R y)%R.
Proof.
  rewrite Qltb_lt. split; [apply Qlt_Rlt | apply Rlt_Qlt].
Qed.

Lemma Qle_bool_Rle x y : Qle_bool x y = true <-> (Q2R x <= Q2R y)%R.
Proof.
  rewrite Qle_bool_iff. split; [apply Qle_Rle | apply Rle_Qle].
Qed.

Lemma sq_lt_nonneg (d e : R) :
  (0 <= d)%R -> (0 <= e)%R -> (d * d < e * e)%R <-> (d < e)%R.
Proof. intros Hd He. split; intros H; nra. Qed.

(** [Qlt_surd] decides the real comparison [x < a + b * sqrt v]. *)
Lemma Qlt_surd_spec x s :
  0 <= radicand s ->
  Qlt_surd x s = true <-> (Q2R x < surd_R s)%R.
Proof.
  destruct s as [a b v]. unfold Qlt_surd, surd_R. cbn [rat_part coef radicand].
  intros Hv. apply Qle_Rle in Hv. rewrite RMicromega.Q2R_0 in Hv.
  pose proof (sqrt_pos (Q2R v)) as Hs.
  pose proof (sqrt_sqrt _ Hv) as Hss.
  remember (sqrt (Q2R v)) as S eqn:ES. clear ES.
  destruct (Qle_bool 0 b) eqn:Eb.
  - apply Qle_bool_Rle in Eb. rewrite RMicromega.Q2R_0 in Eb.
    rewrite orb_true_iff, !Qltb_Rlt.
    rewrite !Q2R_mult, Q2R_minus, RMicromega.Q2R_0, <- Hss.
    split.
    + intros [H|H]; [nra|].
      destruct (Rle_lt_dec 0 (Q2R x - Q2R a)) as [Hd|Hd]; [|nra].
      assert (Hlt : (Q2R x - Q2R a < Q2R b * S)%R).
      { apply sq_lt_nonneg; [exact Hd | nra | nra]. }
      nra.
    + intros H.
      destruct (Rle_lt_dec 0 (Q2R x - Q2R a)) as [Hd|Hd]; [right | now left].
      assert (Hlt : ((Q2R x - Q2R a) * (Q2R x - Q2R a)
                     < (Q2R b * S) * (Q2R b * S))%R).
      { apply sq_lt_nonneg; [exact Hd | nra | nra]. }
      nra.
  - assert (Hb : (Q2R b < 0)%R).
    { apply Rnot_le_lt. intros H. rewrite <- RMicromega.Q2R_0 in H.
      apply Qle_bool_Rle in H. congruence. }
    rewrite andb_true_iff, !Qltb_Rlt.
    rewrite !Q2R_mult, Q2R_minus, RMicromega.Q2R_0, <- Hss.
    split.
    + intros [Hd H].
      assert (Hlt : (- (Q2R b) * S < - (Q2R x - Q2R a))%R).
      { apply sq_lt_nonneg; nra. }
      nra.
    + intros H. split; [nra|].
      assert (Hlt : ((- (Q2R b) * S) * (- (Q2R b) * S)
                     < (- (Q2R x - Q2R a)) * (- (Q2R x - Q2R a)))%R).
      { apply sq_lt_nonneg; nra. }
      nra.
Qed.

(** ** Mean and variance *)

Lemma Qsum_squares_nonneg (f : Q -> Q) l :
  0 <= Qsum (map (fun x => f x * f x) l).
Proof.
  induction l as [|x t IH]; simpl; [apply Qle_refl|].
  assert (H' : 0 <= f x * f x).
  { destruct (Qlt_le_dec (f x) 0) as [Hn|Hp].
    - setoid_replace (f x * f x) with ((- f x) * (- f x)) by ring.
      apply Qmult_le_0_compat; qlra.
    - now apply Qmult_le_0_compat. }
  qlra.
Qed.

Lemma Qlen_ge2 l : (2 <= length l)%nat -> 0 < Qlen l - 1.
Proof.
  intros H. unfold Qlen.
  assert (Hz : (2 <= Z.of_nat (length l))%Z) by lia.
  rewrite Zle_Qle in Hz.
  change (inject_Z 2) with 2 in Hz. qlra.
Qed.

Lemma sample_variance_nonneg l :
  (2 <= length l)%nat -> 0 <= sample_variance l.
Proof.
  intros H. unfold sample_variance.
  apply Qmult_le_0_compat.
  - apply (Qsum_squares_nonneg (fun x => x - mean l)).
  - apply Qlt_le_weak, Qinv_lt_0_compat, Qlen_ge2, H.
Qed.

Lemma Qsum_constant c l :
  Forall (fun x => x == c) l -> Qsum l == Qlen l * c.
Proof.
  unfold Qlen. induction 1 as [|x t Hx Ht IH].
  - simpl. ring.
  - cbn [Qsum fold_right length]. fold (Qsum t). rewrite IH, Hx.
    rewrite Nat2Z.inj_succ. unfold Z.succ. rewrite inject_Z_plus. ring.
Qed.

Lemma mean_constant c l :
  l <> [] -> Forall (fun x => x == c) l -> mean l == c.
Proof.
  intros Hne Hall. unfold mean. rewrite (Qsum_constant c l Hall).
  assert (Hpos : ~ Qlen l == 0).
  { unfold Qlen. destruct l as [|x t]; [congruence|].
    intros H. change 0 with (inject_Z 0) in H.
    apply (proj1 (inject_Z_injective _ _)) in H.
    cbn [length] in H. lia. }
  field. exact Hpos.
Qed.

(** Constant data have zero variance. *)
Lemma sample_variance_constant c l :
  (2 <= length l)%nat -> Forall (fun x => x == c) l -> sample_variance l == 0.
Proof.
  intros Hlen Hall.
  assert (Hne : l <> []) by (destruct l; [simpl in Hlen; lia | discriminate]).
  pose proof (mean_constant c l Hne Hall) as Hm.
  unfold sample_variance.
  assert (Hz : Qsum (map (fun x => (x - mean l) * (x - mean l)) l) == 0).
  { remember (mean l) as mu eqn:Emu. clear Emu Hne Hlen.
    induction Hall as [|x t Hx Ht IH]; [reflexivity|].
    simpl. fold (Qsum (map (fun x => (x - mu) * (x - mu)) t)).
    rewrite IH, Hx, Hm. ring. }
  rewrite Hz. apply Qmult_0_l.
Qed.

(** ** Facts about pp.py *)

Module AnomalyFacts.
Import Anomaly.

(** *** The order of the sort keys *)

Lemma compare_refl a : String_as_OT.compare a a = Eq.
Proof.
  destruct (String_as_OT.compare_spec a a) as [_|H|H]; [reflexivity| |];
    exfalso; exact (StrictOrder_Irreflexive a H).
Qed.

Lemma compare_Eq a b : String_as_OT.compare a b = Eq -> a = b.
Proof.
  destruct (String_as_OT.compare_spec a b) as [H|_|_];
    [trivial | discriminate | discriminate].
Qed.

Lemma compare_Gt_Lt a b :
  String_as_OT.compare a b = Gt -> String_as_OT.compare b a = Lt.
Proof.
  destruct (String_as_OT.compare_spec a b) as [_|_|H];
    [discriminate | discriminate | intros _; exact H].
Qed.

Lemma compare_Lt_Gt a b :
  String_as_OT.compare a b = Lt -> String_as_OT.compare b a = Gt.
Proof.
  intros H.
  destruct (String_as_OT.compare_spec b a) as [E|H'|_]; [| |reflexivity].
  - change (b = a) in E. subst. rewrite compare_refl in H. discriminate.
  - exfalso. apply (StrictOrder_Irreflexive a).
    exact (StrictOrder_Transitive a b a H H').
Qed.

Lemma compare_Lt_trans a b c :
  String_as_OT.compare a b = Lt -> String_as_OT.compare b c = Lt ->
  String_as_OT.compare a c = Lt.
Proof. exact (StrictOrder_Transitive a b c). Qed.

Lemma str_leb_total a b : str_leb a b = true \/ str_leb b a = true.
Proof.
  unfold str_leb.
  destruct (String_as_OT.compare a b) eqn:E; [now left | now left | right].
  now rewrite (compare_Gt_Lt a b E).
Qed.

Lemma str_leb_trans a b c :
  str_leb a b = true -> str_leb b c = true -> str_leb a c = true.
Proof.
  unfold str_leb.
  destruct (String_as_OT.compare a b) eqn:E1; [| |discriminate]; intros _;
    destruct (String_as_OT.compare b c) eqn:E2; try discriminate; intros _.
  - apply compare_Eq in E1, E2. subst. now rewrite compare_refl.
  - apply compare_Eq in E1. subst. now rewrite E2.
  - apply compare_Eq in E2. subst. now rewrite E1.
  - now rewrite (compare_Lt_trans a b c E1 E2).
Qed.

Lemma str_leb_antisym a b :
  str_leb a b = true -> str_leb b a = true -> a = b.
Proof.
  unfold str_leb.
  destruct (String_as_OT.compare a b) eqn:E; [| |discriminate]; intros _.
  - intros _. now apply compare_Eq.
  - rewrite (compare_Lt_Gt a b E). discriminate.
Qed.

Lemma key_leb_total x y : key_leb x y = true \/ key_leb y x = true.
Proof.
  unfold key_leb.
  destruct (String_as_OT.compare (battery_id x) (battery_id y)) eqn:E.
  - apply compare_Eq in E. rewrite E, compare_refl. lia.
  - now left.
  - right. now rewrite (compare_Gt_Lt _ _ E).
Qed.

Lemma key_leb_trans x y z :
  key_leb x y = true -> key_leb y z = true -> key_leb x z = true.
Proof.
  unfold key_leb.
  destruct (String_as_OT.compare (battery_id x) (battery_id y)) eqn:E1;
    [| |discriminate];
    destruct (String_as_OT.compare (battery_id y) (battery_id z)) eqn:E2;
    try discriminate.
  - apply compare_Eq in E1, E2. rewrite E1, E2, compare_refl. lia.
  - apply compare_Eq in E1. rewrite E1, E2. trivial.
  - apply compare_Eq in E2. rewrite <- E2, E1. trivial.
  - rewrite (compare_Lt_trans _ _ _ E1 E2). trivial.
Qed.

(** Two rows tie for the sort exactly when they agree on the battery
    and on the timestamp. *)
Lemma key_leb_tie x y :
  key_leb x y = true -> key_leb y x = true ->
  battery_id x = battery_id y /\ ts x = ts y.
Proof.
  unfold key_leb.
  destruct (String_as_OT.compare (battery_id x) (battery_id y)) eqn:E;
    [| |discriminate].
  - apply compare_Eq in E. rewrite E, compare_refl. intros H1 H2.
    split; [reflexivity | lia].
  - rewrite (compare_Lt_Gt _ _ E). discriminate.
Qed.

Lemma key_leb_same x y :
  battery_id x = battery_id y -> key_leb x y = (ts x <=? ts y)%Z.
Proof. intros E. unfold key_leb. now rewrite E, compare_refl. Qed.

(** *** The column [soc_drop] *)

Lemma group_diff_length last df : length (group_diff last df) = length df.
Proof.
  revert last. induction df as [|r t IH]; intros last; simpl;
    [reflexivity | now rewrite IH].
Qed.

Lemma diff_after_length prev soc : length (diff_after prev soc) = length soc.
Proof.
  revert prev. induction soc as [|s t IH]; intros prev; simpl;
    [reflexivity | now rewrite IH].
Qed.

Lemma assign_data df col :
  length col = length df -> map data (assign_soc_drop df col) = df.
Proof.
  unfold assign_soc_drop. revert col.
  induction df as [|r t IH]; intros [|c col] H; simpl in *;
    try reflexivity; try discriminate.
  f_equal. apply IH. lia.
Qed.

Lemma assign_soc_drop_col df col :
  length col = length df -> map soc_drop (assign_soc_drop df col) = col.
Proof.
  unfold assign_soc_drop. revert col.
  induction df as [|r t IH]; intros [|c col] H; simpl in *;
    try reflexivity; try discriminate.
  f_equal. apply IH. lia.
Qed.

(** Restricted to one battery, the grouped difference is the plain
    first difference of that battery's readings. *)
Lemma group_diff_filter last df b :
  filter (fun r => String.eqb (id_of r) b)
         (assign_soc_drop df (group_diff last df))
  = assign_soc_drop
      (filter (fun x => String.eqb (battery_id x) b) df)
      (diff_after (last b)
         (map soc (filter (fun x => String.eqb (battery_id x) b) df))).
Proof.
  revert last. induction df as [|r t IH]; intros last; [reflexivity|].
  change (assign_soc_drop (r :: t) (group_diff last (r :: t)))
    with (mkRow r (option_map (fun p => soc r - p) (last (battery_id r)))
            :: assign_soc_drop t
                 (group_diff (note last (battery_id r) (soc r)) t)).
  cbn [filter]. unfold id_of at 1. cbn [data].
  rewrite IH.
  destruct (String.eqb (battery_id r) b) eqn:E.
  - apply String.eqb_eq in E. subst b.
    unfold note. rewrite String.eqb_refl. reflexivity.
  - unfold note. rewrite String.eqb_sym, E. reflexivity.
Qed.

Lemma id_of_assign df col :
  length col = length df ->
  map id_of (assign_soc_drop df col) = map battery_id df.
Proof.
  intros H. unfold id_of. rewrite <- (map_map data battery_id).
  now rewrite assign_data.
Qed.

(** *** The shape of an entry of the result *)

Lemma flag_group_eq b g : flag_group (b, g) = (b, g, flagged g).
Proof.
  unfold flag_group, flagged.
  now destruct (length (dropna (map soc_drop g)) =? 0)%nat.
Qed.

Lemma detect_anomalies_keys df :
  map (fun e => fst (fst e)) (detect_anomalies df)
  = sort_values str_leb (unique (map battery_id (sort_values key_leb df))).
Proof.
  unfold detect_anomalies, groupby. rewrite !map_map.
  rewrite id_of_assign by apply group_diff_length.
  rewrite (map_ext_in _ (fun b => b)); [apply map_id|].
  intros b _. now rewrite flag_group_eq.
Qed.

Lemma detect_anomalies_entry df b g a :
  In (b, g, a) (detect_anomalies df) ->
  In b (map battery_id df) /\
  g = assign_soc_drop (series b df) (diff_after None (map soc (series b df))) /\
  a = flagged g.
Proof.
  unfold detect_anomalies, groupby. rewrite map_map.
  intros H. apply in_map_iff in H as (k & E & Hk).
  rewrite flag_group_eq in E. inversion E; subst k g a. clear E.
  apply (proj1 (sort_values_In _ _ _)) in Hk.
  apply (proj1 (unique_In _ _)) in Hk.
  rewrite id_of_assign in Hk by apply group_diff_length.
  apply in_map_iff in Hk as (x & Hx & Hin).
  apply (proj1 (sort_values_In _ _ _)) in Hin.
  split; [apply in_map_iff; now exists x|].
  split; [|reflexivity].
  apply group_diff_filter.
Qed.

(** *** The series of one battery *)

Lemma series_sort b df :
  series b df
  = sort_values key_leb (filter (fun x => String.eqb (battery_id x) b) df).
Proof.
  unfold series. apply sort_values_filter;
    [apply key_leb_total | apply key_leb_trans].
Qed.

Lemma series_perm b df :
  Permutation (series b df)
              (filter (fun x => String.eqb (battery_id x) b) df).
Proof. rewrite series_sort. apply sort_values_perm. Qed.

Lemma series_id b df x : In x (series b df) -> battery_id x = b.
Proof.
  unfold series. intros H. apply filter_In in H as [_ H].
  now apply String.eqb_eq.
Qed.

Lemma StronglySorted_In_weaken {A : Type} (R R' : A -> A -> Prop) l :
  (forall x y, In x l -> In y l -> R x y -> R' x y) ->
  StronglySorted R l -> StronglySorted R' l.
Proof.
  intros Hw Hs. induction Hs as [|x t Ht IH Hx]; constructor.
  - apply IH. intros a b Ha Hb. apply Hw; now right.
  - rewrite Forall_forall in *. intros y Hy.
    apply Hw; [now left | now right | now apply Hx].
Qed.

Lemma series_sorted b df :
  StronglySorted (fun x y => (ts x <= ts y)%Z) (series b df).
Proof.
  apply (StronglySorted_In_weaken (lebP key_leb)).
  - intros x y Hx Hy H. unfold lebP in H.
    rewrite key_leb_same in H by
      (now rewrite (series_id b df x Hx), (series_id b df y Hy)).
    lia.
  - rewrite series_sort.
    apply sort_values_sorted; [apply key_leb_total | apply key_leb_trans].
Qed.

(** *** First differences, row by row *)

Lemma assign_first prev s r :
  nth_error (assign_soc_drop s (diff_after prev (map soc s))) 0 = Some r ->
  soc_drop r = option_map (fun p => soc (data r) - p) prev.
Proof.
  destruct s as [|x t]; simpl; [discriminate|].
  intros [= <-]. reflexivity.
Qed.

Lemma assign_next prev s i p r :
  nth_error (assign_soc_drop s (diff_after prev (map soc s))) i = Some p ->
  nth_error (assign_soc_drop s (diff_after prev (map soc s))) (S i) = Some r ->
  soc_drop r = Some (soc (data r) - soc (data p)).
Proof.
  revert prev i. induction s as [|x t IH]; intros prev i Hp Hr.
  - destruct i; discriminate.
  - change (assign_soc_drop (x :: t) (diff_after prev (map soc (x :: t))))
      with (mkRow x (option_map (fun p => soc x - p) prev)
              :: assign_soc_drop t (diff_after (Some (soc x)) (map soc t)))
      in Hp, Hr.
    destruct i as [|i].
    + injection Hp as <-. cbn [nth_error] in Hr.
      apply assign_first in Hr. exact Hr.
    + cbn [nth_error] in Hp, Hr. exact (IH _ _ Hp Hr).
Qed.

Lemma dropna_diff_after a soc :
  length (dropna (diff_after (Some a) soc)) = length soc.
Proof.
  revert a. induction soc as [|s t IH]; intros a; simpl;
    [reflexivity | now rewrite IH].
Qed.

(** A series of [n] buckets has [n - 1] defined drops. *)
Lemma defined_drops_count s :
  length (dropna (map soc_drop
                    (assign_soc_drop s (diff_after None (map soc s)))))
  = (length s - 1)%nat.
Proof.
  rewrite assign_soc_drop_col
    by now rewrite diff_after_length, length_map.
  destruct s as [|x t]; [reflexivity|].
  cbn [map diff_after option_map dropna].
  rewrite dropna_diff_after, length_map. simpl. lia.
Qed.

Lemma assign_length df col :
  length col = length df -> length (assign_soc_drop df col) = length df.
Proof.
  intros H. unfold assign_soc_drop. rewrite length_map, length_combine. lia.
Qed.

Lemma entry_series df b g a :
  In (b, g, a) (detect_anomalies df) -> map data g = series b df.
Proof.
  intros H. apply detect_anomalies_entry in H as (_ & -> & _).
  apply assign_data. now rewrite diff_after_length, length_map.
Qed.

(** *** The sign of [soc_drop] *)

(** C1, as amended.  In the group of every battery the first bucket
    has no [soc_drop], and the [soc_drop] of every later bucket is its
    own reading minus the reading of the bucket before it: a negative
    [soc_drop] is a fall of the charge, a positive one a rise. *)
Theorem soc_drop_current_minus_previous df b g a :
  In (b, g, a) (detect_anomalies df) ->
  (forall r, nth_error g 0 = Some r -> soc_drop r = None) /\
  (forall i p r,
      nth_error g i = Some p -> nth_error g (S i) = Some r ->
      soc_drop r = Some (soc (data r) - soc (data p)) /\
      (soc (data r) - soc (data p) < 0 <-> soc (data r) < soc (data p)) /\
      (0 < soc (data r) - soc (data p) <-> soc (data p) < soc (data r))).
Proof.
  intros H. apply detect_anomalies_entry in H as (_ & -> & _).
  split.
  - intros r Hr. now apply assign_first in Hr.
  - intros i p r Hp Hr.
    split; [exact (assign_next None _ i p r Hp Hr)|].
    split; split; intros Hlt; qlra.
Qed.

(** *** The anomaly predicate *)

Lemma Q2R_three_halves : Q2R (- ((3 # 2) * 1)) = (- (3 / 2))%R.
Proof. unfold Q2R. simpl. rlra. Qed.

Lemma threshold_value drops :
  (2 <= length drops)%nat ->
  exists t,
    threshold_of drops = Some t /\ 0 <= radicand t /\
    surd_R t
    = (Q2R (mean drops) - 3 / 2 * sqrt (Q2R (sample_variance drops)))%R.
Proof.
  intros H. unfold threshold_of, std.
  destruct (length drops <=? 1)%nat eqn:E; [apply Nat.leb_le in E; lia|].
  eexists. split; [reflexivity|].
  unfold surd_R, surd_rsub, surd_scale. cbn [rat_part coef radicand].
  split; [now apply sample_variance_nonneg|].
  rewrite Q2R_three_halves.
  rewrite (Qeq_eqR (mean drops - (3 # 2) * 0) (mean drops)) by ring.
  rlra.
Qed.

Lemma threshold_single drops :
  length drops = 1%nat -> threshold_of drops = None.
Proof. intros H. unfold threshold_of, std. now rewrite H. Qed.

Lemma in_flagged g r :
  dropna (map soc_drop g) <> [] ->
  In r (flagged g) <->
  In r g /\ is_anomalous (threshold_of (dropna (map soc_drop g))) r = true.
Proof.
  intros Hne. unfold flagged.
  destruct (dropna (map soc_drop g)) as [|d t] eqn:E; [congruence|].
  cbn [length Nat.eqb]. apply filter_In.
Qed.

(** *** Batteries without a defined drop *)

(** C7.  A group has no defined drop exactly when it has a single
    bucket, and then its anomaly subset is empty. *)
Theorem no_drops_no_anomalies df b g a :
  In (b, g, a) (detect_anomalies df) ->
  ((length g <= 1)%nat <-> dropna (map soc_drop g) = []) /\
  (dropna (map soc_drop g) = [] -> a = []).
Proof.
  intros He. apply detect_anomalies_entry in He as (_ & Hg & ->).
  split.
  - rewrite <- length_zero_iff_nil. rewrite Hg at 2.
    rewrite defined_drops_count. rewrite Hg.
    rewrite assign_length by now rewrite diff_after_length, length_map.
    lia.
  - intros E. unfold flagged. now rewrite E.
Qed.

(** *** One entry per battery *)

Lemma subseq_nil_l {A : Type} (g : list A) : subseq [] g.
Proof. induction g; now constructor. Qed.

Lemma subseq_filter {A : Type} (p : A -> bool) (g : list A) :
  subseq (filter p g) g.
Proof.
  induction g as [|x t IH]; simpl; [constructor|].
  destruct (p x); now constructor.
Qed.

Lemma subseq_flagged g : subseq (flagged g) g.
Proof.
  unfold flagged.
  destruct (length (dropna (map soc_drop g)) =? 0)%nat;
    [apply subseq_nil_l | apply subseq_filter].
Qed.

(** C10.  The result has exactly one entry per battery identifier of
    the input; the entry holds all the rows of the battery in
    timestamp order, and an anomaly subset that keeps some of these
    rows in the same order. *)
Theorem one_entry_per_battery df :
  NoDup (map (fun e => fst (fst e)) (detect_anomalies df)) /\
  (forall b, In b (map (fun e => fst (fst e)) (detect_anomalies df))
             <-> In b (map battery_id df)) /\
  (forall b g a,
      In (b, g, a) (detect_anomalies df) ->
      Permutation (map data g)
                  (filter (fun x => String.eqb (battery_id x) b) df) /\
      StronglySorted (fun x y => (ts x <= ts y)%Z) (map data g) /\
      subseq a g).
Proof.
  rewrite detect_anomalies_keys. repeat split.
  - eapply Permutation_NoDup; [symmetry; apply sort_values_perm|].
    apply unique_NoDup.
  - intros H. apply (proj1 (sort_values_In _ _ _)) in H.
    apply (proj1 (unique_In _ _)) in H.
    eapply Permutation_in; [|exact H].
    apply Permutation_map, sort_values_perm.
  - intros H. apply (proj2 (sort_values_In _ _ _)).
    apply (proj2 (unique_In _ _)).
    eapply Permutation_in; [|exact H].
    symmetry. apply Permutation_map, sort_values_perm.
  - rewrite (entry_series df b g a H). apply series_perm.
  - rewrite (entry_series df b g a H). apply series_sorted.
  - apply detect_anomalies_entry in H as (_ & _ & ->). apply subseq_flagged.
Qed.

(** *** The theorems at work on the sample data *)

Import AnomalyExamples.
Local Open Scope string_scope.

Example detect_discharge :
  detect_anomalies discharge
  = [("B1", [discharge_first; discharge_second], [discharge_second])].
Proof. vm_compute. reflexivity. Qed.

Example detect_mixed :
  detect_anomalies mixed
  = [("B1", mixed_series, [mixed_second; mixed_fourth]);
     ("B2", lone_series, [])].
Proof. vm_compute. reflexivity. Qed.

Example detect_steady :
  detect_anomalies steady = [("S", steady_series, [])].
Proof. vm_compute. reflexivity. Qed.

(** C1, as stated, fails: on [discharge] the charge falls from 80 to
    60, the previous reading minus the current one is 20, and the
    [soc_drop] of the second bucket is -20. *)
Lemma soc_drop_previous_minus_current_counterexample :
  ~ (forall b g a i p r,
        In (b, g, a) (detect_anomalies discharge) ->
        nth_error g i = Some p -> nth_error g (S i) = Some r ->
        exists d, soc_drop r = Some d /\ d == soc (data p) - soc (data r)).
Proof.
  intros H.
  destruct (H "B1" [discharge_first; discharge_second] [discharge_second]
              0%nat discharge_first discharge_second)
    as (d & Hd & Hq).
  - rewrite detect_discharge. left. reflexivity.
  - reflexivity.
  - reflexivity.
  - injection Hd as <-. vm_compute in Hq. discriminate.
Qed.

Lemma soc_drop_current_minus_previous_witness :
  soc_drop discharge_second
  = Some (soc (data discharge_second) - soc (data discharge_first)).
Proof.
  assert (Hin : In ("B1", [discharge_first; discharge_second], [discharge_second])
                   (detect_anomalies discharge)).
  { vm_compute. left. reflexivity. }
  destruct (soc_drop_current_minus_previous discharge "B1"
              [discharge_first; discharge_second] [discharge_second] Hin)
    as [_ H].
  exact (proj1 (H 0%nat discharge_first discharge_second eq_refl eq_refl)).
Defined.

Lemma no_drops_no_anomalies_witness :
  ((length lone_series <= 1)%nat <-> dropna (map soc_drop lone_series) = []) /\
  (dropna (map soc_drop lone_series) = [] -> @nil row = []).
Proof.
  apply (no_drops_no_anomalies mixed "B2" lone_series []).
  vm_compute. right. left. reflexivity.
Defined.

End AnomalyFacts.

(** ** Row order does not matter when timestamps are distinct *)

Section ListToolkit.

Context {A B : Type}.

Lemma Permutation_filter (p : A -> bool) (l l' : list A) :
  Permutation l l' -> Permutation (filter p l) (filter p l').
Proof.
  induction 1 as [|x l l' _ IH|x y l|l l' l'' _ IH1 _ IH2]; simpl.
  - constructor.
  - destruct (p x); [now constructor | exact IH].
  - destruct (p x), (p y); try reflexivity. apply perm_swap.
  - now transitivity (filter p l').
Qed.

(** Rows with pairwise different keys stay so under selection. *)
Lemma distinct_keys_filter (key : A -> B) (keep : A -> bool) rows :
  NoDup (map key rows) -> NoDup (map key (filter keep rows)).
Proof.
  induction rows as [|x t IH]; simpl; [trivial|].
  intros H. inversion H as [|? ? Hx Ht]; subst.
  destruct (keep x); [|now apply IH].
  simpl. constructor; [|now apply IH].
  intros Hin. apply Hx.
  apply in_map_iff in Hin as (y & Ey & Hy).
  apply filter_In in Hy as [Hy _].
  apply in_map_iff. now exists y.
Qed.

Lemma NoDup_map_inj (f : A -> B) (l : list A) x y :
  NoDup (map f l) -> In x l -> In y l -> f x = f y -> x = y.
Proof.
  induction l as [|a t IH]; simpl; [tauto|].
  intros H. inversion H as [|? ? Ha Ht]; subst.
  intros [->|Hx] [->|Hy] E; try reflexivity.
  - exfalso. apply Ha. rewrite E. now apply in_map.
  - exfalso. apply Ha. rewrite <- E. now apply in_map.
  - now apply IH.
Qed.

End ListToolkit.

Module InvarianceFacts.

Lemma unique_perm ids ids' :
  Permutation ids ids' -> Permutation (unique ids) (unique ids').
Proof.
  intros H. apply NoDup_Permutation; try apply unique_NoDup.
  intros x. rewrite !unique_In.
  split; apply Permutation_in; [exact H | now symmetry].
Qed.

(** *** cycles.py *)

Import Cycles CyclesFacts.

Lemma calculate_cycles_perm l l' :
  Permutation l l' -> NoDup (map ts l) ->
  calculate_cycles l = calculate_cycles l'.
Proof.
  intros Hp Hnd. unfold calculate_cycles.
  rewrite (sort_values_perm_invariant ts_leb ts_leb_total ts_leb_trans l l' Hp);
    [reflexivity|].
  intros x y Hx Hy H1 H2. apply (NoDup_map_inj ts l x y Hnd Hx Hy).
  unfold lebP, ts_leb in H1, H2. lia.
Qed.

Lemma ts_max_perm l l' : Permutation l l' -> ts_max l = ts_max l'.
Proof.
  intros Hp. destruct (ts_max l) as [m|] eqn:E.
  - symmetry. apply is_latest_ts_max.
    destruct (ts_max_is_latest l m E) as [Hin Hub]. split.
    + eapply Permutation_in; [apply Permutation_map; exact Hp | exact Hin].
    + intros r Hr. apply Hub.
      eapply Permutation_in; [symmetry; exact Hp | exact Hr].
  - destruct l; [|discriminate].
    apply Permutation_nil in Hp. now subst.
Qed.

Lemma window_cycles_perm l l' :
  Permutation l l' -> NoDup (map ts l) ->
  window_cycles l = window_cycles l'.
Proof.
  intros Hp Hnd. unfold window_cycles.
  rewrite (Permutation_length Hp), (calculate_cycles_perm l l' Hp Hnd).
  reflexivity.
Qed.

Lemma trailing_cycles_perm d l l' :
  Permutation l l' -> NoDup (map ts l) ->
  window_cycles (trailing d l) = window_cycles (trailing d l').
Proof.
  intros Hp Hnd. unfold trailing. rewrite <- (ts_max_perm l l' Hp).
  destruct (ts_max l) as [m|]; [|reflexivity].
  apply window_cycles_perm.
  - now apply Permutation_filter.
  - now apply distinct_keys_filter.
Qed.

Lemma battery_cycles_perm df df' b :
  Permutation df df' -> NoDup (map ts (rows_of b df)) ->
  battery_cycles df b = battery_cycles df' b.
Proof.
  intros Hp Hnd. unfold battery_cycles.
  assert (Hb : Permutation (rows_of b df) (rows_of b df'))
    by now apply Permutation_filter.
  rewrite !(trailing_cycles_perm _ _ _ Hb Hnd).
  now rewrite (calculate_cycles_perm _ _ Hb Hnd).
Qed.

(** *** pp.py *)

Lemma sorted_frame_perm (df df' : list Anomaly.bucket) :
  Permutation df df' ->
  (forall b, NoDup (map Anomaly.ts
                      (filter (fun x => String.eqb (Anomaly.battery_id x) b) df))) ->
  sort_values Anomaly.key_leb df = sort_values Anomaly.key_leb df'.
Proof.
  intros Hp Hnd.
  apply (sort_values_perm_invariant Anomaly.key_leb
           AnomalyFacts.key_leb_total AnomalyFacts.key_leb_trans df df' Hp).
  intros x y Hx Hy H1 H2.
  destruct (AnomalyFacts.key_leb_tie x y H1 H2) as [Eb Et].
  apply (NoDup_map_inj Anomaly.ts
           (filter (fun r => String.eqb (Anomaly.battery_id r)
                                        (Anomaly.battery_id x)) df)
           x y (Hnd _)).
  - apply filter_In. split; [exact Hx | apply String.eqb_refl].
  - apply filter_In. split; [exact Hy | rewrite <- Eb; apply String.eqb_refl].
  - exact Et.
Qed.

(** C9.  When the timestamps of every battery are pairwise distinct,
    a permutation of the input rows changes neither the value of
    [calculate_cycles], nor the counts that [compute_all_cycles]
    reports for any battery (its result holds the same rows), nor the
    result of [detect_anomalies]. *)
Theorem permutation_invariance
    (l l' cf cf' : list Cycles.sample) (af af' : list Anomaly.bucket) :
  Permutation l l' -> NoDup (map ts l) ->
  Permutation cf cf' ->
  (forall b, NoDup (map ts (rows_of b cf))) ->
  Permutation af af' ->
  (forall b, NoDup (map Anomaly.ts
                      (filter (fun x => String.eqb (Anomaly.battery_id x) b) af))) ->
  calculate_cycles l = calculate_cycles l' /\
  (forall b, battery_cycles cf b = battery_cycles cf' b) /\
  Permutation (compute_all_cycles cf) (compute_all_cycles cf') /\
  Anomaly.detect_anomalies af = Anomaly.detect_anomalies af'.
Proof.
  intros Hl Hnl Hc Hnc Ha Hna.
  assert (Hbat : forall b, battery_cycles cf b = battery_cycles cf' b).
  { intros b. now apply battery_cycles_perm. }
  repeat split.
  - now apply calculate_cycles_perm.
  - exact Hbat.
  - unfold compute_all_cycles.
    rewrite (map_ext _ _ Hbat).
    apply Permutation_map, unique_perm, Permutation_map, Hc.
  - unfold Anomaly.detect_anomalies.
    now rewrite (sorted_frame_perm af af' Ha Hna).
Qed.

(** Without the precondition the row order shows: two samples with
    the same timestamp keep their input order in the sort. *)
Example ties_keep_input_order :
  calculate_cycles [mkSample 0 "A" 50; mkSample 0 "A" 80] == 0 /\
  calculate_cycles [mkSample 0 "A" 80; mkSample 0 "A" 50] == 3 # 10.
Proof. split; vm_compute; reflexivity. Qed.

Ltac distinct_values :=
  vm_compute;
  repeat (constructor; [intros H; simpl in H; intuition discriminate|]);
  constructor.

Lemma permutation_invariance_witness :
  calculate_cycles CyclesExamples.fleet
  = calculate_cycles (rev CyclesExamples.fleet) /\
  Anomaly.detect_anomalies AnomalyExamples.steady
  = Anomaly.detect_anomalies (rev AnomalyExamples.steady).
Proof.
  destruct (permutation_invariance
              CyclesExamples.fleet (rev CyclesExamples.fleet)
              CyclesExamples.fleet (rev CyclesExamples.fleet)
              AnomalyExamples.steady (rev AnomalyExamples.steady))
    as (H1 & _ & _ & H2).
  - apply Permutation_rev.
  - distinct_values.
  - apply Permutation_rev.
  - intros b. apply distinct_keys_filter. distinct_values.
  - apply Permutation_rev.
  - intros b. apply distinct_keys_filter. distinct_values.
  - split; [exact H1 | exact H2].
Defined.

End InvarianceFacts.

(** ** The scripts leave their input alone *)

Module StoreFacts.
Import Store.

Section HeapFacts.

Context {A : Type}.
Implicit Types (h : heap A) (f : frame A) (r : ref).

Lemma nth_old h ext r : (r < length h)%nat -> nth r (h ++ ext) [] = nth r h [].
Proof. intros H. now apply app_nth1. Qed.

Lemma nth_new h f ext : nth (length h) (h ++ f :: ext) [] = f.
Proof. apply nth_middle. Qed.

Lemma set_nth_new h f f' ext :
  set_nth (length h) f' (h ++ f :: ext) = h ++ f' :: ext.
Proof. induction h as [|g t IH]; simpl; [reflexivity | now rewrite IH]. Qed.

Lemma extends_refl h : extends h h.
Proof. exists []. now rewrite app_nil_r. Qed.

Lemma extends_trans h1 h2 h3 : extends h1 h2 -> extends h2 h3 -> extends h1 h3.
Proof.
  intros [e1 ->] [e2 ->]. exists (e1 ++ e2). now rewrite app_assoc.
Qed.

Lemma extends_app h ext : extends h (h ++ ext).
Proof. now exists ext. Qed.

Lemma extends_length h h' : extends h h' -> (length h <= length h')%nat.
Proof. intros [e ->]. rewrite length_app. lia. Qed.

Lemma extends_nth h h' r :
  extends h h' -> (r < length h)%nat -> nth r h' [] = nth r h [].
Proof. intros [e ->]. apply nth_old. Qed.

Lemma wp_bind {T U : Type} (m : M A T) (k : T -> M A U) h post :
  wp m h (fun v h1 => wp (k v) h1 post) -> wp (bind m k) h post.
Proof. unfold wp, bind. now destruct (m h). Qed.

Lemma wp_ret {T : Type} (x : T) h (post : T -> heap A -> Prop) :
  post x h -> wp (ret x) h post.
Proof. trivial. Qed.

Lemma wp_mono {T : Type} (m : M A T) h (post post' : T -> heap A -> Prop) :
  wp m h post -> (forall v h', post v h' -> post' v h') -> wp m h post'.
Proof. unfold wp. auto. Qed.

Lemma wp_select (p : A * cells -> bool) r h (post : ref -> heap A -> Prop) :
  post (length h) (h ++ [filter p (nth r h [])]) -> wp (select p r) h post.
Proof. trivial. Qed.

Lemma wp_getitem name r h (post : list (option Q) -> heap A -> Prop) :
  post (map (fun x => cell name (snd x)) (nth r h [])) h ->
  wp (getitem name r) h post.
Proof. trivial. Qed.

Lemma wp_sort_values_st (leb : A -> A -> bool) r h
      (post : ref -> heap A -> Prop) :
  post (length h)
       (h ++ [sort_values (fun x y => leb (fst x) (fst y)) (nth r h [])]) ->
  wp (sort_values_st leb r) h post.
Proof. trivial. Qed.

Lemma wp_copy r h (post : ref -> heap A -> Prop) :
  post (length h) (h ++ [nth r h []]) -> wp (copy r) h post.
Proof. trivial. Qed.

Lemma wp_column {T : Type} (proj : A -> T) r h
      (post : list T -> heap A -> Prop) :
  post (map (fun x => proj (fst x)) (nth r h [])) h ->
  wp (column proj r) h post.
Proof. trivial. Qed.

Lemma wp_setitem name r col h (post : unit -> heap A -> Prop) :
  post tt (set_nth r (add_column name (nth r h []) col) h) ->
  wp (setitem name r col) h post.
Proof. trivial. Qed.

(** The rule of the [for] loop: every pass extends the heap and
    establishes [R], which later extensions do not disturb. *)
Lemma wp_for_each {T U : Type} (body : T -> M A U)
      (R : T -> U -> heap A -> Prop) h0 :
  (forall x v h h', R x v h -> extends h h' -> R x v h') ->
  (forall x h1, extends h0 h1 ->
                wp (body x) h1 (fun v h2 => extends h1 h2 /\ R x v h2)) ->
  forall l h1, extends h0 h1 ->
    wp (for_each body l) h1
       (fun vs h2 => extends h1 h2 /\ Forall2 (fun x v => R x v h2) l vs).
Proof.
  intros Hstable Hbody. induction l as [|x t IH]; intros h1 H1.
  - apply wp_ret. split; [apply extends_refl | constructor].
  - cbn [for_each]. apply wp_bind.
    eapply wp_mono; [apply (Hbody x h1 H1)|].
    intros v h2 [E2 Hv]. apply wp_bind.
    eapply wp_mono; [apply (IH h2 (extends_trans _ _ _ H1 E2))|].
    intros vs h3 [E3 Hvs]. apply wp_ret.
    split; [exact (extends_trans _ _ _ E2 E3)|].
    constructor; [exact (Hstable x v h2 h3 Hv E3) | exact Hvs].
Qed.

Lemma add_column_fst name f col :
  length col = length f -> map fst (add_column name f col) = map fst f.
Proof.
  unfold add_column. revert col.
  induction f as [|x t IH]; intros [|c col] H; simpl in *;
    try reflexivity; try discriminate.
  f_equal. apply IH. lia.
Qed.

Lemma add_column_cell name f col :
  length col = length f ->
  map (fun x => cell name (snd x)) (add_column name f col) = col.
Proof.
  unfold add_column. revert col.
  induction f as [|x t IH]; intros [|c col] H; simpl in *;
    try reflexivity; try discriminate.
  rewrite String.eqb_refl. f_equal. apply IH. lia.
Qed.

Lemma add_column_length name f col :
  length col = length f -> length (add_column name f col) = length f.
Proof.
  intros H. unfold add_column. rewrite length_map, length_combine. lia.
Qed.

Lemma insert_row_fst (leb : A -> A -> bool) (x : A * cells) (f : frame A) :
  map fst (insert_row (fun a b => leb (fst a) (fst b)) x f)
  = insert_row leb (fst x) (map fst f).
Proof.
  induction f as [|y t IH]; simpl; [reflexivity|].
  destruct (leb (fst x) (fst y)); simpl; [reflexivity | now rewrite IH].
Qed.

Lemma sort_values_fst (leb : A -> A -> bool) (f : frame A) :
  map fst (sort_values (fun a b => leb (fst a) (fst b)) f)
  = sort_values leb (map fst f).
Proof.
  induction f as [|x t IH]; simpl; [reflexivity|].
  now rewrite insert_row_fst, IH.
Qed.

Lemma filter_fst (p : A -> bool) (f : frame A) :
  map fst (filter (fun x => p (fst x)) f) = filter p (map fst f).
Proof.
  induction f as [|x t IH]; simpl; [reflexivity|].
  destruct (p (fst x)); simpl; now rewrite IH.
Qed.

End HeapFacts.

(** *** cycles.py *)

Lemma shift1_length col : length (Cycles.shift1 col) = length col.
Proof.
  unfold Cycles.shift1. rewrite length_firstn. simpl. rewrite length_map. lia.
Qed.

Lemma sub_col_length a b :
  length a = length b -> length (Cycles.sub_col a b) = length b.
Proof.
  intros H. unfold Cycles.sub_col. rewrite length_map, length_combine. lia.
Qed.

Lemma clip_lower_length lo col : length (Cycles.clip_lower lo col) = length col.
Proof. apply length_map. Qed.

Lemma add_column_proj {A T : Type} (proj : A -> T) name (f : frame A) col :
  length col = length f ->
  map (fun x => proj (fst x)) (add_column name f col)
  = map (fun x => proj (fst x)) f.
Proof.
  intros H. rewrite <- !(map_map fst proj). now rewrite add_column_fst.
Qed.

Lemma calculate_cycles_st_spec (h : heap Cycles.sample) r :
  wp (calculate_cycles_st r) h
     (fun v h' => v = Cycles.calculate_cycles (rows_at h r) /\ extends h h').
Proof.
  unfold wp, calculate_cycles_st, sort_values_st, column, setitem, getitem,
    bind, load, alloc, store, ret.
  cbn [fst snd].
  repeat (rewrite ?nth_new, ?set_nth_new).
  split; [|apply extends_app].
  remember (sort_values (fun x y => Cycles.ts_leb (fst x) (fst y)) (nth r h []))
    as F eqn:EF.
  assert (Hsoc : map (fun x => Cycles.battery_soc_pct (fst x)) F
                 = map Cycles.battery_soc_pct
                       (sort_values Cycles.ts_leb (rows_at h r))).
  { rewrite <- (map_map fst Cycles.battery_soc_pct), EF.
    now rewrite sort_values_fst. }
  assert (Hlen : length (Cycles.shift1
                           (map (fun x => Cycles.battery_soc_pct (fst x)) F))
                 = length F)
    by now rewrite shift1_length, length_map.
  rewrite (add_column_cell "prev_soc" F _ Hlen).
  rewrite (add_column_proj Cycles.battery_soc_pct "prev_soc" F _ Hlen).
  rewrite add_column_cell.
  - rewrite Hsoc. reflexivity.
  - rewrite clip_lower_length, sub_col_length;
      rewrite ?shift1_length, ?length_map, ?add_column_length; try reflexivity.
    all: exact Hlen.
Qed.

Lemma trailing_st_spec (h : heap Cycles.sample) delta r :
  wp (trailing_st delta r) h
     (fun v h' => v = length h /\
                  (exists f, h' = h ++ [f] /\
                             map fst f = Cycles.trailing delta (rows_at h r))).
Proof.
  unfold wp, trailing_st, bind, load. cbn [fst snd].
  unfold Cycles.trailing, rows_at.
  destruct (Cycles.ts_max (map fst (nth r h []))) as [m|];
    (split; [reflexivity|]); eexists; (split; [reflexivity|]).
  - apply (filter_fst (fun x => (m - delta <=? Cycles.ts x)%Z)).
  - induction (nth r h []) as [|x t IH]; [reflexivity | exact IH].
Qed.

Lemma window_cycles_st_spec (h : heap Cycles.sample) r :
  wp (window_cycles_st r) h
     (fun v h' => v = Cycles.window_cycles (rows_at h r) /\ extends h h').
Proof.
  unfold window_cycles_st, len. apply wp_bind. unfold wp at 1, bind, load, ret.
  cbn [fst snd]. unfold Cycles.window_cycles, rows_at. rewrite length_map.
  destruct (1 <? length (nth r h []))%nat.
  - apply calculate_cycles_st_spec.
  - apply wp_ret. split; [reflexivity | apply extends_refl].
Qed.

Lemma rows_at_extends {A : Type} (h h' : heap A) r :
  extends h h' -> (r < length h)%nat -> rows_at h' r = rows_at h r.
Proof. intros E Hr. unfold rows_at. now rewrite (extends_nth h h' r E Hr). Qed.

Lemma rows_at_new {A : Type} (h : heap A) f ext :
  rows_at (h ++ f :: ext) (length h) = map fst f.
Proof. unfold rows_at. now rewrite nth_new. Qed.

(** A trailing window of the frame [bdf], which already lives in
    [h0]: a new frame is selected and measured. *)
Lemma trailing_window_spec (h0 h : heap Cycles.sample) delta bdf :
  extends h0 h -> (bdf < length h0)%nat ->
  wp (dfw <- trailing_st delta bdf ;; window_cycles_st dfw) h
     (fun v h' =>
        v = Cycles.window_cycles (Cycles.trailing delta (rows_at h0 bdf)) /\
        extends h h').
Proof.
  intros E Hb. apply wp_bind.
  eapply wp_mono; [apply trailing_st_spec|]. cbv beta.
  intros v h1 [-> (f & -> & Hf)].
  eapply wp_mono; [apply window_cycles_st_spec|]. cbv beta.
  intros c h2 [-> E2]. split.
  - rewrite rows_at_new, Hf. now rewrite (rows_at_extends h0 h bdf E Hb).
  - exact (extends_trans _ _ _ (extends_app h [f]) E2).
Qed.

Lemma wp_assoc {A T U V : Type} (m : M A T) (k : T -> M A U) (k' : U -> M A V)
      (h : heap A) post :
  wp (bind (bind m k) k') h post ->
  wp (bind m (fun x => bind (k x) k')) h post.
Proof. unfold wp, bind. now destruct (m h). Qed.

Lemma battery_cycles_st_spec (h : heap Cycles.sample) r b :
  wp (battery_cycles_st r b) h
     (fun c h' => c = Cycles.battery_cycles (rows_at h r) b /\ extends h h').
Proof.
  unfold battery_cycles_st. apply wp_bind, wp_select.
  remember (filter (fun x => String.eqb (Cycles.battery_id (fst x)) b)
                   (nth r h [])) as F eqn:EF.
  assert (Hb : (length h < length (h ++ [F]))%nat)
    by (rewrite length_app; simpl; lia).
  assert (HF : rows_at (h ++ [F]) (length h)
               = Cycles.rows_of b (rows_at h r)).
  { transitivity (map fst F); [exact (rows_at_new h F []) | rewrite EF].
    apply (filter_fst (fun x => String.eqb (Cycles.battery_id x) b)). }
  apply wp_assoc, wp_bind.
  eapply wp_mono;
    [apply (trailing_window_spec (h ++ [F]) (h ++ [F]) _ (length h)
              (extends_refl _) Hb)|].
  cbv beta. intros c24 h1 [-> E1].
  apply wp_assoc, wp_bind.
  eapply wp_mono;
    [apply (trailing_window_spec (h ++ [F]) h1 _ (length h) E1 Hb)|].
  cbv beta. intros c7 h2 [-> E2].
  pose proof (extends_trans _ _ _ E1 E2) as E12.
  apply wp_assoc, wp_bind.
  eapply wp_mono;
    [apply (trailing_window_spec (h ++ [F]) h2 _ (length h) E12 Hb)|].
  cbv beta. intros c30 h3 [-> E3].
  pose proof (extends_trans _ _ _ E12 E3) as E13.
  apply wp_bind.
  eapply wp_mono; [apply calculate_cycles_st_spec|].
  cbv beta. intros total h4 [-> E4].
  apply wp_ret. split.
  - rewrite (rows_at_extends (h ++ [F]) h3 (length h) E13 Hb), HF.
    reflexivity.
  - exact (extends_trans _ _ _ (extends_app h [F])
             (extends_trans _ _ _ E13 E4)).
Qed.

Lemma Forall2_eq_map {T U : Type} (f : T -> U) l vs :
  Forall2 (fun x v => v = f x) l vs -> vs = map f l.
Proof. induction 1; simpl; congruence. Qed.

Lemma compute_all_cycles_st_spec (h : heap Cycles.sample) r :
  (r < length h)%nat ->
  wp (compute_all_cycles_st r) h
     (fun out h' => out = Cycles.compute_all_cycles (rows_at h r) /\
                    extends h h').
Proof.
  intros Hr. unfold compute_all_cycles_st. apply wp_bind.
  unfold wp at 1, column, bind, load, ret. cbn [fst snd].
  eapply wp_mono.
  - apply (wp_for_each (battery_cycles_st r)
             (fun b c _ => c = Cycles.battery_cycles (rows_at h r) b) h).
    + trivial.
    + intros b h1 E1.
      eapply wp_mono; [apply battery_cycles_st_spec|].
      cbv beta. intros c h2 [-> E2].
      split; [exact E2|]. now rewrite (rows_at_extends h h1 r E1 Hr).
    + apply extends_refl.
  - cbv beta. intros out h' [E Hall]. split; [|exact E].
    unfold Cycles.compute_all_cycles, rows_at.
    rewrite (map_map fst Cycles.battery_id).
    now apply Forall2_eq_map.
Qed.

(** *** pp.py *)

Lemma view_new (h : heap Anomaly.bucket) f ext :
  view (h ++ f :: ext) (length h) = map as_row f.
Proof. unfold view. now rewrite nth_new. Qed.

Lemma view_extends (h h' : heap Anomaly.bucket) r :
  extends h h' -> (r < length h)%nat -> view h' r = view h r.
Proof. intros E Hr. unfold view. now rewrite (extends_nth h h' r E Hr). Qed.

Lemma as_row_add_column (f : frame Anomaly.bucket) col :
  map as_row (add_column "soc_drop" f col)
  = Anomaly.assign_soc_drop (map fst f) col.
Proof.
  unfold add_column, Anomaly.assign_soc_drop. revert col.
  induction f as [|x t IH]; intros [|c col]; simpl; try reflexivity.
  now rewrite IH.
Qed.

Lemma filter_as_row (p : Anomaly.row -> bool) (f : frame Anomaly.bucket) :
  map as_row (filter (fun x => p (as_row x)) f) = filter p (map as_row f).
Proof.
  induction f as [|x t IH]; simpl; [reflexivity|].
  destruct (p (as_row x)); simpl; now rewrite IH.
Qed.

Lemma pass_result_stable D b e h h' :
  pass_result D b e h -> extends h h' -> pass_result D b e h'.
Proof.
  intros (Hg & Ha & E) Hext. pose proof (extends_length h h' Hext).
  repeat split; try lia.
  now rewrite (view_extends h h' _ Hext Hg), (view_extends h h' _ Hext Ha).
Qed.

Lemma flag_group_st_spec (h : heap Anomaly.bucket) df b :
  wp (flag_group_st df b) h
     (fun e h' => extends h h' /\ pass_result (view h df) b e h').
Proof.
  unfold flag_group_st, pass_result. apply wp_bind, wp_select.
  apply wp_bind, wp_getitem. rewrite nth_new.
  set (G := filter (fun x => String.eqb (Anomaly.battery_id (fst x)) b)
                   (nth df h [])).
  assert (HG : map as_row G
               = filter (fun r => String.eqb (Anomaly.id_of r) b) (view h df)).
  { apply (filter_as_row (fun r => String.eqb (Anomaly.id_of r) b)). }
  assert (Hcol : map (fun x => cell "soc_drop" (snd x)) G
                 = map Anomaly.soc_drop (map as_row G))
    by now rewrite map_map.
  rewrite Hcol, HG.
  set (Dg := filter (fun r => String.eqb (Anomaly.id_of r) b) (view h df)) in *.
  assert (Hlen1 : (length h < length (h ++ [G]))%nat)
    by (rewrite length_app; simpl; lia).
  destruct (length (dropna (map Anomaly.soc_drop Dg)) =? 0)%nat eqn:E0.
  - apply wp_bind. unfold wp at 1, alloc. cbn [fst snd]. apply wp_ret.
    assert (E : extends (h ++ [G]) ((h ++ [G]) ++ [[]])) by apply extends_app.
    split; [exact (extends_trans _ _ _ (extends_app h [G]) E)|].
    cbn [fst snd]. rewrite AnomalyFacts.flag_group_eq. unfold Anomaly.flagged. rewrite E0.
    repeat split.
    + rewrite !length_app. simpl. lia.
    + rewrite !length_app. simpl. lia.
    + rewrite (view_extends _ _ _ E Hlen1), view_new, HG.
      now rewrite (view_new (h ++ [G]) [] []).
  - apply wp_bind, wp_select. apply wp_ret. rewrite nth_new.
    assert (E : extends (h ++ [G])
                  ((h ++ [G]) ++
                   [filter (fun x => Anomaly.is_anomalous
                                       (Anomaly.threshold_of
                                          (dropna (map Anomaly.soc_drop Dg)))
                                       (as_row x)) G]))
      by apply extends_app.
    split; [exact (extends_trans _ _ _ (extends_app h [G]) E)|].
    cbn [fst snd]. rewrite AnomalyFacts.flag_group_eq. unfold Anomaly.flagged. rewrite E0.
    repeat split.
    + rewrite !length_app. simpl. lia.
    + rewrite !length_app. simpl. lia.
    + rewrite (view_extends _ _ _ E Hlen1), view_new, HG.
      rewrite (view_new (h ++ [G]) _ []).
      now rewrite (filter_as_row
                     (Anomaly.is_anomalous
                        (Anomaly.threshold_of
                           (dropna (map Anomaly.soc_drop Dg)))) G), HG.
Qed.

Lemma observe_passes D keys out (h : heap Anomaly.bucket) :
  Forall2 (fun b e => pass_result D b e h) keys out ->
  observe h out
  = map (fun b => Anomaly.flag_group
                    (b, filter (fun r => String.eqb (Anomaly.id_of r) b) D))
        keys.
Proof.
  induction 1 as [|b e keys out (_ & _ & E) _ IH]; [reflexivity|].
  cbn [observe map]. fold (observe h out). now rewrite E, IH.
Qed.

Lemma detect_anomalies_st_spec (h : heap Anomaly.bucket) r :
  wp (detect_anomalies_st r) h
     (fun out h' => observe h' out = Anomaly.detect_anomalies (rows_at h r) /\
                    extends h h').
Proof.
  unfold detect_anomalies_st.
  apply wp_bind, wp_sort_values_st.
  set (S := sort_values (fun x y => Anomaly.key_leb (fst x) (fst y)) (nth r h [])).
  apply wp_bind, wp_copy. rewrite nth_new.
  apply wp_bind, wp_column. rewrite nth_new.
  apply wp_bind, wp_setitem. rewrite nth_new, set_nth_new.
  apply wp_bind, wp_column. rewrite nth_new.
  set (S2 := add_column "soc_drop" S
               (Anomaly.group_diff Anomaly.nothing_seen (map (fun x => fst x) S))).
  set (H0 := (h ++ [S]) ++ [S2]).
  assert (Hdf : (length (h ++ [S]) < length H0)%nat)
    by (unfold H0; rewrite !length_app; simpl; lia).
  assert (HS : map fst S = sort_values Anomaly.key_leb (rows_at h r))
    by apply sort_values_fst.
  assert (HD : view H0 (length (h ++ [S]))
               = Anomaly.assign_soc_drop
                   (sort_values Anomaly.key_leb (rows_at h r))
                   (Anomaly.group_diff Anomaly.nothing_seen
                      (sort_values Anomaly.key_leb (rows_at h r)))).
  { unfold H0. rewrite view_new. unfold S2.
    rewrite as_row_add_column.
    change (map (fun x : Anomaly.bucket * cells => fst x) S) with (map fst S).
    now rewrite HS. }
  eapply wp_mono.
  - apply (wp_for_each (flag_group_st (length (h ++ [S])))
             (pass_result (view H0 (length (h ++ [S])))) H0
             (pass_result_stable _)).
    + intros b h1 E1.
      eapply wp_mono; [apply flag_group_st_spec|].
      cbv beta. intros e h2 [E2 HR]. split; [exact E2|].
      now rewrite (view_extends H0 h1 _ E1 Hdf) in HR.
    + apply extends_refl.
  - cbv beta. intros out h' [E Hall]. split.
    + rewrite (observe_passes _ _ _ _ Hall), HD.
      unfold Anomaly.detect_anomalies, Anomaly.groupby.
      rewrite map_map. f_equal. f_equal. f_equal.
      rewrite <- HD. unfold H0. rewrite view_new.
      now rewrite map_map.
    + unfold H0 in E.
      exact (extends_trans _ _ _ (extends_app h [S])
               (extends_trans _ _ _ (extends_app (h ++ [S]) [S2]) E)).
Qed.

(** *** Running a script twice *)

(** C8.  Run on a heap, each script returns what the pure function
    returns on the rows of its input frame, whatever else the heap
    holds; it only adds objects to the heap, so that the input frame
    and every other object that existed before are as they were; and a
    second run on the heap that the first one left returns the same
    result.  (The scripts have no effect but on the heap: the model has
    no operation for input or output.) *)
Theorem rerun_determinism
    (hc : heap Cycles.sample) (rc : ref) (ha : heap Anomaly.bucket) (ra : ref) :
  (rc < length hc)%nat -> (ra < length ha)%nat ->
  (let run1 := compute_all_cycles_st rc hc in
   let run2 := compute_all_cycles_st rc (snd run1) in
   fst run1 = Cycles.compute_all_cycles (rows_at hc rc) /\
   fst run2 = fst run1 /\
   extends hc (snd run1) /\ extends hc (snd run2)) /\
  (let run1 := detect_anomalies_st ra ha in
   let run2 := detect_anomalies_st ra (snd run1) in
   observe (snd run1) (fst run1) = Anomaly.detect_anomalies (rows_at ha ra) /\
   observe (snd run2) (fst run2) = observe (snd run1) (fst run1) /\
   extends ha (snd run1) /\ extends ha (snd run2)).
Proof.
  intros Hc Ha. split; cbv zeta.
  - destruct (compute_all_cycles_st_spec hc rc Hc) as [E1 X1].
    assert (Hc1 : (rc < length (snd (compute_all_cycles_st rc hc)))%nat)
      by (pose proof (extends_length _ _ X1); lia).
    destruct (compute_all_cycles_st_spec _ rc Hc1) as [E2 X2].
    rewrite (rows_at_extends _ _ rc X1 Hc) in E2.
    repeat split.
    + exact E1.
    + now rewrite E1, E2.
    + exact X1.
    + exact (extends_trans _ _ _ X1 X2).
  - destruct (detect_anomalies_st_spec ha ra) as [E1 X1].
    destruct (detect_anomalies_st_spec (snd (detect_anomalies_st ra ha)) ra)
      as [E2 X2].
    rewrite (rows_at_extends _ _ ra X1 Ha) in E2.
    repeat split.
    + exact E1.
    + now rewrite E1, E2.
    + exact X1.
    + exact (extends_trans _ _ _ X1 X2).
Qed.

Import StoreExamples.

Example fleet_in_store :
  fst (compute_all_cycles_st 0%nat (fresh CyclesExamples.fleet))
  = Cycles.compute_all_cycles CyclesExamples.fleet.
Proof. vm_compute. reflexivity. Qed.

Example mixed_in_store :
  let run := detect_anomalies_st 0%nat (fresh AnomalyExamples.mixed) in
  observe (snd run) (fst run) = Anomaly.detect_anomalies AnomalyExamples.mixed
  /\ nth 0%nat (snd run) [] = nth 0%nat (fresh AnomalyExamples.mixed) [].
Proof. vm_compute. split; reflexivity. Qed.

Lemma rerun_determinism_witness :
  fst (compute_all_cycles_st 0%nat
         (snd (compute_all_cycles_st 0%nat (fresh CyclesExamples.fleet))))
  = fst (compute_all_cycles_st 0%nat (fresh CyclesExamples.fleet)) /\
  extends (fresh AnomalyExamples.mixed)
          (snd (detect_anomalies_st 0%nat (fresh AnomalyExamples.mixed))).
Proof.
  assert (Hc : (0 < length (fresh CyclesExamples.fleet))%nat) by (simpl; lia).
  assert (Ha : (0 < length (fresh AnomalyExamples.mixed))%nat) by (simpl; lia).
  destruct (rerun_determinism (fresh CyclesExamples.fleet) 0%nat
              (fresh AnomalyExamples.mixed) 0%nat Hc Ha)
    as [(_ & H1 & _) (_ & _ & H2 & _)].
  split; [exact H1 | exact H2].
Defined.

End StoreFacts.

(** ** Facts about the text of the report (pp.py) *)

Module ReportFacts.
Import Report.

Lemma ascii_only_forallb s : ascii_only s <-> forallb is_ascii s = true.
Proof.
  unfold ascii_only, is_ascii. rewrite forallb_forall, Forall_forall.
  split; intros H c Hc; specialize (H c Hc); now apply N.leb_le.
Qed.

Lemma ascii_only_app a b : ascii_only a -> ascii_only b -> ascii_only (a ++ b).
Proof. intros Ha Hb. apply Forall_app. now split. Qed.

Lemma pdf_char_ascii c : ascii_only (pdf_char c).
Proof.
  unfold pdf_char, ascii_only.
  destruct ((c =? 8211) || (c =? 8212))%N; [constructor; [lia | constructor]|].
  destruct ((c =? 8220) || (c =? 8221))%N; [constructor; [lia | constructor]|].
  destruct ((c =? 8216) || (c =? 8217))%N; [constructor; [lia | constructor]|].
  destruct (is_ascii c) eqn:E; [|constructor].
  unfold is_ascii in E. apply N.leb_le in E.
  constructor; [exact E | constructor].
Qed.

Lemma pdf_char_fixes_ascii c : (c <= 127)%N -> pdf_char c = [c].
Proof.
  intros H. unfold pdf_char, is_ascii.
  repeat match goal with
         | |- context [(c =? ?k)%N] =>
             destruct (N.eqb_spec c k); [lia|]
         end.
  cbn [orb]. destruct (N.leb_spec c 127); [reflexivity | lia].
Qed.

(** The replacements and the removal of [sanitize_for_pdf], character
    by character. *)
Lemma replace_remove_chars s :
  remove_non_ascii
    (replace_char 8217 39 (replace_char 8216 39
       (replace_char 8221 34 (replace_char 8220 34
          (replace_char 8212 45 (replace_char 8211 45 s))))))
  = flat_map pdf_char s.
Proof.
  unfold remove_non_ascii, replace_char. rewrite !map_map.
  induction s as [|c t IH]; [reflexivity|].
  cbn [map filter flat_map]. rewrite IH. clear IH.
  unfold pdf_char.
  destruct (N.eqb_spec c 8211) as [->|H1]; [reflexivity|].
  destruct (N.eqb_spec c 8212) as [->|H2]; [reflexivity|].
  destruct (N.eqb_spec c 8220) as [->|H3]; [reflexivity|].
  destruct (N.eqb_spec c 8221) as [->|H4]; [reflexivity|].
  destruct (N.eqb_spec c 8216) as [->|H5]; [reflexivity|].
  destruct (N.eqb_spec c 8217) as [->|H6]; [reflexivity|].
  cbn [orb]. now destruct (is_ascii c).
Qed.

Lemma flat_map_pdf_char_ascii s : ascii_only (flat_map pdf_char s).
Proof.
  induction s as [|c t IH]; [constructor|].
  cbn [flat_map]. apply ascii_only_app; [apply pdf_char_ascii | exact IH].
Qed.

Lemma latin1_ignore_ascii s : ascii_only s -> latin1_ignore s = s.
Proof.
  intros H. unfold latin1_ignore. apply forallb_filter_id, forallb_forall.
  unfold ascii_only in H. rewrite Forall_forall in H.
  intros c Hc. specialize (H c Hc). apply N.leb_le. lia.
Qed.

Section SanitizerFacts.

Variable normalize_NFKD : str -> str.

(** No ASCII character has a decomposition, and none is a combining
    mark: normalization leaves ASCII text as it is. *)
Hypothesis NFKD_ascii : forall s, ascii_only s -> normalize_NFKD s = s.

Lemma sanitize_chars s :
  sanitize_for_pdf normalize_NFKD (Some s) = flat_map pdf_char s.
Proof.
  unfold sanitize_for_pdf. rewrite replace_remove_chars.
  rewrite NFKD_ascii by apply flat_map_pdf_char_ascii.
  apply latin1_ignore_ascii, flat_map_pdf_char_ascii.
Qed.

Lemma sanitize_ascii text : ascii_only (sanitize_for_pdf normalize_NFKD text).
Proof.
  destruct text as [s|]; [|constructor].
  rewrite sanitize_chars. apply flat_map_pdf_char_ascii.
Qed.

(** X1.  Whatever the text, [None] included, [sanitize_for_pdf]
    returns ASCII characters only. *)
Theorem sanitize_ascii_only text :
  ascii_only (sanitize_for_pdf normalize_NFKD text).
Proof. apply sanitize_ascii. Qed.

(** X2.  ASCII text passes [sanitize_for_pdf] unchanged; so a text
    that has been sanitized is not changed by a second pass. *)
Theorem sanitize_fixes_ascii :
  (forall s, ascii_only s -> sanitize_for_pdf normalize_NFKD (Some s) = s) /\
  (forall text,
      sanitize_for_pdf normalize_NFKD
        (Some (sanitize_for_pdf normalize_NFKD text))
      = sanitize_for_pdf normalize_NFKD text).
Proof.
  assert (Hfix : forall s, ascii_only s ->
                           sanitize_for_pdf normalize_NFKD (Some s) = s).
  { intros s Hs. rewrite sanitize_chars.
    induction Hs as [|c t Hc Ht IH]; [reflexivity|].
    cbn [flat_map]. now rewrite (pdf_char_fixes_ascii c Hc), IH. }
  split; [exact Hfix|].
  intros text. apply Hfix.
  destruct text as [s|]; [|constructor].
  rewrite sanitize_chars. apply flat_map_pdf_char_ascii.
Qed.

(** X3.  [sanitize_for_pdf] works character by character: every
    character is turned into what [pdf_char] says, independently of
    its neighbours, so that the text of a concatenation is the
    concatenation of the texts and no text grows. *)
Theorem sanitize_per_character :
  (forall s, sanitize_for_pdf normalize_NFKD (Some s) = flat_map pdf_char s) /\
  (forall a b,
      sanitize_for_pdf normalize_NFKD (Some (a ++ b))
      = sanitize_for_pdf normalize_NFKD (Some a)
        ++ sanitize_for_pdf normalize_NFKD (Some b)) /\
  (forall s, (length (sanitize_for_pdf normalize_NFKD (Some s)) <= length s)%nat).
Proof.
  split; [exact sanitize_chars|]. split.
  - intros a b. rewrite !sanitize_chars. apply flat_map_app.
  - intros s. rewrite sanitize_chars.
    induction s as [|c t IH]; [simpl; lia|].
    cbn [flat_map]. rewrite length_app. cbn [length].
    assert (Hc : (length (pdf_char c) <= 1)%nat).
    { unfold pdf_char.
      repeat match goal with
             | |- context [if ?b then _ else _] => destruct b
             end; simpl; lia. }
    lia.
Qed.

(** *** The summarizer *)

Lemma Qnat_nonneg n : 0 <= Qnat n.
Proof.
  unfold Qnat. change 0 with (inject_Z 0). rewrite <- Zle_Qle. lia.
Qed.

Lemma max_wait_nonneg attempt left : 0 <= max_wait attempt left.
Proof.
  revert attempt. induction left as [|l IH]; intros attempt; simpl.
  - apply Qle_refl.
  - pose proof (IH (S attempt)). pose proof (Qnat_nonneg attempt).
    assert (0 <= Qnat attempt * (3 # 2))
      by (apply Qmult_le_0_compat; [assumption | discriminate]).
    qlra.
Qed.

Lemma attempts_bounds server left attempt waited :
  (requests (attempts normalize_NFKD server attempt left waited)
   <= attempt + left)%nat /\
  waited <= slept (attempts normalize_NFKD server attempt left waited) /\
  slept (attempts normalize_NFKD server attempt left waited)
  <= waited + max_wait attempt left.
Proof.
  revert attempt waited. induction left as [|l IH]; intros attempt waited.
  - simpl. repeat split; [lia | apply Qle_refl | qlra].
  - pose proof (Qnat_nonneg attempt) as Hn.
    pose proof (max_wait_nonneg (S attempt) l) as Hm.
    assert (Hr : 0 <= Qnat attempt * (3 # 2))
      by (apply Qmult_le_0_compat; [assumption | discriminate]).
    assert (Hretry : forall w,
               waited <= w ->
               w <= waited + (1 + Qnat attempt * (3 # 2)) ->
               (requests (attempts normalize_NFKD server (S attempt) l w)
                <= attempt + S l)%nat /\
               waited <= slept (attempts normalize_NFKD server (S attempt) l w) /\
               slept (attempts normalize_NFKD server (S attempt) l w)
               <= waited + max_wait attempt (S l)).
    { intros w H1 H2. destruct (IH (S attempt) w) as (R & S1 & S2).
      cbn [max_wait]. repeat split; [lia | qlra | qlra]. }
    cbn [attempts max_wait].
    destruct (server attempt) as [|error choices].
    + apply Hretry; qlra.
    + destruct (is_rate_limit error).
      * apply Hretry; qlra.
      * destruct choices as [[out|]|]; cbn [requests slept].
        -- repeat split; [lia | apply Qle_refl | qlra].
        -- apply Hretry; qlra.
        -- repeat split; [lia | apply Qle_refl | qlra].
Qed.

(** X4.  A call of [call_groq_summary] makes at most five requests
    and sleeps at most twenty seconds in all, whatever the server
    answers. *)
Theorem summary_bounds has_key server :
  (requests (call_groq_summary normalize_NFKD has_key server) <= 5)%nat /\
  0 <= slept (call_groq_summary normalize_NFKD has_key server) /\
  slept (call_groq_summary normalize_NFKD has_key server) <= 20.
Proof.
  unfold call_groq_summary. destruct has_key; cbn [negb].
  - destruct (attempts_bounds server 5 0 0) as (R & S1 & S2).
    repeat split; [exact R | exact S1|].
    eapply Qle_trans; [exact S2|]. vm_compute. discriminate.
  - cbn [requests slept]. repeat split; [lia | apply Qle_refl | discriminate].
Qed.

Lemma attempts_ascii server left attempt waited :
  ascii_only (result (attempts normalize_NFKD server attempt left waited)).
Proof.
  assert (Hu : ascii_only unavailable).
  { apply ascii_only_forallb. vm_compute. reflexivity. }
  revert attempt waited. induction left as [|l IH]; intros attempt waited.
  - exact Hu.
  - cbn [attempts]. destruct (server attempt) as [|error choices]; [apply IH|].
    destruct (is_rate_limit error); [apply IH|].
    destruct choices as [[out|]|]; cbn [result].
    + apply sanitize_ascii.
    + apply IH.
    + exact Hu.
Qed.

(** X5.  The value of [call_groq_summary] is ASCII text exactly when
    the API key is set: with the key it is a sanitized summary or the
    fixed notice; without it no request is made and the notice
    returned holds a dash that is not ASCII. *)
Theorem summary_ascii_iff_key has_key server :
  forallb is_ascii (result (call_groq_summary normalize_NFKD has_key server))
  = has_key /\
  (has_key = false ->
   call_groq_summary normalize_NFKD has_key server = mkCall missing_key 0 0).
Proof.
  unfold call_groq_summary. destruct has_key; cbn [negb].
  - split; [|discriminate].
    apply ascii_only_forallb, attempts_ascii.
  - split; [vm_compute; reflexivity | reflexivity].
Qed.

(** The passes that only lead to the next pass. *)
Lemma attempts_skip server k :
  forall attempt left waited,
    (forall i, (attempt <= i < attempt + k)%nat -> retryable (server i) = true) ->
    (k <= left)%nat ->
    exists waited',
      attempts normalize_NFKD server attempt left waited
      = attempts normalize_NFKD server (attempt + k) (left - k) waited'.
Proof.
  induction k as [|k IH]; intros attempt left waited Hretry Hk.
  - exists waited. now rewrite Nat.add_0_r, Nat.sub_0_r.
  - destruct left as [|l]; [lia|].
    assert (H0 : retryable (server attempt) = true) by (apply Hretry; lia).
    assert (Hnext : forall w,
               exists waited',
                 attempts normalize_NFKD server (S attempt) l w
                 = attempts normalize_NFKD server (attempt + S k) (S l - S k)
                            waited').
    { intros w. destruct (IH (S attempt) l w) as [w' E].
      - intros i Hi. apply Hretry. lia.
      - lia.
      - exists w'. rewrite E. f_equal; lia. }
    cbn [attempts]. destruct (server attempt) as [|error choices];
      [apply Hnext|].
    cbn [retryable] in H0.
    destruct (is_rate_limit error); [apply Hnext|].
    destruct choices as [[out|]|]; try discriminate. apply Hnext.
Qed.

(** X6.  The first answer, among those to the five requests, that is
    neither an exception, nor a rate limit, nor unreadable choices
    decides the call: the sanitized content of the first choice,
    without [<think>] blocks and surrounding white space, when the
    answer has choices, and the notice of unavailability when it has
    none; no request follows it. *)
Theorem summary_first_decisive_answer server k :
  (forall i, (i < k)%nat -> retryable (server i) = true) ->
  (k < 5)%nat ->
  retryable (server k) = false ->
  requests (call_groq_summary normalize_NFKD true server) = S k /\
  result (call_groq_summary normalize_NFKD true server)
  = match server k with
    | Json _ (Some (Some out)) =>
        sanitize_for_pdf normalize_NFKD (Some (strip (remove_think out)))
    | _ => unavailable
    end.
Proof.
  intros Hretry Hk Hdec. unfold call_groq_summary. cbn [negb].
  destruct (attempts_skip server k 0 5 0) as [w E].
  - intros i Hi. apply Hretry. lia.
  - lia.
  - rewrite E. cbn [Nat.add].
    destruct (5 - k)%nat as [|l] eqn:El; [lia|].
    cbn [attempts]. destruct (server k) as [|error choices];
      [discriminate|].
    cbn [retryable] in Hdec. apply orb_false_iff in Hdec as [Hrl Hch].
    rewrite Hrl.
    destruct choices as [[out|]|]; try discriminate; now split.
Qed.

(** X7.  When each of the five requests ends in an exception, a rate
    limit or unreadable choices, the call gives up: five requests, the
    notice of unavailability. *)
Theorem summary_gives_up server :
  (forall i, (i < 5)%nat -> retryable (server i) = true) ->
  requests (call_groq_summary normalize_NFKD true server) = 5%nat /\
  result (call_groq_summary normalize_NFKD true server) = unavailable.
Proof.
  intros Hretry. unfold call_groq_summary. cbn [negb].
  destruct (attempts_skip server 5 0 5 0) as [w E].
  - intros i Hi. apply Hretry. lia.
  - lia.
  - rewrite E. now split.
Qed.

End SanitizerFacts.

(** *** The first ten lines *)

Lemma split_lines_cons s : exists l ls, split_lines s = l :: ls.
Proof.
  induction s as [|c r (l & ls & E)]; simpl; [now eexists; eexists|].
  destruct (c =? 10)%N; [now eexists; eexists|].
  rewrite E. now eexists; eexists.
Qed.

Lemma split_lines_length s : length (split_lines s) = S (newlines s).
Proof.
  unfold newlines. induction s as [|c r IH]; [reflexivity|].
  cbn [split_lines count_occ].
  destruct (N.eqb_spec c 10) as [->|Hne].
  - destruct (N.eq_dec 10 10); [|congruence]. simpl. now rewrite IH.
  - destruct (N.eq_dec c 10); [congruence|].
    destruct (split_lines_cons r) as (l & ls & E).
    rewrite E in *. exact IH.
Qed.

Lemma split_lines_no_newline s :
  Forall (fun l => newlines l = 0%nat) (split_lines s).
Proof.
  unfold newlines. induction s as [|c r IH]; [repeat constructor|].
  cbn [split_lines].
  destruct (N.eqb_spec c 10) as [->|Hne]; [now constructor|].
  destruct (split_lines_cons r) as (l & ls & E). rewrite E in *.
  inversion IH as [|? ? Hl Hls]; subst. constructor; [|exact Hls].
  cbn [count_occ]. destruct (N.eq_dec c 10); [congruence | exact Hl].
Qed.

(** Splitting at the line breaks and joining again gives the string
    back. *)
Lemma join_split_lines s : join_lines (split_lines s) = s.
Proof.
  induction s as [|c r IH]; [reflexivity|].
  cbn [split_lines].
  destruct (split_lines_cons r) as (l & ls & E). rewrite E in *.
  destruct (N.eqb_spec c 10) as [->|Hne].
  - change (join_lines ([] :: l :: ls)) with (10%N :: join_lines (l :: ls)).
    now rewrite IH.
  - destruct ls as [|l' ls].
    + cbn [join_lines] in *. now rewrite IH.
    + change (join_lines ((c :: l) :: l' :: ls))
        with (c :: join_lines (l :: l' :: ls)).
      now rewrite IH.
Qed.

Lemma newlines_app a b : newlines (a ++ b) = (newlines a + newlines b)%nat.
Proof. apply count_occ_app. Qed.

Lemma join_lines_newlines ls :
  Forall (fun l => newlines l = 0%nat) ls ->
  newlines (join_lines ls) = (length ls - 1)%nat.
Proof.
  induction 1 as [|l ls Hl Hls IH]; [reflexivity|].
  destruct ls as [|l' ls].
  - cbn [join_lines length]. rewrite Hl. reflexivity.
  - change (join_lines (l :: l' :: ls))
      with (l ++ 10%N :: join_lines (l' :: ls)).
    rewrite newlines_app, Hl.
    change (newlines (10%N :: join_lines (l' :: ls)))
      with (S (newlines (join_lines (l' :: ls)))).
    rewrite IH. cbn [length]. lia.
Qed.

Lemma join_lines_firstn n ls :
  exists rest, join_lines ls = join_lines (firstn n ls) ++ rest.
Proof.
  revert n. induction ls as [|l ls IH]; intros n.
  - exists []. now rewrite firstn_nil.
  - destruct n as [|n]; [now exists (join_lines (l :: ls))|].
    cbn [firstn]. destruct (IH n) as [rest E].
    destruct ls as [|l' ls].
    + exists []. rewrite firstn_nil. now rewrite app_nil_r.
    + destruct n as [|n].
      * exists (10%N :: join_lines (l' :: ls)). reflexivity.
      * cbn [firstn] in *. exists rest.
        change (join_lines (l :: l' :: ls))
          with (l ++ 10%N :: join_lines (l' :: ls)).
        change (join_lines (l :: l' :: firstn n ls))
          with (l ++ 10%N :: join_lines (l' :: firstn n ls)).
        rewrite E. now rewrite <- app_assoc.
Qed.

(** X8.  The text sent for summarizing is the text up to the end of
    its tenth line: a prefix of the text with at most nine line
    breaks, and the whole text when it has no more than ten lines. *)
Theorem reduce_lines_first_ten text :
  (exists rest, text = reduce_lines text ++ rest) /\
  (newlines (reduce_lines text) <= 9)%nat /\
  ((newlines text <= 9)%nat -> reduce_lines text = text).
Proof.
  unfold reduce_lines.
  pose proof (split_lines_length text) as Hlen.
  pose proof (split_lines_no_newline text) as Hno.
  destruct (10 <? length (split_lines text))%nat eqn:E.
  - apply Nat.ltb_lt in E. repeat split.
    + destruct (join_lines_firstn 10 (split_lines text)) as [rest Er].
      exists rest. now rewrite <- Er, join_split_lines.
    + rewrite join_lines_newlines.
      * rewrite length_firstn. lia.
      * apply Forall_forall. intros l Hl.
        rewrite Forall_forall in Hno. apply Hno.
        rewrite <- (firstn_skipn 10 (split_lines text)).
        apply in_or_app. now left.
    + intros H. lia.
  - apply Nat.ltb_ge in E. rewrite join_split_lines. repeat split.
    + exists []. now rewrite app_nil_r.
    + lia.
Qed.

(** *** The reasoning blocks *)

Lemma find_none_cons p c r :
  find p (c :: r) = None -> starts_with p (c :: r) = false /\ find p r = None.
Proof.
  cbn [find]. destruct (starts_with p (c :: r)); [discriminate|].
  destruct (find p r); [discriminate | now split].
Qed.

Lemma sub_think_length skip s : (length (sub_think skip s) <= length s)%nat.
Proof.
  revert skip. induction s as [|c r IH]; intros skip; [simpl; lia|].
  cbn [sub_think]. destruct skip as [|k].
  - destruct (think_match (c :: r)) as [n|].
    + specialize (IH (n - 1)%nat). cbn [length]. lia.
    + specialize (IH O). cbn [length]. lia.
  - specialize (IH k). cbn [length]. lia.
Qed.

(** X9.  Removing the reasoning blocks never makes the answer longer,
    and an answer without the opening tag [<think>] is returned as it
    is. *)
Theorem remove_think_without_tag s :
  (length (remove_think s) <= length s)%nat /\
  (find open_tag s = None -> remove_think s = s).
Proof.
  split; [apply sub_think_length|].
  unfold remove_think. induction s as [|c r IH]; [reflexivity|].
  intros H. apply find_none_cons in H as [Hs Hr].
  cbn [sub_think]. unfold think_match. rewrite Hs. now rewrite IH.
Qed.

Lemma starts_with_app p s : starts_with p (p ++ s) = true.
Proof.
  induction p as [|x p IH]; [reflexivity|].
  cbn [app starts_with]. now rewrite N.eqb_refl, IH.
Qed.

Lemma sub_think_skip a b : sub_think (length a) (a ++ b) = sub_think O b.
Proof.
  induction a as [|x a IH]; [reflexivity|].
  cbn [length app]. destruct b as [|y b]; cbn [sub_think]; exact IH.
Qed.

(** X10.  A reasoning block at the head of the answer, from [<think>]
    to the first [</think>] after it, is removed whole, and the
    removal goes on behind it. *)
Theorem remove_think_block body rest :
  find close_tag (body ++ close_tag ++ rest) = Some (length body) ->
  remove_think (open_tag ++ body ++ close_tag ++ rest) = remove_think rest.
Proof.
  intros Hfind. unfold remove_think.
  assert (Hm : think_match (open_tag ++ body ++ close_tag ++ rest)
               = Some (length open_tag + length body + length close_tag)%nat).
  { unfold think_match. rewrite starts_with_app.
    rewrite skipn_app, Nat.sub_diag, skipn_all. cbn [skipn app].
    now rewrite Hfind. }
  change (open_tag ++ body ++ close_tag ++ rest)
    with (60%N :: (tl open_tag ++ body ++ close_tag ++ rest)) in *.
  cbn [sub_think]. rewrite Hm.
  replace (tl open_tag ++ body ++ close_tag ++ rest)
    with ((tl open_tag ++ body ++ close_tag) ++ rest)
    by now rewrite <- !app_assoc.
  replace (length open_tag + length body + length close_tag - 1)%nat
    with (length (tl open_tag ++ body ++ close_tag)).
  - apply sub_think_skip.
  - rewrite !length_app. simpl. lia.
Qed.

(** *** main *)

Lemma filter_split_perm {A : Type} (p : A -> bool) (l : list A) :
  Permutation (filter (fun a => negb (p a)) l ++ filter p l) l.
Proof.
  induction l as [|x t IH]; [constructor|].
  cbn [filter]. destruct (p x); cbn [negb].
  - symmetry. apply Permutation_cons_app. now symmetry.
  - cbn [app]. now constructor.
Qed.

Lemma no_anomaly_nil (a : entry) : no_anomaly a = true <-> snd a = [].
Proof.
  unfold no_anomaly. rewrite Nat.eqb_eq. apply length_zero_iff_nil.
Qed.

(** X11.  The order of the pages: the entries of [detect_anomalies]
    rearranged so that every battery with anomalies comes before every
    battery without; no entry is lost or repeated, and within each of
    the two parts the entries keep their order. *)
Theorem anomalies_sorted_partition (anomalies : list entry) :
  Permutation (anomalies_sorted anomalies) anomalies /\
  exists marked clean,
    anomalies_sorted anomalies = marked ++ clean /\
    Forall (fun a => snd a <> []) marked /\
    Forall (fun a => snd a = []) clean /\
    Anomaly.subseq marked anomalies /\ Anomaly.subseq clean anomalies.
Proof.
  split; [apply filter_split_perm|].
  exists (filter (fun a => negb (no_anomaly a)) anomalies),
         (filter no_anomaly anomalies).
  repeat split.
  - apply Forall_forall. intros a Ha. apply filter_In in Ha as [_ Ha].
    rewrite negb_true_iff in Ha. intros E. apply no_anomaly_nil in E. congruence.
  - apply Forall_forall. intros a Ha. apply filter_In in Ha as [_ Ha].
    now apply no_anomaly_nil.
  - apply AnomalyFacts.subseq_filter.
  - apply AnomalyFacts.subseq_filter.
Qed.

Lemma raw_row_defined df_raw b :
  raw_row df_raw b <> None <-> In b (map fl_battery_id df_raw).
Proof.
  unfold raw_row. split.
  - destruct (filter (fun r => String.eqb (fl_battery_id r) b) df_raw)
      as [|r t] eqn:E; [intros H; now elim H|].
    intros _. assert (Hr : In r (r :: t)) by now left.
    rewrite <- E in Hr. apply filter_In in Hr as [Hr Hb].
    apply String.eqb_eq in Hb. subst b. now apply in_map.
  - intros H. apply in_map_iff in H as (r & <- & Hr).
    assert (Hin : In r (filter (fun r' => String.eqb (fl_battery_id r')
                                                     (fl_battery_id r)) df_raw)).
    { apply filter_In. split; [exact Hr | apply String.eqb_refl]. }
    destruct (filter _ df_raw); [destruct Hin | discriminate].
Qed.

Lemma raw_row_id df_raw b row : raw_row df_raw b = Some row -> fl_battery_id row = b.
Proof.
  unfold raw_row.
  destruct (filter (fun r => String.eqb (fl_battery_id r) b) df_raw)
    as [|r t] eqn:E; [discriminate|].
  intros [= <-]. assert (Hr : In r (r :: t)) by now left.
  rewrite <- E in Hr. apply filter_In in Hr as [_ Hb].
  now apply String.eqb_eq.
Qed.

Lemma page_rows_defined df_raw pages :
  page_rows df_raw pages <> None <->
  forall a, In a pages -> In (fst (fst a)) (map fl_battery_id df_raw).
Proof.
  induction pages as [|a rest IH]; cbn [page_rows].
  - split; [intros _ a [] | discriminate].
  - destruct (raw_row df_raw (fst (fst a))) as [row|] eqn:E.
    + assert (Ha : In (fst (fst a)) (map fl_battery_id df_raw))
        by (apply raw_row_defined; congruence).
      destruct (page_rows df_raw rest) as [rows|].
      * split; [|discriminate]. intros _ x [<-|Hx]; [exact Ha|].
        apply IH; [discriminate | exact Hx].
      * split; [intros H; now elim H|].
        intros H. exfalso. apply (proj2 IH); [|reflexivity].
        intros x Hx. apply H. now right.
    + split; [intros H; now elim H|].
      intros H. exfalso.
      apply (proj2 (raw_row_defined df_raw (fst (fst a)))); [|exact E].
      apply H. now left.
Qed.

Lemma page_rows_ids df_raw pages rows :
  page_rows df_raw pages = Some rows ->
  map fl_battery_id rows = map (fun a => fst (fst a)) pages.
Proof.
  revert rows. induction pages as [|a rest IH]; intros rows; cbn [page_rows].
  - now intros [= <-].
  - destruct (raw_row df_raw (fst (fst a))) as [row|] eqn:E; [|discriminate].
    destruct (page_rows df_raw rest) as [rows'|]; [|discriminate].
    intros [= <-]. cbn [map]. now rewrite (raw_row_id _ _ _ E), (IH rows').
Qed.

(** X12.  The loop over the pages of [main] gets through exactly when
    every battery of the 2-hour data has a row in the first/last data;
    otherwise a lookup raises and no report is written.  When it gets
    through it has looked up one row per page, for the battery of that
    page. *)
Theorem main_pages_defined df_2h df_raw :
  (main_pages df_2h df_raw <> None <->
   forall b, In b (map Anomaly.battery_id df_2h) ->
             In b (map fl_battery_id df_raw)) /\
  (forall rows,
      main_pages df_2h df_raw = Some rows ->
      map fl_battery_id rows
      = map (fun a => fst (fst a))
            (anomalies_sorted (Anomaly.detect_anomalies df_2h))).
Proof.
  split; [|intros rows; apply page_rows_ids].
  unfold main_pages. rewrite page_rows_defined.
  assert (Hkeys : forall b,
             In b (map Anomaly.battery_id df_2h) <->
             exists a, In a (anomalies_sorted (Anomaly.detect_anomalies df_2h)) /\
                       fst (fst a) = b).
  { intros b.
    assert (Hk : In b (map (fun e : entry => fst (fst e))
                           (Anomaly.detect_anomalies df_2h))
                 <-> In b (map Anomaly.battery_id df_2h)).
    { rewrite AnomalyFacts.detect_anomalies_keys.
      rewrite sort_values_In, unique_In.
      split; apply Permutation_in; [|symmetry];
        apply Permutation_map, sort_values_perm. }
    rewrite <- Hk, in_map_iff. split.
    - intros (a & Ea & Ha). exists a. split; [|exact Ea].
      eapply Permutation_in; [symmetry; apply filter_split_perm | exact Ha].
    - intros (a & Ha & Ea). exists a. split; [exact Ea|].
      eapply Permutation_in; [apply filter_split_perm | exact Ha]. }
  split.
  - intros H b Hb. apply Hkeys in Hb as (a & Ha & <-). now apply H.
  - intros H a Ha. apply H, Hkeys. now exists a.
Qed.

(** *** The theorems at work *)

Import ReportExamples.

Lemma keep_ascii : forall s, ascii_only s -> keep s = s.
Proof. reflexivity. Qed.

Example sanitize_fancy :
  sanitize_for_pdf keep (Some fancy) = [97; 45; 34; 98]%N.
Proof. reflexivity. Qed.

Lemma sanitize_ascii_only_witness :
  ascii_only (sanitize_for_pdf keep (Some fancy)).
Proof. exact (sanitize_ascii_only keep keep_ascii (Some fancy)). Defined.

Lemma sanitize_fixes_ascii_witness :
  sanitize_for_pdf keep (Some (codes "SOC 40%")) = codes "SOC 40%".
Proof.
  destruct (sanitize_fixes_ascii keep keep_ascii) as [H _].
  apply H. apply ascii_only_forallb. reflexivity.
Defined.

Lemma sanitize_per_character_witness :
  sanitize_for_pdf keep (Some fancy) = flat_map pdf_char fancy.
Proof.
  destruct (sanitize_per_character keep keep_ascii) as [H _]. apply H.
Defined.

Lemma summary_ascii_iff_key_witness :
  forallb is_ascii (result (call_groq_summary keep true third_time_lucky))
  = true.
Proof.
  destruct (summary_ascii_iff_key keep keep_ascii true third_time_lucky)
    as [H _].
  exact H.
Defined.

Lemma third_time_lucky_retries :
  forall i, (i < 2)%nat -> retryable (third_time_lucky i) = true.
Proof. intros [|[|i]] H; [reflexivity | reflexivity | lia]. Qed.

Lemma summary_first_decisive_answer_witness :
  requests (call_groq_summary keep true third_time_lucky) = 3%nat /\
  result (call_groq_summary keep true third_time_lucky)
  = sanitize_for_pdf keep
      (Some (strip (remove_think (codes " <think>hm</think>ok ")))).
Proof.
  apply (summary_first_decisive_answer keep third_time_lucky 2).
  - exact third_time_lucky_retries.
  - lia.
  - reflexivity.
Defined.

Lemma summary_gives_up_witness :
  requests (call_groq_summary keep true always_down) = 5%nat /\
  result (call_groq_summary keep true always_down) = unavailable.
Proof.
  apply (summary_gives_up keep always_down). intros i _. reflexivity.
Defined.

Lemma remove_think_block_witness :
  remove_think (open_tag ++ codes "hm" ++ close_tag ++ codes "ok")
  = remove_think (codes "ok").
Proof.
  apply (remove_think_block (codes "hm") (codes "ok")). reflexivity.
Defined.

End ReportFacts.

(** ** More facts about cycles.py *)

Module CyclesMore.
Import Cycles CyclesFacts Transform.

(** *** Moving the timestamps *)

Lemma insert_row_map {A B : Type} (leb : A -> A -> bool) (leb' : B -> B -> bool)
      (f : A -> B) x l :
  (forall a b, leb' (f a) (f b) = leb a b) ->
  insert_row leb' (f x) (map f l) = map f (insert_row leb x l).
Proof.
  intros H. induction l as [|y t IH]; [reflexivity|].
  cbn [map insert_row]. rewrite H.
  destruct (leb x y); cbn [map]; [reflexivity | now rewrite IH].
Qed.

Lemma sort_values_map {A B : Type} (leb : A -> A -> bool) (leb' : B -> B -> bool)
      (f : A -> B) l :
  (forall a b, leb' (f a) (f b) = leb a b) ->
  sort_values leb' (map f l) = map f (sort_values leb l).
Proof.
  intros H. induction l as [|x t IH]; [reflexivity|].
  cbn [map sort_values fold_right]. fold (sort_values leb' (map f t)).
  fold (sort_values leb t). rewrite IH. now apply insert_row_map.
Qed.

Lemma filter_map_commute {A B : Type} (f : A -> B) (p : B -> bool) l :
  filter p (map f l) = map f (filter (fun x => p (f x)) l).
Proof.
  induction l as [|x t IH]; [reflexivity|].
  cbn [map filter]. destruct (p (f x)); cbn [map]; now rewrite IH.
Qed.

Lemma fold_left_max_shift c l a :
  fold_left Z.max (map (fun t => (t + c)%Z) l) (a + c)%Z
  = (fold_left Z.max l a + c)%Z.
Proof.
  revert a. induction l as [|x t IH]; intros a; [reflexivity|].
  cbn [map fold_left]. rewrite <- IH. f_equal. lia.
Qed.

Lemma ts_max_shift c l :
  ts_max (map (shift_ts c) l) = option_map (fun m => (m + c)%Z) (ts_max l).
Proof.
  destruct l as [|r t]; [reflexivity|].
  cbn [map ts_max option_map]. f_equal.
  rewrite map_map. cbn [shift_ts ts].
  rewrite <- (map_map ts (fun t => (t + c)%Z)).
  apply fold_left_max_shift.
Qed.

Lemma calculate_cycles_shift c l :
  calculate_cycles (map (shift_ts c) l) = calculate_cycles l.
Proof.
  unfold calculate_cycles.
  rewrite (sort_values_map ts_leb ts_leb (shift_ts c)).
  - now rewrite map_map.
  - intros a b. unfold ts_leb, shift_ts. cbn [ts].
    destruct (Z.leb_spec (ts a) (ts b)); destruct (Z.leb_spec (ts a + c) (ts b + c));
      (reflexivity || lia).
Qed.

Lemma window_cycles_shift c l :
  window_cycles (map (shift_ts c) l) = window_cycles l.
Proof.
  unfold window_cycles. now rewrite length_map, calculate_cycles_shift.
Qed.

Lemma trailing_shift c d l :
  trailing d (map (shift_ts c) l) = map (shift_ts c) (trailing d l).
Proof.
  unfold trailing. rewrite ts_max_shift.
  destruct (ts_max l) as [m|]; [|reflexivity].
  cbn [option_map]. rewrite filter_map_commute. f_equal.
  apply filter_ext. intros r. unfold shift_ts. cbn [ts].
  destruct (Z.leb_spec (m + c - d) (ts r + c)); destruct (Z.leb_spec (m - d) (ts r));
    (reflexivity || lia).
Qed.

Lemma rows_of_shift c b df :
  rows_of b (map (shift_ts c) df) = map (shift_ts c) (rows_of b df).
Proof. unfold rows_of. now rewrite filter_map_commute. Qed.

(** X14.  The windows hang on the latest sample of the battery, not
    on the clock: as long as the timestamps stay where pandas can
    step back 30 days from them, moving every timestamp of the input
    by the same amount changes nothing in the result of
    [compute_all_cycles]. *)
Theorem compute_all_cycles_time_shift c df :
  (forall r, In r df -> steps_back (ts r) /\ steps_back (ts r + c)) ->
  compute_all_cycles (map (shift_ts c) df) = compute_all_cycles df.
Proof.
  intros _.
  unfold compute_all_cycles. rewrite map_map.
  change (map (fun x => battery_id (shift_ts c x)) df) with (map battery_id df).
  apply map_ext. intros b. unfold battery_cycles.
  rewrite rows_of_shift, !trailing_shift, !window_cycles_shift.
  now rewrite calculate_cycles_shift.
Qed.

(** *** A short history *)

Lemma trailing_all delta bdf m :
  is_latest m bdf ->
  (forall r, In r bdf -> (m - delta <= ts r)%Z) ->
  trailing delta bdf = bdf.
Proof.
  intros Hm Hall. rewrite (trailing_filter bdf m delta Hm).
  apply forallb_filter_id, forallb_forall.
  intros r Hr. specialize (Hall r Hr). lia.
Qed.

Lemma window_cycles_whole l : window_cycles l == calculate_cycles l.
Proof. now rewrite window_cycles_sum, calculate_cycles_sum. Qed.

(** X18.  When all the samples of a battery lie within 24 hours of
    its latest one, its four counts are the same number. *)
Theorem short_history_counts_agree df c m :
  In c (compute_all_cycles df) ->
  is_latest m (rows_of (cc_battery_id c) df) ->
  (forall r, In r (rows_of (cc_battery_id c) df) ->
             (m - Timedelta_hours 24 <= ts r)%Z) ->
  cycles_last_24h c = total_cycles c /\
  cycles_last_7d c = total_cycles c /\
  cycles_last_30d c = total_cycles c.
Proof.
  intros Hc Hm Hall. apply in_compute_all_cycles in Hc as [Hc _].
  remember (cc_battery_id c) as b eqn:Eb. clear Eb. subst c.
  cbn [battery_cycles cycles_last_24h cycles_last_7d cycles_last_30d
       total_cycles].
  rewrite !(trailing_all _ _ m Hm).
  - repeat split; apply py_round_proper, window_cycles_whole.
  - intros r Hr. specialize (Hall r Hr).
    unfold Timedelta_days, Timedelta_hours in *. lia.
  - intros r Hr. specialize (Hall r Hr).
    unfold Timedelta_days, Timedelta_hours in *. lia.
  - exact Hall.
Qed.

(** X19.  The result of [compute_all_cycles] has one row per battery
    of the input, no battery twice, in the order in which the
    batteries first appear in the input. *)
Theorem compute_all_cycles_rows df :
  map cc_battery_id (compute_all_cycles df) = unique (map battery_id df) /\
  NoDup (map cc_battery_id (compute_all_cycles df)) /\
  (forall b, In b (map cc_battery_id (compute_all_cycles df))
             <-> In b (map battery_id df)).
Proof.
  rewrite compute_all_cycles_ids. repeat split.
  - apply unique_NoDup.
  - apply unique_In.
  - apply unique_In.
Qed.

(** *** The theorems at work *)

Import CyclesExamples.
Local Open Scope string_scope.

Lemma compute_all_cycles_time_shift_witness :
  compute_all_cycles (map (shift_ts hour) full_discharge)
  = compute_all_cycles full_discharge.
Proof.
  apply (compute_all_cycles_time_shift hour full_discharge).
  intros r Hr. cbn [In full_discharge] in Hr.
  repeat (destruct Hr as [<-|Hr];
          [unfold steps_back, Timestamp_min, Timestamp_max, Timedelta_days,
             Timedelta_hours, hour; cbn [ts]; lia|]).
  destruct Hr.
Defined.

Lemma short_history_counts_agree_witness :
  cycles_last_24h (battery_cycles full_discharge "D")
  = total_cycles (battery_cycles full_discharge "D") /\
  cycles_last_7d (battery_cycles full_discharge "D")
  = total_cycles (battery_cycles full_discharge "D") /\
  cycles_last_30d (battery_cycles full_discharge "D")
  = total_cycles (battery_cycles full_discharge "D").
Proof.
  apply (short_history_counts_agree full_discharge
           (battery_cycles full_discharge "D") (2 * hour)).
  - vm_compute. left. reflexivity.
  - split.
    + vm_compute. left. reflexivity.
    + intros r Hr. vm_compute in Hr.
      repeat (destruct Hr as [<-|Hr]; [vm_compute; discriminate|]).
      destruct Hr.
  - intros r Hr. vm_compute in Hr.
    repeat (destruct Hr as [<-|Hr]; [vm_compute; discriminate|]).
    destruct Hr.
Defined.

End CyclesMore.

(** ** More facts about detect_anomalies *)

Module AnomalyMore.
Import Anomaly AnomalyFacts.

Lemma defined_drop_in g r d :
  In r g -> soc_drop r = Some d -> In d (dropna (map soc_drop g)).
Proof.
  induction g as [|x t IH]; [intros []|].
  intros [->|Hr] Hd; cbn [map dropna].
  - rewrite Hd. now left.
  - destruct (soc_drop x); [right|]; now apply IH.
Qed.

Lemma defined_drop_nonempty g r d :
  In r g -> soc_drop r = Some d -> dropna (map soc_drop g) <> [].
Proof.
  intros Hr Hd E. pose proof (defined_drop_in g r d Hr Hd) as H.
  rewrite E in H. destruct H.
Qed.

Lemma in_flagged_inv g r :
  In r (flagged g) ->
  In r g /\ is_anomalous (threshold_of (dropna (map soc_drop g))) r = true.
Proof.
  unfold flagged.
  destruct (length (dropna (map soc_drop g)) =? 0)%nat; [intros []|].
  apply filter_In.
Qed.

(** X20.  The hard threshold does not depend on the statistics: a
    bucket whose [soc_drop] is below -15 is in the anomaly subset of
    its battery, whatever the other buckets are. *)
Theorem hard_threshold_always_flags df b g a r d :
  In (b, g, a) (detect_anomalies df) ->
  In r g -> soc_drop r = Some d -> d < -15 ->
  In r a.
Proof.
  intros He Hr Hd Hlt.
  apply detect_anomalies_entry in He as (_ & _ & ->).
  apply in_flagged; [exact (defined_drop_nonempty g r d Hr Hd)|].
  split; [exact Hr|].
  unfold is_anomalous. rewrite Hd. cbn [lt_const].
  apply orb_true_iff. left. now apply Qltb_lt.
Qed.

Lemma lt_threshold_real drops d :
  lt_threshold (Some d) (threshold_of drops) = true ->
  exists t, threshold_of drops = Some t /\ 0 <= radicand t /\
            (Q2R d < surd_R t)%R /\ (surd_R t <= Q2R (mean drops))%R.
Proof.
  intros H.
  destruct (le_lt_dec 2 (length drops)) as [Hlen|Hlen].
  - destruct (threshold_value drops Hlen) as (t & Ht & Hv & HR).
    exists t. rewrite Ht in H. cbn [lt_threshold] in H.
    repeat split; [exact Ht | exact Hv | now apply Qlt_surd_spec |].
    rewrite HR.
    pose proof (sqrt_pos (Q2R (sample_variance drops))). rlra.
  - unfold threshold_of, std in H.
    destruct (length drops <=? 1)%nat eqn:E; [discriminate|].
    apply Nat.leb_gt in E. lia.
Qed.

(** X21.  Every bucket of an anomaly subset has a defined [soc_drop],
    and this drop is below -15 or below the mean drop of the battery;
    the first bucket of a battery is never an anomaly. *)
Theorem anomalies_are_low_drops df b g a :
  In (b, g, a) (detect_anomalies df) ->
  (forall r, In r a ->
             In r g /\
             exists d, soc_drop r = Some d /\
                       (d < -15 \/ d < mean (dropna (map soc_drop g)))) /\
  (forall r, nth_error g 0 = Some r -> ~ In r a).
Proof.
  intros He.
  assert (Hfirst : forall r, nth_error g 0 = Some r -> soc_drop r = None).
  { pose proof (detect_anomalies_entry df b g a He) as (_ & Hg & _).
    intros r Hr. rewrite Hg in Hr. now apply assign_first in Hr. }
  apply detect_anomalies_entry in He as (_ & _ & ->).
  assert (Hlow : forall r, In r (flagged g) ->
            In r g /\
            exists d, soc_drop r = Some d /\
                      (d < -15 \/ d < mean (dropna (map soc_drop g)))).
  { intros r Hr. apply in_flagged_inv in Hr as [Hr Ha]. split; [exact Hr|].
    unfold is_anomalous in Ha.
    destruct (soc_drop r) as [d|]; [|discriminate].
    exists d. split; [reflexivity|].
    apply orb_true_iff in Ha as [Ha|Ha].
    - left. now apply Qltb_lt.
    - right. apply lt_threshold_real in Ha as (t & _ & _ & H1 & H2).
      apply Rlt_Qlt. rlra. }
  split; [exact Hlow|].
  intros r Hr Hin. destruct (Hlow r Hin) as (_ & d & Hd & _).
  rewrite (Hfirst r Hr) in Hd. discriminate.
Qed.

(** X22.  Within a battery the anomalies are the lowest drops: when a
    bucket is an anomaly, every bucket of the battery whose [soc_drop]
    is not above its own is an anomaly too. *)
Theorem anomalies_downward_closed df b g a r r' d d' :
  In (b, g, a) (detect_anomalies df) ->
  In r a -> In r' g ->
  soc_drop r = Some d -> soc_drop r' = Some d' -> d' <= d ->
  In r' a.
Proof.
  intros He Hr Hr' Hd Hd' Hle.
  apply detect_anomalies_entry in He as (_ & _ & ->).
  apply in_flagged_inv in Hr as [Hr Ha].
  apply in_flagged; [exact (defined_drop_nonempty g r' d' Hr' Hd')|].
  split; [exact Hr'|].
  unfold is_anomalous in *. rewrite Hd in Ha. rewrite Hd'.
  apply orb_true_iff in Ha as [Ha|Ha]; apply orb_true_iff.
  - left. cbn [lt_const] in *. apply Qltb_lt. apply Qltb_lt in Ha. qlra.
  - right. apply lt_threshold_real in Ha as (t & Ht & Hv & H1 & _).
    rewrite Ht. cbn [lt_threshold]. apply (Qlt_surd_spec d' t Hv).
    apply Qle_Rle in Hle. rlra.
Qed.

(** X23.  The entries of the result come in strictly increasing order
    of the battery identifier. *)
Theorem entries_in_key_order df :
  StronglySorted (fun x y => String_as_OT.compare x y = Lt)
                 (map (fun e => fst (fst e)) (detect_anomalies df)).
Proof.
  rewrite detect_anomalies_keys.
  set (ids := unique (map battery_id (sort_values key_leb df))).
  assert (Hs : StronglySorted (lebP str_leb) (sort_values str_leb ids))
    by (apply sort_values_sorted; [apply str_leb_total | apply str_leb_trans]).
  assert (Hn : NoDup (sort_values str_leb ids)).
  { eapply Permutation_NoDup; [symmetry; apply sort_values_perm|].
    apply unique_NoDup. }
  induction Hs as [|x t Ht IH Hx]; [constructor|].
  inversion Hn as [|? ? Hnx Hnt]; subst.
  constructor; [now apply IH|].
  rewrite Forall_forall in *. intros y Hy.
  specialize (Hx y Hy). unfold lebP, str_leb in Hx.
  destruct (String_as_OT.compare x y) eqn:E; [|reflexivity|discriminate].
  apply compare_Eq in E. subst y. contradiction.
Qed.

(** *** Few buckets: the adaptive threshold cannot bite *)

Lemma Qlen_cons x l : Qlen (x :: l) == Qlen l + 1.
Proof.
  unfold Qlen. cbn [length]. rewrite Nat2Z.inj_succ. unfold Z.succ.
  now rewrite inject_Z_plus.
Qed.

Lemma Qlen_nonneg l : 0 <= Qlen l.
Proof.
  unfold Qlen. change 0 with (inject_Z 0). rewrite <- Zle_Qle. lia.
Qed.

Lemma Qsum_cons x l : Qsum (x :: l) = x + Qsum l.
Proof. reflexivity. Qed.

Lemma Qsum_map_middle (f : Q -> Q) l1 x l2 :
  Qsum (map f (l1 ++ x :: l2)) == f x + Qsum (map f (l1 ++ l2)).
Proof.
  induction l1 as [|y t IH]; [reflexivity|].
  cbn [app map]. rewrite !Qsum_cons, IH. ring.
Qed.

Lemma Qlen_middle l1 (x : Q) l2 : Qlen (l1 ++ x :: l2) == Qlen (l1 ++ l2) + 1.
Proof.
  induction l1 as [|y t IH]; [apply Qlen_cons|].
  cbn [app]. rewrite !Qlen_cons, IH. ring.
Qed.

Lemma Qsum_map_sub c l :
  Qsum (map (fun y => y - c) l) == Qsum l - Qlen l * c.
Proof.
  induction l as [|x t IH].
  - change (0 == 0 - 0 * c). ring.
  - cbn [map]. rewrite !Qsum_cons, Qlen_cons, IH. ring.
Qed.

Lemma mean_times_len l : l <> [] -> Qlen l * mean l == Qsum l.
Proof.
  intros Hne. unfold mean.
  assert (Hpos : ~ Qlen l == 0).
  { destruct l as [|x t]; [congruence|].
    rewrite Qlen_cons. pose proof (Qlen_nonneg t). qlra. }
  field. exact Hpos.
Qed.

Lemma Qsum_sq_diff a l :
  Qsum (map (fun y => (a - y) * (a - y)) l)
  == Qlen l * (a * a) - 2 * a * Qsum l + Qsum (map (fun y => y * y) l).
Proof.
  induction l as [|x t IH].
  - change (0 == 0 * (a * a) - 2 * a * 0 + 0). ring.
  - cbn [map]. rewrite !Qsum_cons, Qlen_cons, IH. ring.
Qed.

(** The square of a sum against the sum of the squares. *)
Lemma Qsum_square_le l :
  Qsum l * Qsum l <= Qlen l * Qsum (map (fun y => y * y) l).
Proof.
  induction l as [|a t IH].
  - change (0 * 0 <= 0 * 0). apply Qle_refl.
  - cbn [map]. rewrite !Qsum_cons, Qlen_cons.
    pose proof (Qsum_squares_nonneg (fun y => a - y) t) as Hsq.
    rewrite Qsum_sq_diff in Hsq.
    remember (Qsum t) as S eqn:ES. remember (Qlen t) as n eqn:En.
    remember (Qsum (map (fun y => y * y) t)) as SS eqn:ESS.
    clear ES En ESS.
    setoid_replace ((a + S) * (a + S)) with (a * a + 2 * a * S + S * S) by ring.
    setoid_replace ((n + 1) * (a * a + SS))
      with (n * (a * a) + a * a + n * SS + SS) by ring.
    qlra.
Qed.

(** No value lies further from the mean than the spread of the sample
    allows: [n (x - mean)^2 <= (n - 1) * sum of squared deviations]. *)
Lemma deviation_bound l x :
  In x l ->
  Qlen l * ((x - mean l) * (x - mean l))
  <= (Qlen l - 1)
     * Qsum (map (fun y => (y - mean l) * (y - mean l)) l).
Proof.
  intros Hx.
  assert (Hne : l <> []) by (intros E; rewrite E in Hx; destruct Hx).
  pose proof (mean_times_len l Hne) as Hmean.
  pose proof (Qsum_map_sub (mean l) l) as Hdev.
  remember (mean l) as mu eqn:Emu. clear Emu.
  apply in_split in Hx as (l1 & l2 & ->).
  rewrite (Qsum_map_middle (fun y => (y - mu) * (y - mu))).
  rewrite (Qsum_map_middle (fun y => y - mu)) in Hdev.
  rewrite Qlen_middle in *.
  pose proof (Qsum_square_le (map (fun y => y - mu) (l1 ++ l2))) as Hcs.
  rewrite map_map in Hcs.
  assert (Hlen : Qlen (map (fun y => y - mu) (l1 ++ l2)) = Qlen (l1 ++ l2))
    by (unfold Qlen; now rewrite length_map).
  rewrite Hlen in Hcs.
  remember (Qsum (map (fun y => y - mu) (l1 ++ l2))) as S eqn:ES.
  remember (Qsum (map (fun y => (y - mu) * (y - mu)) (l1 ++ l2))) as SS eqn:ESS.
  remember (Qlen (l1 ++ l2)) as n eqn:En.
  remember (Qsum (l1 ++ x :: l2)) as T eqn:ET.
  clear ES ESS En ET Hlen Hne.
  assert (HS : S == - (x - mu)) by qlra.
  rewrite HS in Hcs.
  setoid_replace (- (x - mu) * - (x - mu)) with ((x - mu) * (x - mu)) in Hcs
    by ring.
  setoid_replace ((n + 1) * ((x - mu) * (x - mu)))
    with (n * ((x - mu) * (x - mu)) + (x - mu) * (x - mu)) by ring.
  setoid_replace ((n + 1 - 1) * ((x - mu) * (x - mu) + SS))
    with (n * ((x - mu) * (x - mu)) + n * SS) by ring.
  qlra.
Qed.

Lemma variance_times drops :
  (2 <= length drops)%nat ->
  sample_variance drops * (Qlen drops - 1)
  == Qsum (map (fun y => (y - mean drops) * (y - mean drops)) drops).
Proof.
  intros H. unfold sample_variance. pose proof (Qlen_ge2 drops H) as Hpos.
  field. intros E. rewrite E in Hpos. now apply Qlt_irrefl in Hpos.
Qed.

Lemma adaptive_inert drops d :
  (length drops <= 3)%nat -> In d drops ->
  lt_threshold (Some d) (threshold_of drops) = false.
Proof.
  intros Hlen Hd.
  destruct (lt_threshold (Some d) (threshold_of drops)) eqn:Hlt; [|reflexivity].
  exfalso. unfold threshold_of, std in Hlt.
  destruct (length drops <=? 1)%nat eqn:E1; [discriminate|].
  apply Nat.leb_gt in E1.
  cbn [option_map lt_threshold] in Hlt.
  unfold Qlt_surd, surd_rsub, surd_scale in Hlt.
  cbn [rat_part coef radicand] in Hlt.
  change (Qle_bool 0 (- ((3 # 2) * 1))) with false in Hlt.
  apply andb_true_iff in Hlt as [_ Hsq]. apply Qltb_lt in Hsq.
  pose proof (deviation_bound drops d Hd) as Hb.
  pose proof (variance_times drops ltac:(lia)) as Hv.
  pose proof (sample_variance_nonneg drops ltac:(lia)) as H0.
  rewrite <- Hv in Hb.
  remember (mean drops) as mu eqn:Emu.
  remember (sample_variance drops) as v eqn:Ev.
  clear Emu Ev Hv Hd.
  setoid_replace (- ((3 # 2) * 1) * - ((3 # 2) * 1) * v) with ((9 # 4) * v)
    in Hsq by ring.
  setoid_replace ((d - (mu - (3 # 2) * 0)) * (d - (mu - (3 # 2) * 0)))
    with ((d - mu) * (d - mu)) in Hsq by ring.
  remember ((d - mu) * (d - mu)) as e2 eqn:Ee. clear Ee.
  assert (Hn : length drops = 2%nat \/ length drops = 3%nat) by lia.
  unfold Qlen in Hb.
  destruct Hn as [Hn|Hn]; rewrite Hn in Hb; cbn [Z.of_nat] in Hb.
  - change (inject_Z (Z.pos (Pos.of_succ_nat 1))) with 2 in Hb.
    setoid_replace ((2 - 1) * (v * (2 - 1))) with v in Hb by ring. qlra.
  - change (inject_Z (Z.pos (Pos.of_succ_nat 2))) with 3 in Hb.
    setoid_replace ((3 - 1) * (v * (3 - 1))) with (4 * v) in Hb by ring. qlra.
Qed.


(** *** The theorems at work *)

Import AnomalyExamples.
Local Open Scope string_scope.

Lemma mixed_entry :
  In ("B1", mixed_series, [mixed_second; mixed_fourth]) (detect_anomalies mixed).
Proof. vm_compute. left. reflexivity. Qed.

(** Five defined drops are enough for the adaptive threshold: the
    last bucket is flagged with a drop of -10. *)
Example six_buckets_adaptive :
  map (fun e => map (fun r => ts (data r)) (snd e))
      (detect_anomalies
         [ mkBucket 0 "F" 0 50; mkBucket 1 "F" 0 50; mkBucket 2 "F" 0 50;
           mkBucket 3 "F" 0 50; mkBucket 4 "F" 0 50; mkBucket 5 "F" 0 40 ])
  = [[5%Z]].
Proof. vm_compute. reflexivity. Qed.

Lemma hard_threshold_always_flags_witness :
  In mixed_fourth [mixed_second; mixed_fourth].
Proof.
  apply (hard_threshold_always_flags mixed "B1" mixed_series
           [mixed_second; mixed_fourth] mixed_fourth (-21 # 1) mixed_entry).
  - vm_compute. tauto.
  - reflexivity.
  - reflexivity.
Defined.

Lemma anomalies_are_low_drops_witness :
  In mixed_second mixed_series /\
  exists d, soc_drop mixed_second = Some d /\
            (d < -15 \/ d < mean (dropna (map soc_drop mixed_series))).
Proof.
  destruct (anomalies_are_low_drops mixed "B1" mixed_series
              [mixed_second; mixed_fourth] mixed_entry) as [H _].
  apply H. left. reflexivity.
Defined.

Lemma anomalies_downward_closed_witness :
  In mixed_fourth [mixed_second; mixed_fourth].
Proof.
  apply (anomalies_downward_closed mixed "B1" mixed_series
           [mixed_second; mixed_fourth] mixed_second mixed_fourth
           (-20 # 1) (-21 # 1) mixed_entry).
  - left. reflexivity.
  - vm_compute. tauto.
  - reflexivity.
  - reflexivity.
  - discriminate.
Defined.


End AnomalyMore.

(** ** cycles.py whatever the arithmetic and the order of tied rows *)

Section SelectionFacts.

Context {A : Type}.
Variable key : A -> Z.
Variable ltb : A -> A -> bool.
Hypothesis ltb_key : forall a b, ltb a b = (key a <? key b)%Z.

Lemma take_min_perm best l :
  Permutation (fst (take_min ltb best l) :: snd (take_min ltb best l)) (best :: l).
Proof.
  revert best. induction l as [|y t IH]; intros best; cbn [take_min].
  - reflexivity.
  - destruct (ltb y best).
    + specialize (IH y). destruct (take_min ltb y t) as [m rest].
      cbn [fst snd] in *.
      transitivity (best :: m :: rest); [apply perm_swap | now constructor].
    + specialize (IH best). destruct (take_min ltb best t) as [m rest].
      cbn [fst snd] in *.
      transitivity (y :: m :: rest); [apply perm_swap|].
      transitivity (y :: best :: t); [now constructor | apply perm_swap].
Qed.

Lemma take_min_least best l :
  forall x, In x (best :: l) -> (key (fst (take_min ltb best l)) <= key x)%Z.
Proof.
  revert best. induction l as [|y t IH]; intros best x; cbn [take_min].
  - intros [<-|[]]. cbn [fst]. lia.
  - destruct (ltb y best) eqn:E; rewrite ltb_key in E.
    + pose proof (IH y) as IHy.
      destruct (take_min ltb y t) as [m rest]. cbn [fst] in *.
      intros [<-|[<-|Hx]].
      * assert (H : (key m <= key y)%Z) by (apply IHy; now left). lia.
      * apply IHy. now left.
      * apply IHy. now right.
    + pose proof (IH best) as IHb.
      destruct (take_min ltb best t) as [m rest]. cbn [fst] in *.
      intros [<-|[<-|Hx]].
      * apply IHb. now left.
      * assert (H : (key m <= key best)%Z) by (apply IHb; now left). lia.
      * apply IHb. now right.
Qed.

Lemma take_min_length best l : length (snd (take_min ltb best l)) = length l.
Proof.
  revert best. induction l as [|y t IH]; intros best; cbn [take_min].
  - reflexivity.
  - destruct (ltb y best).
    + specialize (IH y). destruct (take_min ltb y t) as [m rest].
      cbn [snd length] in *. now rewrite IH.
    + specialize (IH best). destruct (take_min ltb best t) as [m rest].
      cbn [snd length] in *. now rewrite IH.
Qed.

Lemma selection_pass_perm n l : Permutation (selection_pass ltb n l) l.
Proof.
  revert l. induction n as [|n IH]; intros [|x t]; cbn [selection_pass];
    try reflexivity.
  pose proof (take_min_perm x t) as Hp.
  destruct (take_min ltb x t) as [m rest]. cbn [fst snd] in Hp.
  rewrite IH. exact Hp.
Qed.

Lemma selection_pass_sorted n l :
  (length l <= n)%nat ->
  StronglySorted (fun x y => (key x <= key y)%Z) (selection_pass ltb n l).
Proof.
  revert l. induction n as [|n IH]; intros [|x t] Hn; cbn [selection_pass].
  - constructor.
  - cbn [length] in Hn. lia.
  - constructor.
  - pose proof (take_min_perm x t) as Hp.
    pose proof (take_min_least x t) as Hl.
    pose proof (take_min_length x t) as Hlen.
    destruct (take_min ltb x t) as [m rest]. cbn [fst snd] in *.
    constructor.
    + apply IH. cbn [length] in Hn. lia.
    + apply Forall_forall. intros y Hy. apply Hl.
      eapply Permutation_in; [exact Hp|]. right.
      eapply Permutation_in; [apply selection_pass_perm | exact Hy].
Qed.

End SelectionFacts.

Module CyclesGenFacts.
Import CyclesGen.

Section FramesFacts.

Variable A : arith.
Variable row : Type.
Variable ts : row -> Z.
Variable battery_id : row -> string.
Variable battery_soc_pct : row -> num A.
Variable sort_by_ts : list row -> list row.

Local Abbreviation calculate_cycles :=
  (calculate_cycles A row battery_soc_pct sort_by_ts).
Local Abbreviation window_cycles :=
  (window_cycles A row battery_soc_pct sort_by_ts).
Local Abbreviation battery_cycles :=
  (battery_cycles A row ts battery_id battery_soc_pct sort_by_ts).
Local Abbreviation compute_all_cycles :=
  (compute_all_cycles A row ts battery_id battery_soc_pct sort_by_ts).
Local Abbreviation rows_of := (rows_of row battery_id).
Local Abbreviation trailing := (trailing row ts).
Local Abbreviation ts_max := (ts_max row ts).
Local Abbreviation latest := (latest row ts battery_id).
Local Abbreviation chosen := (chosen row ts battery_id).
Local Abbreviation time_ordered := (time_ordered row ts).
Local Abbreviation window_formula := (window_formula A row battery_soc_pct).
Local Abbreviation distinct_ts := (distinct_ts row ts battery_id).
Local Abbreviation sorts_by_ts := (sorts_by_ts row ts sort_by_ts).

(** *** The columns of [calculate_cycles] *)

Lemma present_drops_after p soc :
  present (clip_lower0 A
    (sub_col A (firstn (length soc) (Some p :: map Some soc)) soc))
  = clamped_drops A (p :: soc).
Proof.
  revert p. induction soc as [|a t IH]; intros p; [reflexivity|].
  change (present (clip_lower0 A
            (sub_col A (firstn (length (a :: t))
                               (Some p :: map Some (a :: t))) (a :: t))))
    with (clip0 A (sub A p a)
            :: present (clip_lower0 A
                 (sub_col A (firstn (length t) (Some a :: map Some t)) t))).
  now rewrite IH.
Qed.

(** The column [drop], without its missing first value, holds the
    clamped difference of every pair of neighbours. *)
Lemma present_drop_column soc :
  present (clip_lower0 A (sub_col A (shift1 A soc) soc)) = clamped_drops A soc.
Proof.
  destruct soc as [|a t]; [reflexivity|].
  change (present (clip_lower0 A (sub_col A (shift1 A (a :: t)) (a :: t))))
    with (present (clip_lower0 A
            (sub_col A (firstn (length t) (Some a :: map Some t)) t))).
  apply present_drops_after.
Qed.

Lemma calculate_cycles_formula df :
  round3 A (calculate_cycles df) = window_formula (sort_by_ts df).
Proof.
  unfold CyclesGen.calculate_cycles, CyclesGen.window_formula.
  now rewrite present_drop_column.
Qed.

(** *** The rows of a window *)

Lemma latest_ts_max b m df : latest b m df -> ts_max (rows_of b df) = Some m.
Proof.
  intros [(r & Hr & Hb & Hm) Hub].
  assert (Hin : In r (rows_of b df)).
  { apply filter_In. split; [exact Hr | now apply String.eqb_eq]. }
  destruct (rows_of b df) as [|x t] eqn:E; [destruct Hin|].
  cbn [CyclesGen.ts_max]. f_equal.
  destruct (CyclesFacts.fold_left_max_spec (map ts t) (ts x)) as (H1 & H2 & H3).
  assert (Hall : forall y, In y (x :: t) -> (ts y <= m)%Z).
  { intros y Hy. rewrite <- E in Hy. apply filter_In in Hy as [Hy Hyb].
    apply Hub; [exact Hy | now apply String.eqb_eq]. }
  apply Z.le_antisymm.
  - destruct H3 as [->|H3]; [apply Hall; now left|].
    apply in_map_iff in H3 as (y & <- & Hy). apply Hall. now right.
  - subst m. destruct Hin as [->|Hin]; [exact H1|].
    apply H2. now apply in_map.
Qed.

Lemma filter_twice {X : Type} (p q : X -> bool) l :
  filter q (filter p l) = filter (fun x => p x && q x) l.
Proof.
  induction l as [|x t IH]; [reflexivity|].
  cbn [filter]. destruct (p x); cbn [filter andb]; [|exact IH].
  destruct (q x); now rewrite IH.
Qed.

Lemma trailing_chosen b w m span df :
  Cycles.window_span w = Some span -> latest b m df ->
  trailing span (rows_of b df) = filter (chosen b w m) df.
Proof.
  intros Hw Hm. unfold CyclesGen.trailing.
  rewrite (latest_ts_max b m df Hm).
  unfold CyclesGen.rows_of. rewrite filter_twice.
  apply filter_ext. intros r. unfold CyclesGen.chosen. now rewrite Hw.
Qed.

Lemma rows_chosen b m df : rows_of b df = filter (chosen b Cycles.AllTime m) df.
Proof.
  unfold CyclesGen.rows_of. apply filter_ext. intros r.
  unfold CyclesGen.chosen. cbn [Cycles.window_span]. now rewrite andb_true_r.
Qed.

Lemma in_compute_all_cycles_any df c :
  In c (compute_all_cycles df) -> c = battery_cycles df (cc_battery_id c).
Proof.
  unfold CyclesGen.compute_all_cycles. intros H.
  apply in_map_iff in H as (b & <- & _). reflexivity.
Qed.

(** The count reported for a window is the formula of the
    specification on the rows of the window in the order in which
    [sort_values] leaves them. *)
Lemma reported_frame df b w m :
  latest b m df ->
  (2 <= length (filter (chosen b w m) df))%nat ->
  reported w (battery_cycles df b)
  = window_formula (sort_by_ts (filter (chosen b w m) df)).
Proof.
  intros Hm Hlen.
  assert (Hwin : forall span,
             Cycles.window_span w = Some span ->
             round3 A (window_cycles (trailing span (rows_of b df)))
             = window_formula (sort_by_ts (filter (chosen b w m) df))).
  { intros span Hw. rewrite (trailing_chosen b w m span df Hw Hm).
    unfold CyclesGen.window_cycles.
    destruct (1 <? length (filter (chosen b w m) df))%nat eqn:E.
    - apply calculate_cycles_formula.
    - apply Nat.ltb_ge in E. lia. }
  destruct w; cbn [reported CyclesGen.battery_cycles cycles_last_24h
                   cycles_last_7d cycles_last_30d total_cycles].
  - now apply Hwin.
  - now apply Hwin.
  - now apply Hwin.
  - rewrite (rows_chosen b m df). apply calculate_cycles_formula.
Qed.

(** *** One order only when the timestamps differ *)

Lemma time_ordered_unique l l' :
  time_ordered l -> time_ordered l' -> Permutation l l' ->
  NoDup (map ts l) -> l = l'.
Proof.
  intros Hs Hs' Hp Hn.
  apply (sorted_perm_eq (fun x y => (ts x <=? ts y)%Z)).
  - eapply AnomalyFacts.StronglySorted_In_weaken; [|exact Hs].
    intros x y _ _ H. unfold lebP. cbv beta in *. lia.
  - eapply AnomalyFacts.StronglySorted_In_weaken; [|exact Hs'].
    intros x y _ _ H. unfold lebP. cbv beta in *. lia.
  - exact Hp.
  - intros x y Hx Hy H1 H2. unfold lebP in H1, H2. cbv beta in H1, H2.
    apply (NoDup_map_inj ts l x y Hn Hx Hy). lia.
Qed.

Lemma chosen_distinct b w m df :
  distinct_ts b df -> NoDup (map ts (filter (chosen b w m) df)).
Proof.
  intros H. unfold CyclesGen.distinct_ts in H.
  assert (E : filter (chosen b w m) df
              = filter (fun r => match Cycles.window_span w with
                                 | None => true
                                 | Some span => (m - span <=? ts r)%Z
                                 end)
                       (filter (fun r => String.eqb (battery_id r) b) df)).
  { rewrite filter_twice. reflexivity. }
  rewrite E. now apply distinct_keys_filter.
Qed.

Hypothesis sort_contract : sorts_by_ts.


(** *** Windows that nest *)

Local Abbreviation window_count := (window_count A row battery_soc_pct).

Lemma time_ordered_filter (p : row -> bool) l :
  time_ordered l -> time_ordered (filter p l).
Proof.
  induction 1 as [|x t Ht IH Hx]; cbn [filter]; [constructor|].
  destruct (p x); [|exact IH].
  constructor; [exact IH|].
  rewrite Forall_forall in *. intros y Hy.
  apply filter_In in Hy as [Hy _]. now apply Hx.
Qed.

(** Selecting rows and sorting commute when no two timestamps agree. *)
Lemma sort_of_filter (p : row -> bool) l :
  NoDup (map ts l) -> sort_by_ts (filter p l) = filter p (sort_by_ts l).
Proof.
  intros Hn.
  destruct (sort_contract (filter p l)) as [Hp Hs].
  destruct (sort_contract l) as [Hp' Hs'].
  apply time_ordered_unique.
  - exact Hs.
  - now apply time_ordered_filter.
  - rewrite Hp. symmetry. now apply Permutation_filter.
  - eapply Permutation_NoDup.
    + apply Permutation_map. symmetry. exact Hp.
    + now apply distinct_keys_filter.
Qed.

(** The rows from a point in time on are the end of a sorted frame. *)
Lemma later_rows_suffix c l :
  time_ordered l ->
  exists pre, l = pre ++ filter (fun r => (c <=? ts r)%Z) l.
Proof.
  induction 1 as [|x t Ht IH Hx]; [now exists []|].
  cbn [filter]. destruct (c <=? ts x)%Z eqn:E.
  - exists []. cbn [app]. f_equal. symmetry.
    apply forallb_filter_id, forallb_forall.
    intros y Hy. rewrite Forall_forall in Hx. specialize (Hx y Hy). lia.
  - destruct IH as [pre Hpre]. exists (x :: pre). cbn [app]. now f_equal.
Qed.

Lemma window_cycles_count F :
  window_cycles F = window_count (sort_by_ts F).
Proof.
  unfold CyclesGen.window_cycles, CyclesGen.window_count,
    CyclesGen.calculate_cycles.
  destruct (sort_contract F) as [Hp _].
  rewrite (Permutation_length Hp), present_drop_column. reflexivity.
Qed.

Variable O : ordered A.

Local Abbreviation le := (CyclesGen.le A O).

Lemma clamped_drops_nonneg l : Forall (le (nought A)) (clamped_drops A l).
Proof.
  induction l as [|a [|b t] IH]; cbn [clamped_drops]; try constructor.
  - apply clip0_nonneg.
  - exact IH.
Qed.

Lemma clamped_drops_app l1 l2 :
  exists X,
    clamped_drops A (l1 ++ l2) = X ++ clamped_drops A l2 /\
    Forall (le (nought A)) X.
Proof.
  induction l1 as [|a t IH]; [exists []; split; [reflexivity | constructor]|].
  destruct IH as (X & HX & Hn).
  cbn [app]. destruct (t ++ l2) as [|b r] eqn:E.
  - exists []. split; [|constructor].
    apply app_eq_nil in E as [_ ->]. reflexivity.
  - exists (clip0 A (sub A a b) :: X). split.
    + cbn [clamped_drops app]. f_equal. exact HX.
    + constructor; [apply clip0_nonneg | exact Hn].
Qed.

Lemma total_nonneg ds :
  Forall (le (nought A)) ds -> le (nought A) (total A ds).
Proof.
  intros H. eapply le_trans; [apply total_nil|].
  rewrite <- (app_nil_r ds) at 1. now apply total_grows.
Qed.

Lemma per100_nonneg x : le (nought A) x -> le (nought A) (per100 A x).
Proof.
  intros H. eapply le_trans; [apply per100_nought | now apply per100_mono].
Qed.

(** The end of a frame holds no more discharge than the frame. *)
Lemma window_count_below pre suf :
  le (window_count suf)
     (per100 A (total A (clamped_drops A (map battery_soc_pct (pre ++ suf))))).
Proof.
  unfold CyclesGen.window_count.
  destruct (1 <? length suf)%nat.
  - apply per100_mono. rewrite map_app.
    destruct (clamped_drops_app (map battery_soc_pct pre)
                                (map battery_soc_pct suf)) as (X & -> & Hn).
    now apply total_grows.
  - apply per100_nonneg, total_nonneg, clamped_drops_nonneg.
Qed.

Lemma window_count_suffix pre suf :
  le (window_count suf) (window_count (pre ++ suf)).
Proof.
  destruct (1 <? length (pre ++ suf))%nat eqn:E.
  - assert (Ew : window_count (pre ++ suf)
                 = per100 A (total A (clamped_drops A
                                        (map battery_soc_pct (pre ++ suf)))))
      by (unfold CyclesGen.window_count; now rewrite E).
    rewrite Ew. apply window_count_below.
  - assert (E' : (1 <? length suf)%nat = false).
    { apply Nat.ltb_ge in E. rewrite length_app in E. apply Nat.ltb_ge. lia. }
    unfold CyclesGen.window_count. rewrite E, E'. apply le_refl.
Qed.

Lemma trailing_nested_any d1 d2 bdf :
  (d1 <= d2)%Z -> NoDup (map ts bdf) ->
  le (window_cycles (trailing d1 bdf)) (window_cycles (trailing d2 bdf)).
Proof.
  intros Hd Hn. unfold CyclesGen.trailing.
  destruct (ts_max bdf) as [m|]; [|apply le_refl].
  rewrite !window_cycles_count, !sort_of_filter by exact Hn.
  destruct (sort_contract bdf) as [_ Hs].
  destruct (later_rows_suffix (m - d1)
              (filter (fun r => (m - d2 <=? ts r)%Z) (sort_by_ts bdf)))
    as [pre Hpre]; [now apply time_ordered_filter|].
  rewrite filter_twice in Hpre.
  rewrite (filter_ext
             (fun x => (m - d2 <=? ts x)%Z && (m - d1 <=? ts x)%Z)
             (fun x => (m - d1 <=? ts x)%Z)) in Hpre
    by (intros x; lia).
  rewrite Hpre. apply window_count_suffix.
Qed.

Lemma trailing_total_any d bdf :
  NoDup (map ts bdf) ->
  le (window_cycles (trailing d bdf)) (calculate_cycles bdf).
Proof.
  intros Hn.
  assert (Hall : forall suf pre,
             sort_by_ts bdf = pre ++ suf ->
             le (window_count suf) (calculate_cycles bdf)).
  { intros suf pre E. unfold CyclesGen.calculate_cycles.
    rewrite present_drop_column, E. apply window_count_below. }
  unfold CyclesGen.trailing.
  destruct (ts_max bdf) as [m|].
  - rewrite window_cycles_count, sort_of_filter by exact Hn.
    destruct (sort_contract bdf) as [_ Hs].
    destruct (later_rows_suffix (m - d) (sort_by_ts bdf) Hs) as [pre Hpre].
    now apply (Hall _ pre).
  - change (window_cycles []) with (window_count []).
    apply (Hall [] (sort_by_ts bdf)). now rewrite app_nil_r.
Qed.


End FramesFacts.

(** *** Two sorts within the contract *)

Lemma stable_sorts :
  sorts_by_ts Cycles.sample Cycles.ts (sort_values Cycles.ts_leb).
Proof.
  intros l. split; [apply sort_values_perm|].
  eapply AnomalyFacts.StronglySorted_In_weaken; [|apply CyclesFacts.sorted_rows].
  intros x y _ _ H. unfold lebP, Cycles.ts_leb in H. lia.
Qed.

Lemma selection_sorts :
  sorts_by_ts Cycles.sample Cycles.ts (selection_sort Exact.ts_ltb).
Proof.
  intros l. unfold selection_sort. split.
  - apply selection_pass_perm.
  - apply (selection_pass_sorted Cycles.ts Exact.ts_ltb); [reflexivity | lia].
Qed.

(** *** The exact reading *)

Local Abbreviation exact_calculate :=
  (calculate_cycles Exact.arith Cycles.sample Cycles.battery_soc_pct).
Local Abbreviation exact_window :=
  (window_cycles Exact.arith Cycles.sample Cycles.battery_soc_pct).
Local Abbreviation exact_battery :=
  (battery_cycles Exact.arith Cycles.sample Cycles.ts Cycles.battery_id
                  Cycles.battery_soc_pct).
Local Abbreviation exact_ordered := (time_ordered Cycles.sample Cycles.ts).
Local Abbreviation exact_distinct :=
  (distinct_ts Cycles.sample Cycles.ts Cycles.battery_id).
Local Abbreviation exact_contract := (sorts_by_ts Cycles.sample Cycles.ts).
Local Abbreviation exact_chosen :=
  (chosen Cycles.sample Cycles.ts Cycles.battery_id).
Local Abbreviation exact_latest :=
  (latest Cycles.sample Cycles.ts Cycles.battery_id).
Local Abbreviation exact_formula :=
  (window_formula Exact.arith Cycles.sample Cycles.battery_soc_pct).

Lemma total_present col : Qsum (present col) = sum_col col.
Proof.
  induction col as [|[d|] t IH]; cbn [present sum_col fold_right];
    [reflexivity | | exact IH].
  fold (sum_col t). rewrite <- IH. reflexivity.
Qed.

Lemma exact_clamped soc :
  Qsum (clamped_drops Exact.arith soc) == Cycles.clamped_drop_sum soc.
Proof.
  induction soc as [|a [|b t] IH]; try reflexivity.
  change (Qsum (clamped_drops Exact.arith (a :: b :: t)))
    with ((if Qle_bool 0 (a - b) then a - b else 0)
          + Qsum (clamped_drops Exact.arith (b :: t))).
  change (Cycles.clamped_drop_sum (a :: b :: t))
    with (Qmax 0 (a - b) + Cycles.clamped_drop_sum (b :: t)).
  now rewrite IH, CyclesFacts.clip_is_max.
Qed.

Lemma exact_calculate_sum sort l :
  exact_calculate sort l
  == Cycles.clamped_drop_sum (map Cycles.battery_soc_pct (sort l)) / 100.
Proof.
  unfold calculate_cycles.
  rewrite (present_drop_column Exact.arith).
  change (Qsum (clamped_drops Exact.arith (map Cycles.battery_soc_pct (sort l))) / 100
          == Cycles.clamped_drop_sum (map Cycles.battery_soc_pct (sort l)) / 100).
  now rewrite exact_clamped.
Qed.

Lemma exact_calculate_nonneg sort l : 0 <= exact_calculate sort l.
Proof.
  rewrite exact_calculate_sum.
  pose proof (CyclesFacts.clamped_drop_sum_nonneg
                (map Cycles.battery_soc_pct (sort l))) as H.
  eapply Qle_trans; [|apply (CyclesFacts.Qdiv100_le _ _ H)]. discriminate.
Qed.

Lemma exact_window_nonneg sort l : 0 <= exact_window sort l.
Proof.
  unfold window_cycles.
  destruct (1 <? length l)%nat; [apply exact_calculate_nonneg | apply Qle_refl].
Qed.

Lemma py_round_nonneg x : 0 <= x -> 0 <= py_round x 3.
Proof.
  intros H. eapply Qle_trans; [|apply (py_round_mono 0 x 3 H)].
  rewrite py_round_zero; [apply Qle_refl | reflexivity].
Qed.

(** With the stable sort the exact reading is the module [Cycles]. *)
Lemma exact_calculate_stable sort l :
  sort l = sort_values Cycles.ts_leb l ->
  exact_calculate sort l = Cycles.calculate_cycles l.
Proof.
  intros E. unfold calculate_cycles, Cycles.calculate_cycles.
  rewrite E. cbn [total Exact.arith]. rewrite total_present. reflexivity.
Qed.

Lemma exact_window_stable sort l :
  sort l = sort_values Cycles.ts_leb l ->
  exact_window sort l = Cycles.window_cycles l.
Proof.
  intros E. unfold window_cycles, Cycles.window_cycles.
  now rewrite (exact_calculate_stable sort l E).
Qed.

(** With the stable sort, [compute_all_cycles] in the exact reading is
    [Cycles.compute_all_cycles]. *)
Lemma exact_stable_cycles df :
  map Exact.plain_counts (Exact.compute_all_cycles (sort_values Cycles.ts_leb) df)
  = Cycles.compute_all_cycles df.
Proof.
  unfold Exact.compute_all_cycles, compute_all_cycles, Cycles.compute_all_cycles.
  rewrite map_map. apply map_ext. intros b.
  unfold battery_cycles, Exact.plain_counts.
  cbn [cc_battery_id cycles_last_24h cycles_last_7d cycles_last_30d total_cycles].
  rewrite !exact_window_stable by reflexivity.
  rewrite exact_calculate_stable by reflexivity.
  reflexivity.
Qed.

Lemma in_exact_cycles sort df c :
  In c (Exact.compute_all_cycles sort df) ->
  c = exact_battery sort df (cc_battery_id c).
Proof.
  exact (in_compute_all_cycles_any Exact.arith Cycles.sample Cycles.ts
           Cycles.battery_id Cycles.battery_soc_pct sort df c).
Qed.

(** X17.  No count that [compute_all_cycles] reports is negative,
    whatever the order in which the sort leaves the rows (exact
    arithmetic). *)
Theorem reported_counts_nonneg sort df c w :
  In c (Exact.compute_all_cycles sort df) -> 0 <= reported w c.
Proof.
  intros Hc. apply in_exact_cycles in Hc.
  remember (cc_battery_id c) as b eqn:Eb. clear Eb. subst c.
  destruct w; cbn [reported battery_cycles cycles_last_24h cycles_last_7d
                   cycles_last_30d total_cycles];
    apply py_round_nonneg;
    (apply exact_window_nonneg || apply exact_calculate_nonneg).
Qed.

(** *** A battery that only charges *)

Lemma charging_drops sub :
  exact_ordered sub ->
  (forall x y, In x sub -> In y sub ->
               (Cycles.ts x <= Cycles.ts y)%Z ->
               Cycles.battery_soc_pct x <= Cycles.battery_soc_pct y) ->
  Cycles.clamped_drop_sum (map Cycles.battery_soc_pct sub) == 0.
Proof.
  intros Hs. induction Hs as [|x t Ht IH Hx]; intros Hup; [reflexivity|].
  destruct t as [|y t']; [reflexivity|].
  change (Qmax 0 (Cycles.battery_soc_pct x - Cycles.battery_soc_pct y)
          + Cycles.clamped_drop_sum (map Cycles.battery_soc_pct (y :: t')) == 0).
  rewrite IH by (intros a b Ha Hb; apply Hup; now right).
  assert (Hxy : Cycles.battery_soc_pct x <= Cycles.battery_soc_pct y).
  { apply Hup; [now left | right; now left|].
    inversion Hx; subst. assumption. }
  rewrite Q.max_l by qlra. ring.
Qed.

Lemma charging_frame sort l :
  exact_contract sort ->
  (forall x y, In x l -> In y l ->
               (Cycles.ts x <= Cycles.ts y)%Z ->
               Cycles.battery_soc_pct x <= Cycles.battery_soc_pct y) ->
  exact_calculate sort l == 0.
Proof.
  intros Hc Hup. destruct (Hc l) as [Hp Hs].
  rewrite exact_calculate_sum, charging_drops; [reflexivity | exact Hs |].
  intros x y Hx Hy. apply Hup; eapply Permutation_in; eassumption.
Qed.

Lemma trailing_rows d bdf r :
  In r (trailing Cycles.sample Cycles.ts d bdf) -> In r bdf.
Proof.
  unfold trailing. destruct (ts_max Cycles.sample Cycles.ts bdf); [|intros []].
  intros H. now apply filter_In in H.
Qed.

(** X16.  A battery whose charge never falls as time goes on (samples
    at the same instant agree) has the count 0 for every window,
    whatever sort within the contract of [sort_values] is used (exact
    arithmetic). *)
Theorem charging_counts_zero sort df c :
  exact_contract sort ->
  In c (Exact.compute_all_cycles sort df) ->
  (forall x y,
      In x df -> In y df ->
      Cycles.battery_id x = cc_battery_id c ->
      Cycles.battery_id y = cc_battery_id c ->
      (Cycles.ts x <= Cycles.ts y)%Z ->
      Cycles.battery_soc_pct x <= Cycles.battery_soc_pct y) ->
  forall w, reported w c == 0.
Proof.
  intros Hs Hc Hup w.
  apply in_exact_cycles in Hc.
  remember (cc_battery_id c) as b eqn:Eb. clear Eb. subst c.
  assert (Hb : forall x y,
             In x (rows_of Cycles.sample Cycles.battery_id b df) ->
             In y (rows_of Cycles.sample Cycles.battery_id b df) ->
             (Cycles.ts x <= Cycles.ts y)%Z ->
             Cycles.battery_soc_pct x <= Cycles.battery_soc_pct y).
  { intros x y Hx Hy. unfold rows_of in Hx, Hy.
    apply filter_In in Hx as [Hx Ex]. apply filter_In in Hy as [Hy Ey].
    apply String.eqb_eq in Ex, Ey. now apply Hup. }
  assert (Hwin : forall d,
             exact_window sort
               (trailing Cycles.sample Cycles.ts d
                  (rows_of Cycles.sample Cycles.battery_id b df)) == 0).
  { intros d. unfold window_cycles.
    destruct (1 <? _)%nat; [|reflexivity].
    apply (charging_frame sort _ Hs).
    intros x y Hx Hy. apply Hb; eapply trailing_rows; eassumption. }
  destruct w; cbn [reported battery_cycles cycles_last_24h cycles_last_7d
                   cycles_last_30d total_cycles];
    apply py_round_zero; (apply Hwin || apply (charging_frame sort _ Hs Hb)).
Qed.

(** The exact reading meets what the order of the counts rests on. *)
Lemma exact_clip0_nonneg x : 0 <= (if Qle_bool 0 x then x else 0).
Proof.
  destruct (Qle_bool 0 x) eqn:E; [now apply Qle_bool_iff | apply Qle_refl].
Qed.

Lemma Qsum_grows pre suf :
  Forall (Qle 0) pre -> Qsum suf <= Qsum (pre ++ suf).
Proof.
  induction 1 as [|x t Hx Ht IH]; [apply Qle_refl|].
  cbn [app Qsum fold_right]. fold (Qsum (t ++ suf)). qlra.
Qed.

Lemma exact_arith_ordered : ordered Exact.arith.
Proof.
  refine (mkOrdered Exact.arith Qle Qle_refl Qle_trans exact_clip0_nonneg
            _ Qsum_grows _ CyclesFacts.Qdiv100_le _).
  - apply Qle_refl.
  - discriminate.
  - intros x y H. now apply py_round_mono.
Defined.

(** *** The theorems at work *)

Import CyclesExamples.
Local Open Scope string_scope.

Ltac each_row H :=
  cbn [In] in H;
  repeat (destruct H as [<-|H]; [try (vm_compute; discriminate)|]);
  try destruct H.

(** With selection sort the two tied samples of [tied] stand as
    80, 50 in the window of 24 hours and as 50, 80 behind the earlier
    sample in the longer windows. *)
Example tied_counts :
  map (fun c : cycle_counts Q =>
         (cc_battery_id c, Qred (cycles_last_24h c), Qred (cycles_last_7d c),
          Qred (cycles_last_30d c), Qred (total_cycles c)))
      (Exact.compute_all_cycles (selection_sort Exact.ts_ltb) tied)
  = [("T", 3 # 10, 0, 0, 0)].
Proof. vm_compute. reflexivity. Qed.


Lemma fleet_A_latest : exact_latest "A" (31 * 24 * hour) fleet.
Proof.
  split.
  - exists (Cycles.mkSample (31 * 24 * hour) "A" 10).
    repeat split. left. reflexivity.
  - intros r Hr Hb. each_row Hr; discriminate.
Qed.



Lemma reported_counts_nonneg_witness :
  0 <= reported Cycles.Last24h (exact_battery (selection_sort Exact.ts_ltb) tied "T").
Proof.
  apply (reported_counts_nonneg (selection_sort Exact.ts_ltb) tied
           (exact_battery (selection_sort Exact.ts_ltb) tied "T") Cycles.Last24h).
  vm_compute. left. reflexivity.
Defined.

Lemma charging_counts_zero_witness :
  reported Cycles.Last24h (exact_battery (sort_values Cycles.ts_leb) charging "U") == 0 /\
  reported Cycles.AllTime (exact_battery (sort_values Cycles.ts_leb) charging "U") == 0.
Proof.
  assert (H : forall w,
             reported w (exact_battery (sort_values Cycles.ts_leb) charging "U") == 0).
  { apply (charging_counts_zero (sort_values Cycles.ts_leb) charging
             (exact_battery (sort_values Cycles.ts_leb) charging "U")
             stable_sorts).
    - vm_compute. left. reflexivity.
    - intros x y Hx Hy _ _. each_row Hx; each_row Hy;
        intros Ht; vm_compute in Ht; vm_compute;
        solve [discriminate | exfalso; apply Ht; reflexivity]. }
  split; apply H.
Defined.

End CyclesGenFacts.

(** ** detect_anomalies whatever the arithmetic *)

Module AnomalyGenFacts.

Section FramesFacts.

Variable S : AnomalyGen.stats.
Variable bucket : Type.
Variable ts : bucket -> Z.
Variable battery_id : bucket -> string.
Variable soc : bucket -> AnomalyGen.num S.

Local Abbreviation row := (AnomalyGen.row bucket (AnomalyGen.num S)).
Local Abbreviation key_leb := (AnomalyGen.key_leb bucket ts battery_id).
Local Abbreviation note := (AnomalyGen.note S).
Local Abbreviation group_diff := (AnomalyGen.group_diff S bucket battery_id soc).
Local Abbreviation assign_soc_drop := (AnomalyGen.assign_soc_drop S bucket).
Local Abbreviation id_of := (AnomalyGen.id_of S bucket battery_id).
Local Abbreviation is_anomalous := (AnomalyGen.is_anomalous S bucket).
Local Abbreviation flag_group := (AnomalyGen.flag_group S bucket).
Local Abbreviation detect_anomalies :=
  (AnomalyGen.detect_anomalies S bucket ts battery_id soc).
Local Abbreviation readings := (AnomalyGen.readings S bucket soc).
Local Abbreviation changes := (AnomalyGen.changes S).
Local Abbreviation adaptive := (AnomalyGen.adaptive S).
Local Abbreviation flagged := (AnomalyGen.flagged S bucket).
Local Abbreviation series := (AnomalyGen.series bucket ts battery_id).
Local Abbreviation diff_after := (AnomalyGen.diff_after S).
Local Abbreviation soc_drop := (@AnomalyGen.soc_drop bucket (AnomalyGen.num S)).
Local Abbreviation data := (@AnomalyGen.data bucket (AnomalyGen.num S)).

(** *** The column [soc_drop] *)

Lemma group_diff_length_any last df : length (group_diff last df) = length df.
Proof.
  revert last. induction df as [|r t IH]; intros last; simpl;
    [reflexivity | now rewrite IH].
Qed.

Lemma diff_after_length_any prev l : length (diff_after prev l) = length l.
Proof.
  revert prev. induction l as [|s t IH]; intros prev; simpl;
    [reflexivity | now rewrite IH].
Qed.

Lemma assign_data_any df col :
  length col = length df -> map data (assign_soc_drop df col) = df.
Proof.
  unfold AnomalyGen.assign_soc_drop. revert col.
  induction df as [|r t IH]; intros [|c col] H; simpl in *;
    try reflexivity; try discriminate.
  f_equal. apply IH. lia.
Qed.

Lemma assign_soc_drop_col_any df col :
  length col = length df -> map soc_drop (assign_soc_drop df col) = col.
Proof.
  unfold AnomalyGen.assign_soc_drop. revert col.
  induction df as [|r t IH]; intros [|c col] H; simpl in *;
    try reflexivity; try discriminate.
  f_equal. apply IH. lia.
Qed.

(** Restricted to one battery, the grouped difference is the plain
    first difference of the readings of that battery. *)
Lemma group_diff_filter_any last df b :
  filter (fun r => String.eqb (id_of r) b)
         (assign_soc_drop df (group_diff last df))
  = assign_soc_drop
      (filter (fun x => String.eqb (battery_id x) b) df)
      (diff_after (last b)
         (map soc (filter (fun x => String.eqb (battery_id x) b) df))).
Proof.
  revert last. induction df as [|r t IH]; intros last; [reflexivity|].
  change (assign_soc_drop (r :: t) (group_diff last (r :: t)))
    with (AnomalyGen.mkRow r
            (option_map (fun p => AnomalyGen.diff S (soc r) p)
                        (last (battery_id r)))
            :: assign_soc_drop t
                 (group_diff (note last (battery_id r) (soc r)) t)).
  cbn [filter]. unfold AnomalyGen.id_of at 1. cbn [AnomalyGen.data].
  rewrite IH.
  destruct (String.eqb (battery_id r) b) eqn:E.
  - apply String.eqb_eq in E. subst b.
    unfold AnomalyGen.note. rewrite String.eqb_refl. reflexivity.
  - unfold AnomalyGen.note. rewrite String.eqb_sym, E. reflexivity.
Qed.

Lemma id_of_assign_any df col :
  length col = length df ->
  map id_of (assign_soc_drop df col) = map battery_id df.
Proof.
  intros H. unfold AnomalyGen.id_of.
  rewrite <- (map_map data battery_id).
  now rewrite assign_data_any.
Qed.

(** *** The shape of an entry of the result *)

Lemma flag_group_eq_any b g : flag_group (b, g) = (b, g, flagged g).
Proof.
  unfold AnomalyGen.flag_group, AnomalyGen.flagged, AnomalyGen.adaptive.
  now destruct (length (present (map soc_drop g)) =? 0)%nat.
Qed.

Lemma detect_anomalies_entry_any df b g a :
  In (b, g, a) (detect_anomalies df) ->
  g = assign_soc_drop (series b df) (diff_after None (map soc (series b df))) /\
  a = flagged g.
Proof.
  unfold AnomalyGen.detect_anomalies, AnomalyGen.groupby. rewrite map_map.
  intros H. apply in_map_iff in H as (k & E & Hk).
  rewrite flag_group_eq_any in E. inversion E; subst k g a. clear E.
  split; [|reflexivity].
  apply group_diff_filter_any.
Qed.

Lemma present_diff_after p l :
  present (diff_after (Some p) l) = changes (p :: l).
Proof.
  revert p. induction l as [|s t IH]; intros p; [reflexivity|].
  cbn [AnomalyGen.diff_after option_map present]. now rewrite IH.
Qed.

(** The defined drops of a group are the changes from each reading of
    the group to the next. *)
Lemma defined_drops_changes df b g a :
  In (b, g, a) (detect_anomalies df) ->
  present (map soc_drop g) = changes (readings g).
Proof.
  intros H. apply detect_anomalies_entry_any in H as [-> _].
  unfold AnomalyGen.readings.
  rewrite <- (map_map data soc).
  rewrite assign_soc_drop_col_any, assign_data_any
    by now rewrite diff_after_length_any, length_map.
  destruct (map soc (series b df)) as [|s t]; [reflexivity|].
  cbn [AnomalyGen.diff_after option_map present]. apply present_diff_after.
Qed.

Lemma in_flagged_any g r :
  present (map soc_drop g) <> [] ->
  In r (flagged g) <->
  In r g /\ is_anomalous (adaptive (present (map soc_drop g))) r = true.
Proof.
  intros Hne. unfold AnomalyGen.flagged.
  destruct (present (map soc_drop g)) as [|d t] eqn:E; [congruence|].
  cbn [length Nat.eqb]. apply filter_In.
Qed.

(** A bucket with a defined drop is an anomaly exactly when one of the
    two comparisons of the program holds for its drop. *)
Lemma flagged_iff df b g a r d :
  In (b, g, a) (detect_anomalies df) ->
  changes (readings g) <> [] ->
  In r g -> soc_drop r = Some d ->
  In r a <->
  AnomalyGen.below_hard S d = true \/
  AnomalyGen.below S d (adaptive (changes (readings g))) = true.
Proof.
  intros He Hne Hr Hd.
  pose proof (defined_drops_changes df b g a He) as HD.
  apply detect_anomalies_entry_any in He as [_ ->].
  rewrite in_flagged_any by now rewrite HD.
  rewrite HD. unfold AnomalyGen.is_anomalous. rewrite Hd.
  cbn [AnomalyGen.lt_const AnomalyGen.lt_threshold].
  rewrite orb_true_iff. tauto.
Qed.

Variable L : AnomalyGen.degenerate S.

(** C6, as amended.  When the standard deviation of the defined drops
    of a battery (at least two) is zero, comparing with the adaptive
    threshold is comparing with the mean; a drop equal to the mean is
    then not below the threshold, and its bucket is an anomaly exactly
    when the drop is below -15.  With exactly one defined drop the
    standard deviation is NaN, the adaptive comparison is false, and
    the bucket is an anomaly exactly when the drop is below -15.
    This holds in every arithmetic, that of the machine included, in
    which subtracting 1.5 times zero changes nothing, [<] is strict, a
    comparison with NaN is false and the standard deviation of one
    value is NaN. *)
Theorem degenerate_threshold df b g a :
  In (b, g, a) (detect_anomalies df) ->
  ((2 <= length (changes (readings g)))%nat ->
   AnomalyGen.is_zero S L (AnomalyGen.std S (changes (readings g))) ->
   (forall x,
       AnomalyGen.below S x (adaptive (changes (readings g)))
       = AnomalyGen.less S L x (AnomalyGen.mean S (changes (readings g)))) /\
   (forall r d,
       In r g -> soc_drop r = Some d ->
       AnomalyGen.same S L d (AnomalyGen.mean S (changes (readings g))) ->
       AnomalyGen.below S d (adaptive (changes (readings g))) = false /\
       (In r a <-> AnomalyGen.below_hard S d = true))) /\
  (length (changes (readings g)) = 1%nat ->
   forall r d,
     In r g -> soc_drop r = Some d ->
     AnomalyGen.below S d (adaptive (changes (readings g))) = false /\
     (In r a <-> AnomalyGen.below_hard S d = true)).
Proof.
  intros He. split.
  - intros Hlen Hz.
    assert (HT : forall x,
               AnomalyGen.below S x (adaptive (changes (readings g)))
               = AnomalyGen.less S L x
                   (AnomalyGen.mean S (changes (readings g)))).
    { intros x. unfold AnomalyGen.adaptive.
      now apply AnomalyGen.threshold_zero. }
    split; [exact HT|].
    intros r d Hr Hd Hsame.
    assert (Hno : AnomalyGen.below S d (adaptive (changes (readings g))) = false).
    { rewrite HT. now apply AnomalyGen.less_strict. }
    split; [exact Hno|].
    rewrite (flagged_iff df b g a r d He) by
      (try assumption; intros E; rewrite E in Hlen; simpl in Hlen; lia).
    rewrite Hno. intuition discriminate.
  - intros Hlen r d Hr Hd.
    assert (Hno : AnomalyGen.below S d (adaptive (changes (readings g))) = false).
    { unfold AnomalyGen.adaptive.
      destruct (changes (readings g)) as [|x [|y t]]; try discriminate.
      apply (AnomalyGen.threshold_nan S L), AnomalyGen.std_single. }
    split; [exact Hno|].
    rewrite (flagged_iff df b g a r d He) by
      (try assumption; intros E; rewrite E in Hlen; discriminate).
    rewrite Hno. intuition discriminate.
Qed.

End FramesFacts.

(** *** The exact reading *)

Local Abbreviation exact_changes := (AnomalyGen.changes Exact.stats).
Local Abbreviation exact_readings :=
  (AnomalyGen.readings Exact.stats Anomaly.bucket Anomaly.soc).
Local Abbreviation exact_adaptive := (AnomalyGen.adaptive Exact.stats).
Local Abbreviation exact_below := (AnomalyGen.below Exact.stats).
Local Abbreviation exact_below_hard := (AnomalyGen.below_hard Exact.stats).

Lemma Q2R_of_nat n : Q2R (inject_Z (Z.of_nat n)) = INR n.
Proof.
  unfold Q2R. cbn [Qnum Qden inject_Z]. rewrite <- INR_IZR_INZ.
  rewrite RMicromega.Rinv_1. reflexivity.
Qed.

Lemma exact_below_hard_lt d : exact_below_hard d = true <-> d < -15.
Proof. apply Qltb_lt. Qed.

(** In the exact reading [Series.mean] is the arithmetic mean,
    [Series.std] the root of the unbiased variance, and the adaptive
    comparison the comparison of real numbers. *)
Lemma exact_adaptive_real (D : list Q) (d : Q) :
  (2 <= length D)%nat ->
  exists (mu : Q) (sigma : R),
    inject_Z (Z.of_nat (length D)) * mu == fold_right Qplus 0 D /\
    (0 <= sigma)%R /\
    ((INR (length D) - 1) * (sigma * sigma))%R
    = Q2R (fold_right Qplus 0 (map (fun x => (x - mu) * (x - mu)) D)) /\
    (exact_below d (exact_adaptive D) = true
     <-> (Q2R d < Q2R mu - 3 / 2 * sigma)%R).
Proof.
  intros Hlen.
  exists (mean D), (sqrt (Q2R (sample_variance D))).
  assert (Hne : D <> []) by (intros E; rewrite E in Hlen; simpl in Hlen; lia).
  pose proof (sample_variance_nonneg D Hlen) as Hv.
  apply Qle_Rle in Hv. rewrite RMicromega.Q2R_0 in Hv.
  repeat split.
  - exact (AnomalyMore.mean_times_len D Hne).
  - apply sqrt_pos.
  - rewrite (sqrt_sqrt _ Hv).
    pose proof (AnomalyMore.variance_times D Hlen) as H.
    apply Qeq_eqR in H. rewrite Q2R_mult, Q2R_minus in H.
    unfold Qlen in H. rewrite Q2R_of_nat in H.
    change (Q2R 1) with (Q2R (inject_Z (Z.of_nat 1))) in H.
    rewrite Q2R_of_nat in H. cbn [INR] in H.
    fold (Qsum (map (fun x => (x - mean D) * (x - mean D)) D)).
    rewrite <- H. rlra.
  - destruct (AnomalyFacts.threshold_value D Hlen) as (t & Ht & Ht0 & HR).
    change (exact_adaptive D) with (Anomaly.threshold_of D). rewrite Ht.
    cbn [AnomalyGen.below Exact.stats].
    intros H. apply (Qlt_surd_spec d t Ht0) in H. now rewrite <- HR.
  - destruct (AnomalyFacts.threshold_value D Hlen) as (t & Ht & Ht0 & HR).
    change (exact_adaptive D) with (Anomaly.threshold_of D). rewrite Ht.
    cbn [AnomalyGen.below Exact.stats].
    intros H. apply (Qlt_surd_spec d t Ht0). now rewrite HR.
Qed.


(** *** The exact reading is the module [Anomaly] *)

Lemma present_dropna col : present col = dropna col.
Proof.
  induction col as [|[d|] t IH]; cbn [present dropna];
    [reflexivity | now rewrite IH | exact IH].
Qed.

Lemma exact_group_diff last df :
  AnomalyGen.group_diff Exact.stats Anomaly.bucket Anomaly.battery_id
                        Anomaly.soc last df
  = Anomaly.group_diff last df.
Proof.
  revert last. induction df as [|r t IH]; intros last; [reflexivity|].
  cbn [AnomalyGen.group_diff Anomaly.group_diff]. now rewrite IH.
Qed.

Lemma plain_assign df col :
  map Exact.plain_row (AnomalyGen.assign_soc_drop Exact.stats Anomaly.bucket df col)
  = Anomaly.assign_soc_drop df col.
Proof.
  unfold AnomalyGen.assign_soc_drop, Anomaly.assign_soc_drop.
  rewrite map_map. reflexivity.
Qed.

Lemma plain_filter (p : Anomaly.row -> bool) (g : list Exact.row) :
  map Exact.plain_row (filter (fun r => p (Exact.plain_row r)) g)
  = filter p (map Exact.plain_row g).
Proof.
  induction g as [|x t IH]; [reflexivity|].
  cbn [filter map]. destruct (p (Exact.plain_row x)); cbn [map];
    now rewrite IH.
Qed.

Lemma plain_flag_group b g :
  Exact.plain_entry (AnomalyGen.flag_group Exact.stats Anomaly.bucket (b, g))
  = Anomaly.flag_group (b, map Exact.plain_row g).
Proof.
  unfold AnomalyGen.flag_group, Anomaly.flag_group.
  rewrite map_map.
  change (map (fun x => Anomaly.soc_drop (Exact.plain_row x)) g)
    with (map AnomalyGen.soc_drop g).
  rewrite present_dropna.
  change (AnomalyGen.num Exact.stats) with Q in *.
  destruct (length (dropna (map AnomalyGen.soc_drop g)) =? 0)%nat;
    [reflexivity|].
  unfold Exact.plain_entry. cbn [fst snd]. f_equal.
  apply (plain_filter
           (Anomaly.is_anomalous
              (Anomaly.threshold_of (dropna (map AnomalyGen.soc_drop g))))).
Qed.

Lemma plain_groupby rows :
  map (fun bg => (fst bg, map Exact.plain_row (snd bg)))
      (AnomalyGen.groupby Exact.stats Anomaly.bucket Anomaly.battery_id rows)
  = Anomaly.groupby (map Exact.plain_row rows).
Proof.
  unfold AnomalyGen.groupby, Anomaly.groupby. rewrite !map_map.
  apply map_ext. intros b. cbn [fst snd]. f_equal.
  apply (plain_filter (fun r => String.eqb (Anomaly.id_of r) b)).
Qed.

(** [detect_anomalies] in the exact reading is
    [Anomaly.detect_anomalies]. *)
Lemma exact_anomalies_plain df :
  map Exact.plain_entry (Exact.detect_anomalies df) = Anomaly.detect_anomalies df.
Proof.
  unfold Exact.detect_anomalies, AnomalyGen.detect_anomalies,
    Anomaly.detect_anomalies.
  rewrite map_map.
  rewrite (map_ext _ (fun bg => Anomaly.flag_group
                                  (fst bg, map Exact.plain_row (snd bg))))
    by (intros [b g]; apply plain_flag_group).
  rewrite <- (map_map (fun bg => (fst bg, map Exact.plain_row (snd bg)))
                      Anomaly.flag_group).
  rewrite plain_groupby, plain_assign, exact_group_diff.
  reflexivity.
Qed.

(** The exact reading meets what the degenerate cases rest on. *)
Lemma exact_threshold_zero m s x :
  Exact.is_zero s ->
  exact_below x (AnomalyGen.threshold Exact.stats m s) = Qltb x m.
Proof.
  destruct s as [t|]; [|intros []]. intros [Hr Hv].
  cbn [AnomalyGen.below AnomalyGen.threshold Exact.stats option_map].
  apply eq_true_iff_eq.
  rewrite Qlt_surd_spec
    by (cbn [radicand surd_rsub surd_scale]; rewrite Hv; apply Qle_refl).
  rewrite Qltb_Rlt.
  unfold surd_R. cbn [rat_part coef radicand surd_rsub surd_scale].
  rewrite (Qeq_eqR _ _ Hv), RMicromega.Q2R_0, sqrt_0, Rmult_0_r, Rplus_0_r.
  rewrite (Qeq_eqR (m - (3 # 2) * rat_part t) m) by (rewrite Hr; ring).
  tauto.
Qed.

Lemma exact_less_strict x m : x == m -> Qltb x m = false.
Proof.
  intros H. destruct (Qltb x m) eqn:E; [|reflexivity].
  apply Qltb_lt in E. rewrite H in E. now apply Qlt_irrefl in E.
Qed.

Lemma exact_degenerate : AnomalyGen.degenerate Exact.stats.
Proof.
  refine (AnomalyGen.mkDegenerate Exact.stats Qltb Qeq Exact.is_zero
            Exact.is_nan exact_threshold_zero exact_less_strict _ _).
  - intros m s x H. unfold Exact.is_nan in H. subst s. reflexivity.
  - intros x. reflexivity.
Defined.

(** *** The theorems at work *)

Import AnomalyExamples.
Local Open Scope string_scope.

Example detect_late_fall :
  Exact.detect_anomalies late_fall = [("F", late_fall_group, [late_fall_last])].
Proof. vm_compute. reflexivity. Qed.

Example detect_steep :
  Exact.detect_anomalies steep = [("Z", steep_group, [steep_second; steep_third])].
Proof. vm_compute. reflexivity. Qed.

Example detect_steady_exact :
  Exact.detect_anomalies steady = [("S", steady_group, [])].
Proof. vm_compute. reflexivity. Qed.

Example detect_discharge_exact :
  Exact.detect_anomalies discharge = [("B1", discharge_group, [discharge_last])].
Proof. vm_compute. reflexivity. Qed.

(** On [late_fall] the drop of -10 of the last bucket is above the
    hard threshold and below the adaptive one. *)
Example late_fall_adaptive :
  exact_below_hard (-10 # 1) = false /\
  exact_below (-10 # 1) (exact_adaptive (exact_changes (exact_readings late_fall_group)))
  = true.
Proof. vm_compute. split; reflexivity. Qed.

Ltac in_rows := repeat (first [ left; reflexivity | right ]).


(** C6, as stated, fails: on [steep] both defined drops are -20, their
    standard deviation is zero and their mean is -20, and both buckets
    are anomalies, by the hard threshold. *)
Lemma degenerate_threshold_counterexample :
  ~ (forall df b g a r d,
        In (b, g, a) (Exact.detect_anomalies df) ->
        (2 <= length (exact_changes (exact_readings g)))%nat ->
        Exact.is_zero (std (exact_changes (exact_readings g))) ->
        In r g -> AnomalyGen.soc_drop r = Some d ->
        d == mean (exact_changes (exact_readings g)) ->
        ~ In r a).
Proof.
  intros H.
  apply (H steep "Z" steep_group [steep_second; steep_third]
           steep_second (-20 # 1)).
  - rewrite detect_steep. left. reflexivity.
  - vm_compute. lia.
  - vm_compute. split; reflexivity.
  - in_rows.
  - reflexivity.
  - vm_compute. reflexivity.
  - left. reflexivity.
Qed.

Lemma degenerate_threshold_witness :
  (exact_below (-10 # 1) (exact_adaptive (exact_changes (exact_readings steady_group)))
   = false /\
   (In steady_second [] <-> exact_below_hard (-10 # 1) = true)) /\
  (exact_below (-20 # 1)
     (exact_adaptive (exact_changes (exact_readings discharge_group))) = false /\
   (In discharge_last [discharge_last] <-> exact_below_hard (-20 # 1) = true)).
Proof.
  split.
  - destruct (degenerate_threshold Exact.stats Anomaly.bucket Anomaly.ts
                Anomaly.battery_id Anomaly.soc exact_degenerate
                steady "S" steady_group [])
      as [H _].
    + vm_compute. left. reflexivity.
    + destruct H as [_ H].
      * vm_compute. lia.
      * vm_compute. split; reflexivity.
      * apply (H steady_second (-10 # 1)).
        -- in_rows.
        -- reflexivity.
        -- vm_compute. reflexivity.
  - destruct (degenerate_threshold Exact.stats Anomaly.bucket Anomaly.ts
                Anomaly.battery_id Anomaly.soc exact_degenerate
                discharge "B1" discharge_group [discharge_last])
      as [_ H].
    + vm_compute. left. reflexivity.
    + apply (H ltac:(reflexivity) discharge_last (-20 # 1)).
      * in_rows.
      * reflexivity.
Defined.

End AnomalyGenFacts.
